(** * Lexicon Live: the evolution engine of [src/server.js]

    A shallow embedding of the in-memory lexicon engine: the phonology
    generator ([weightedChoice], [genSyllable], [genWord]), the seeding of a
    fresh state, the generation step [evolveStep], the sentence generator
    [generateSentence] and the merge performed by [syncFromPi].

    Conventions of the embedding.
    - JavaScript objects used as maps ([state.words], [state.compounds]) are
      association lists in insertion order, which is the order of
      [Object.keys] for keys that are not array indices; every key the engine
      creates is a word over lower-case letters.
    - [Math.random()] reads the next cell of a tape of rationals, each the
      exact value of a binary64 number in [0, 1); the constants it is
      compared with are the exact values of the binary64 literals of the
      source, and a product [Math.random() * n] is the exact product
      rounded to the nearest binary64 value, as the multiplication of
      JavaScript rounds it.
    - [fitness] is a binary64 float ([PrimFloat]), counters are integers
      incremented as a binary64 increments them.
    - Strings are over one-byte characters, as are all forms the engine
      builds, so that [length] is the JavaScript [.length]. *)

From Stdlib Require Import List String Ascii Bool ZArith QArith Qround Lia.
From Stdlib Require Import Qpower Lqa Permutation PrimFloat.
Import ListNotations.

Local Close Scope Q_scope.
Local Open Scope string_scope.
Local Open Scope list_scope.

(** ** JavaScript values *)

Module JS.

(** The value an out-of-range array read yields, as it appears once it is
    used as a property key or concatenated to a string. *)
Definition undefined : string := "undefined".

(** [arr[i]] on an array of strings. *)
Definition index (arr : list string) (i : nat) : string := nth i arr undefined.

(** [n + 1] on a Number holding an integer between -2^53 and 2^53: exact
    below 2^53, where the increment is absorbed by rounding. *)
Definition incr (n : Z) : Z := if (n <? 2 ^ 53)%Z then (n + 1)%Z else n.

(** [arr.slice(-n)]: the last [n] elements. *)
Definition slice_last {A : Type} (n : nat) (arr : list A) : list A :=
  skipn (List.length arr - n) arr.

(** [if (arr.length > n) arr = arr.slice(-n)]. *)
Definition ring {A : Type} (n : nat) (arr : list A) : list A :=
  if (n <? List.length arr)%nat then slice_last n arr else arr.

(** [s.slice(0, n)] and [s.slice(n)] on strings, for [n] a natural number. *)
Definition str_take (n : nat) (s : string) : string := substring 0 n s.
Definition str_drop (n : nat) (s : string) : string :=
  substring n (String.length s - n) s.

(** [s.split('')]: the characters as one-character strings. *)
Fixpoint split_chars (s : string) : list string :=
  match s with
  | EmptyString => []
  | String c s' => String c EmptyString :: split_chars s'
  end.

(** [arr.join('')]. *)
Definition join (arr : list string) : string := fold_right append "" arr.

(** [arr.join(' ')]. *)
Fixpoint join_sp (arr : list string) : string :=
  match arr with
  | [] => ""
  | [x] => x
  | x :: rest => (x ++ " " ++ join_sp rest)%string
  end.

(** [Math.min(a, b)] on binary64 values: NaN is contagious and -0 < +0. *)
Definition Math_min (a b : float) : float :=
  if (is_nan a || is_nan b)%bool then nan
  else if ltb a b then a
  else if ltb b a then b
  else if (is_zero a && get_sign a)%bool then a else b.

End JS.

(** ** Binary64 products *)

Module B64.

Definition pow2 (z : Z) : Q := Qpower (2 # 1) z.

(** The exponent of a positive rational: the largest [e] with
    [2^e <= q]. *)
Definition ilog2 (q : Q) : Z :=
  let e0 := (Z.log2 (Qnum q) - Z.log2 (Zpos (Qden q)))%Z in
  if Qle_bool (pow2 e0) q then e0 else (e0 - 1)%Z.

(** The nearest integer, the even one of two that are as near. *)
Definition nearest_even (m : Q) : Z :=
  let f := Qfloor m in
  match Qcompare (m - inject_Z f) (1 # 2) with
  | Lt => f
  | Gt => (f + 1)%Z
  | Eq => if Z.even f then f else (f + 1)%Z
  end.

(** The binary64 value a result [q] is rounded to, for [0 <= q < 2^1024]:
    the nearest multiple of the unit in the last of 53 bits, no unit being
    smaller than 2^-1074, ties going to the even multiple. *)
Definition round (q : Q) : Q :=
  if Qle_bool q 0 then 0%Q
  else
    let ulp := pow2 (Z.max (ilog2 q - 52) (-1074)) in
    (inject_Z (nearest_even (q / ulp)) * ulp)%Q.

(** [q] is [m / 2^k] with [|m| < 2^53] and [k <= 1074]: for [|q| < 2^53],
    the rationals that are binary64 values. *)
Definition is_double (q : Q) : bool :=
  let q' := Qred q in
  let k := Z.log2 (Zpos (Qden q')) in
  ((Zpos (Qden q') =? 2 ^ k)%Z && (k <=? 1074)%Z
   && (Z.abs (Qnum q') <? 2 ^ 53)%Z)%bool.

End B64.

(** ** The random source *)

(** The tape of values [Math.random()] returns, and how many were read. *)
Record Rng := mkRng { tape : nat -> Q; cursor : nat }.

(** What [Math.random()] promises: a Number in [0, 1). *)
Definition valid_draw (r : Q) : Prop :=
  (0 <= r)%Q /\ (r < 1)%Q /\ B64.is_double r = true.

Definition valid_tape (g : Rng) : Prop := forall n, valid_draw (tape g n).

(** Computations that read the random source. *)
Definition Rand (A : Type) : Type := Rng -> A * Rng.

Definition ret {A : Type} (a : A) : Rand A := fun g => (a, g).

Definition bind {A B : Type} (m : Rand A) (k : A -> Rand B) : Rand B :=
  fun g => let (a, g') := m g in k a g'.

Notation "x <- m ;; k" := (bind m (fun x => k))
  (at level 61, m at next level, right associativity).

Definition Math_random : Rand Q :=
  fun g => (tape g (cursor g), mkRng (tape g) (S (cursor g))).

(** A tape that replays a finite list and then repeats [d]. *)
Definition tape_of (l : list Q) (d : Q) : Rng := mkRng (fun n => nth n l d) 0.

Definition Qltb (x y : Q) : bool := negb (Qle_bool y x).

(** The binary64 values of the probability literals of the source. *)
Definition lit_0_1 : Q := 3602879701896397 # 36028797018963968.
Definition lit_0_15 : Q := 5404319552844595 # 36028797018963968.
Definition lit_0_2 : Q := 3602879701896397 # 18014398509481984.
Definition lit_0_3 : Q := 5404319552844595 # 18014398509481984.
Definition lit_0_5 : Q := 1 # 2.
Definition lit_0_7 : Q := 3152519739159347 # 4503599627370496.

(** [Math.floor(r * n)], the product being rounded to binary64. *)
Definition floor_mul (r : Q) (n : nat) : nat :=
  Z.to_nat (Qfloor (B64.round (r * inject_Z (Z.of_nat n)))).

(** [Math.floor(Math.random() * n)]. *)
Definition random_index (n : nat) : Rand nat :=
  r <- Math_random ;; ret (floor_mul r n).

(** ** Phonology generator *)

Definition CONSONANTS : list string :=
  ["k"; "n"; "t"; "s"; "m"; "r"; "h"; "p"; "l"; "w"; "v"; "z"].
Definition VOWELS : list string := ["a"; "i"; "u"; "e"; "o"].
Definition C_WEIGHTS : list Z := [12; 15; 10; 8; 12; 8; 6; 5; 7; 4; 3; 2]%Z.
Definition V_WEIGHTS : list Z := [20; 15; 10; 12; 8]%Z.

(** The loop of [weightedChoice]: the first item whose cumulated weight
    reaches [r].  A missing weight makes [cum] NaN, after which no
    comparison succeeds. *)
Fixpoint weightedChoice_loop (items : list string) (weights : list Z)
    (r : Q) (cum : Z) : option string :=
  match items, weights with
  | [], _ => None
  | _ :: _, [] => None
  | it :: items', w :: weights' =>
      let cum' := (cum + w)%Z in
      if Qle_bool r (inject_Z cum') then Some it
      else weightedChoice_loop items' weights' r cum'
  end.

Definition weightedChoice (items : list string) (weights : list Z)
    : Rand string :=
  let total := fold_left Z.add weights 0%Z in
  x <- Math_random ;;
  let r := B64.round (x * inject_Z total) in
  match weightedChoice_loop items weights r 0 with
  | Some it => ret it
  | None => ret (JS.index items (List.length items - 1))
  end.

Definition genSyllable : Rand string :=
  x <- Math_random ;;
  onset <- (if Qltb lit_0_2 x then weightedChoice CONSONANTS C_WEIGHTS
            else ret "") ;;
  nucleus <- weightedChoice VOWELS V_WEIGHTS ;;
  y <- Math_random ;;
  coda <- (if Qltb lit_0_7 y
           then i <- random_index 3 ;; ret (JS.index ["n"; "m"; ""] i)
           else ret "") ;;
  ret (onset ++ nucleus ++ coda)%string.

(** [Array.from({length: n}, () => genSyllable())]. *)
Fixpoint genSyllables (n : nat) : Rand (list string) :=
  match n with
  | O => ret []
  | S n' => s <- genSyllable ;; rest <- genSyllables n' ;; ret (s :: rest)
  end.

(** The loop of [genWord] over the weights 15, 50, 35: the number of
    syllables, 2 when no cumulated weight reaches [r]. *)
Fixpoint syllable_count (weights : list Z) (r : Q) (cum : Z) (i : nat)
    : nat :=
  match weights with
  | [] => 2
  | w :: weights' =>
      let cum' := (cum + w)%Z in
      if Qle_bool r (inject_Z cum') then i + 1
      else syllable_count weights' r cum' (i + 1)
  end.

Definition genWord : Rand string :=
  _syls <- random_index 3 ;;
  x <- Math_random ;;
  let r := B64.round (x * inject_Z 100) in
  let n := syllable_count [15; 50; 35]%Z r 0 0 in
  syls <- genSyllables n ;;
  ret (JS.join syls).

(** ** Objects used as maps *)

Module Obj.

Section Map.
Context {V : Type}.

(** An object with string keys, in insertion order.  The objects of the
    engine inherit from [Object.prototype]; no form it can build (lower-case
    letters other than "c") names an inherited property, so a read finds
    own properties only. *)
Definition t : Type := list (string * V).

(** [Object.keys(o)]. *)
Definition keys (o : t) : list string := map fst o.

(** [Object.values(o)]. *)
Definition values (o : t) : list V := map snd o.

(** [o[k]], [None] standing for [undefined]. *)
Fixpoint get (k : string) (o : t) : option V :=
  match o with
  | [] => None
  | (k', v) :: o' => if String.eqb k k' then Some v else get k o'
  end.

(** The truth value of [o[k]] when every value is an object. *)
Definition has (k : string) (o : t) : bool :=
  match get k o with Some _ => true | None => false end.

(** [o[k] = v]: an existing key keeps its place, a new one goes last. *)
Fixpoint set (k : string) (v : V) (o : t) : t :=
  match o with
  | [] => [(k, v)]
  | (k', v') :: o' =>
      if String.eqb k k' then (k', v) :: o' else (k', v') :: set k v o'
  end.

(** [delete o[k]]. *)
Definition delete (k : string) (o : t) : t :=
  filter (fun e => negb (String.eqb k (fst e))) o.

(** [o[k] = f(o[k])] for a key that is present; no entry, no effect. *)
Definition update (k : string) (f : V -> V) (o : t) : t :=
  match get k o with
  | Some v => set k (f v) o
  | None => o
  end.

(** Keys of a JavaScript object are pairwise distinct. *)
Definition wf (o : t) : Prop := NoDup (keys o).

End Map.

Arguments t : clear implicits.

End Obj.

(** ** Data model *)

Record Word := mkWord {
  meaning : string;
  category : string;
  born : Z;
  uses : Z;
  fitness : float;
  history : list string
}.

Record Compound := mkCompound {
  parts : string * string;
  meanings : string * string;
  compound_meaning : string;
  cborn : Z
}.

Record ExtinctRecord := mkExtinct {
  x_word : string;
  x_meaning : string;
  x_born : Z;
  x_died : Z;
  x_uses : Z
}.

Record ShiftRecord := mkShift {
  sh_gen : Z;
  sh_from : string;
  sh_to : string;
  sh_meaning : string
}.

(** The events of one generation, [type] being the constructor. *)
Inductive Event :=
| EvBirth (gen : Z) (word meaning category : string)
| EvExtinct (gen : Z) (word meaning : string)
| EvShift (gen : Z) (from to meaning : string)
| EvCompound (gen : Z) (word meaning : string) (parts : string * string).

(** An event as stored in [state.events]: [{...e, time}]. *)
Record Archived := mkArchived { ev : Event; time : string }.

(** [state.stats]; a counter may be missing in a snapshot. *)
Record Stats := mkStats {
  total_generated : option Z;
  total_extinct : option Z;
  total_compounds : option Z;
  total_shifts : option Z
}.

(** The [state] object, also the shape of a snapshot and of the remote
    state: any field may be missing. *)
Record State := mkState {
  words : option (Obj.t Word);
  compounds : option (Obj.t Compound);
  generation : option Z;
  extinct : option (list ExtinctRecord);
  sound_shifts : option (list ShiftRecord);
  events : option (list Archived);
  stats : option Stats;
  piConnected : option bool;
  lastPiSync : option string
}.

(** [x || d]. *)
Definition or_else {A : Type} (x : option A) (d : A) : A :=
  match x with Some a => a | None => d end.

(** [n || 0] on a counter: a missing counter and 0 are both falsy. *)
Definition num_or_0 (n : option Z) : Z := or_else n 0%Z.

(** ** Concept catalog *)

Definition CONCEPTS : list (string * list string) :=
  [ ("natural", ["water"; "fire"; "earth"; "wind"; "stone"; "tree"; "river";
                 "mountain"; "sun"; "moon"; "star"; "rain"; "snow"; "flower";
                 "seed"; "sky"; "ocean"; "cloud"]);
    ("abstract", ["time"; "space"; "change"; "pattern"; "boundary"; "flow";
                  "balance"; "emergence"; "connection"; "threshold"; "cycle";
                  "wave"; "order"; "chaos"]);
    ("quality", ["big"; "small"; "fast"; "slow"; "bright"; "dark"; "warm";
                 "cold"; "old"; "new"; "near"; "far"; "deep"; "high"; "soft";
                 "hard"]);
    ("action", ["move"; "grow"; "break"; "join"; "give"; "take"; "make";
                "find"; "hold"; "release"; "begin"; "end"; "turn"; "fall";
                "rise"; "flow"]);
    ("relation", ["with"; "from"; "toward"; "through"; "between"; "within";
                  "beyond"; "around"]);
    ("being", ["self"; "other"; "many"; "one"; "all"; "none"; "part";
               "whole"]) ].

(** The loop that fills [ALL_CONCEPTS] and [CONCEPT_CATS]. *)
Definition catalog : list string * Obj.t string :=
  fold_left
    (fun acc entry =>
       fold_left
         (fun acc' c => (fst acc' ++ [c], Obj.set c (fst entry) (snd acc')))
         (snd entry) acc)
    CONCEPTS ([], []).

Definition ALL_CONCEPTS : list string := Eval vm_compute in fst catalog.
Definition CONCEPT_CATS : Obj.t string := Eval vm_compute in snd catalog.

(** [CONCEPT_CATS[c]]. *)
Definition concept_cat (c : string) : string :=
  or_else (Obj.get c CONCEPT_CATS) JS.undefined.

(** ** Start-up: snapshot or fresh seed *)

Definition fresh_state : State :=
  mkState (Some []) (Some []) (Some 0%Z) (Some []) (Some []) (Some [])
          (Some (mkStats (Some 0%Z) (Some 0%Z) (Some 0%Z) (Some 0%Z)))
          None None.

(** [[...new Set(l)]]: first occurrences, in order. *)
Fixpoint dedupe (seen l : list string) : list string :=
  match l with
  | [] => []
  | x :: l' =>
      if existsb (String.eqb x) seen then dedupe seen l'
      else x :: dedupe (x :: seen) l'
  end.

(** The ten concepts drawn with replacement. *)
Fixpoint draw_concepts (n : nat) : Rand (list string) :=
  match n with
  | O => ret []
  | S n' =>
      i <- random_index (List.length ALL_CONCEPTS) ;;
      rest <- draw_concepts n' ;;
      ret (JS.index ALL_CONCEPTS i :: rest)
  end.

Definition seed_word (concept word : string) : Word :=
  mkWord concept (concept_cat concept) 0 1 1.0%float [word].

(** The loop over [unique]: one generated form per concept, assigned
    without looking at the forms already present. *)
Fixpoint seed_words (unique : list string) (ws : Obj.t Word)
    : Rand (Obj.t Word) :=
  match unique with
  | [] => ret ws
  | concept :: rest =>
      word <- genWord ;;
      seed_words rest (Obj.set word (seed_word concept word) ws)
  end.

(** The distinct concepts of a seeding run. *)
Definition seed_concepts : Rand (list string) :=
  initial <- draw_concepts 10 ;;
  ret (firstn 10 (dedupe [] initial)).

(** Lines 78 to 100: the state the process starts with.  [None] is a
    start-up that throws (a write into a missing [words] or [stats]). *)
Definition startup (lexiconSnapshot : option State)
    : Rand (option State) :=
  let state := or_else lexiconSnapshot fresh_state in
  let with_events (s : State) : State :=
    mkState (words s) (compounds s) (generation s) (extinct s)
            (sound_shifts s) (Some (or_else (events s) []))
            (stats s) (piConnected s) (lastPiSync s) in
  match words state with
  | None => ret None
  | Some (_ :: _) => ret (Some (with_events state))
  | Some [] =>
      unique <- seed_concepts ;;
      ws <- seed_words unique [] ;;
      match stats state with
      | None => ret None
      | Some st =>
          let st' := mkStats (Some (Z.of_nat (List.length (Obj.keys ws))))
                             (total_extinct st) (total_compounds st)
                             (total_shifts st) in
          ret (Some (with_events
                 (mkState (Some ws) (compounds state) (generation state)
                          (extinct state) (sound_shifts state)
                          (events state) (Some st') (piConnected state)
                          (lastPiSync state))))
      end
  end.

(** ** Evolution engine *)

(** The state once [evolveStep] has made sure every field exists (lines
    104 to 116), together with the generation's event array. *)
Record Lex := mkLex {
  l_words : Obj.t Word;
  l_compounds : Obj.t Compound;
  l_generation : Z;
  l_extinct : list ExtinctRecord;
  l_sound_shifts : list ShiftRecord;
  l_events : list Archived;
  l_generated : Z;
  l_extinct_n : Z;
  l_compounds_n : Z;
  l_shifts_n : Z;
  l_out : list Event
}.

(** Lines 104 to 117: defaults for missing fields, then the new
    generation number. *)
Definition ensure (s : State) : Lex :=
  let st := or_else (stats s) (mkStats (Some 0) (Some 0) (Some 0) (Some 0))%Z in
  mkLex (or_else (words s) []) (or_else (compounds s) [])
        (JS.incr (num_or_0 (generation s)))
        (or_else (extinct s) []) (or_else (sound_shifts s) [])
        (or_else (events s) [])
        (num_or_0 (total_generated st)) (num_or_0 (total_extinct st))
        (num_or_0 (total_compounds st)) (num_or_0 (total_shifts st))
        [].

(** The [state] object that a finished step leaves. *)
Definition commit (s : State) (l : Lex) : State :=
  mkState (Some (l_words l)) (Some (l_compounds l)) (Some (l_generation l))
          (Some (l_extinct l)) (Some (l_sound_shifts l)) (Some (l_events l))
          (Some (mkStats (Some (l_generated l)) (Some (l_extinct_n l))
                         (Some (l_compounds_n l)) (Some (l_shifts_n l))))
          (piConnected s) (lastPiSync s).

Definition with_words (ws : Obj.t Word) (l : Lex) : Lex :=
  mkLex ws (l_compounds l) (l_generation l) (l_extinct l) (l_sound_shifts l)
        (l_events l) (l_generated l) (l_extinct_n l) (l_compounds_n l)
        (l_shifts_n l) (l_out l).

(** The binary64 values of the fitness literals 0.05, 0.1 and 0.2. *)
Definition lit_f_0_05 : float := 0x1.999999999999ap-5%float.
Definition lit_f_0_1 : float := 0x1.999999999999ap-4%float.
Definition lit_f_0_2 : float := 0x1.999999999999ap-3%float.

(** *** 1. Birth *)

(** [let word = genWord(); while (state.words[word]) word = genWord();]
    with at most [fuel] calls of [genWord]; [None] when they are used up. *)
Fixpoint fresh_form (fuel : nat) (ws : Obj.t Word) (g : Rng)
    : option (string * Rng) :=
  match fuel with
  | O => None
  | S fuel' =>
      let (word, g') := genWord g in
      if Obj.has word ws then fresh_form fuel' ws g' else Some (word, g')
  end.

Definition newborn (gen : Z) (concept word : string) : Word :=
  mkWord concept (concept_cat concept) gen 0 0.5%float [word].

(** The concept of a birth: an uncovered one when there is one. *)
Definition pick_concept (ws : Obj.t Word) : Rand string :=
  let covered := map meaning (Obj.values ws) in
  let uncovered :=
    filter (fun c => negb (existsb (String.eqb c) covered)) ALL_CONCEPTS in
  if (0 <? List.length uncovered)%nat
  then i <- random_index (List.length uncovered) ;;
       ret (JS.index uncovered i)
  else i <- random_index (List.length ALL_CONCEPTS) ;;
       ret (JS.index ALL_CONCEPTS i).

Definition add_birth (concept word : string) (l : Lex) : Lex :=
  let gen := l_generation l in
  mkLex (Obj.set word (newborn gen concept word) (l_words l))
        (l_compounds l) gen (l_extinct l) (l_sound_shifts l) (l_events l)
        (JS.incr (l_generated l)) (l_extinct_n l) (l_compounds_n l)
        (l_shifts_n l)
        (l_out l ++ [EvBirth gen word concept (concept_cat concept)]).

Definition birth (fuel : nat) (l : Lex) (g : Rng) : option (Lex * Rng) :=
  let (x, g1) := Math_random g in
  if Qltb x lit_0_7 then
    let (concept, g2) := pick_concept (l_words l) g1 in
    match fresh_form fuel (l_words l) g2 with
    | None => None
    | Some (word, g3) => Some (add_birth concept word l, g3)
    end
  else Some (l, g1).

(** *** 2. Usage *)

Definition use_word (d : Word) : Word :=
  mkWord (meaning d) (category d) (born d) (JS.incr (uses d))
         (JS.Math_min 2.0%float (fitness d + lit_f_0_1)%float) (history d).

Definition usedCount (ws : Obj.t Word) : nat :=
  Nat.max 1 (List.length (Obj.keys ws) / 3).

(** The loop over the first [min(usedCount, shuffled.length)] entries of
    [shuffled], each of which is a key of [state.words] since sorting
    permutes. *)
Definition use_all (shuffled : list string) (ws : Obj.t Word) : Obj.t Word :=
  fold_left (fun acc w => Obj.update w use_word acc)
            (firstn (Nat.min (usedCount ws) (List.length shuffled)) shuffled)
            ws.

(** *** 3. Decay *)

Definition decay_word (gen : Z) (d : Word) : Word :=
  let age := (gen - born d)%Z in
  if (0 <? age)%Z then
    let f1 := (fitness d - lit_f_0_05)%float in
    let f2 := if ((uses d =? 0) && (3 <? age))%Z%bool
              then (f1 - lit_f_0_2)%float else f1 in
    mkWord (meaning d) (category d) (born d) (uses d) f2 (history d)
  else d.

Definition decay (l : Lex) : Lex :=
  with_words
    (fold_left (fun acc w => Obj.update w (decay_word (l_generation l)) acc)
               (Obj.keys (l_words l)) (l_words l))
    l.

(** *** 4. Extinction *)

Definition is_dead (d : Word) : bool := (fitness d <=? 0)%float.

Definition kill (w : string) (d : Word) (l : Lex) : Lex :=
  let gen := l_generation l in
  mkLex (Obj.delete w (l_words l)) (l_compounds l) gen
        (JS.ring 50 (l_extinct l ++ [mkExtinct w (meaning d) (born d) gen (uses d)]))
        (l_sound_shifts l) (l_events l) (l_generated l)
        (JS.incr (l_extinct_n l)) (l_compounds_n l) (l_shifts_n l)
        (l_out l ++ [EvExtinct gen w (meaning d)]).

(** One turn of the loop over the keys taken before it starts. *)
Definition extinction_turn (l : Lex) (w : string) : Lex :=
  match Obj.get w (l_words l) with
  | Some d => if is_dead d then kill w d l else l
  | None => l
  end.

Definition extinction (l : Lex) : Lex :=
  fold_left extinction_turn (Obj.keys (l_words l)) l.

(** *** 5. Sound shift *)

Definition SOUND_SHIFTS : Obj.t (list string) :=
  [ ("k", ["g"; "h"]); ("t", ["d"; "s"]); ("p", ["b"; "f"]);
    ("s", ["z"; "sh"]); ("h", [""; "w"]); ("n", ["m"; "ng"]);
    ("r", ["l"; ""]) ].

(** The loop over the characters of the target: the new array and whether
    a substitution fired.  A random number is drawn only for a character
    with an entry in [SOUND_SHIFTS]. *)
Fixpoint shift_chars (chars : list string) : Rand (list string * bool) :=
  match chars with
  | [] => ret ([], false)
  | c :: rest =>
      match Obj.get c SOUND_SHIFTS with
      | Some opts =>
          x <- Math_random ;;
          if Qltb x lit_0_15 then
            j <- random_index (List.length opts) ;;
            r <- shift_chars rest ;;
            ret (JS.index opts j :: fst r, true)
          else
            r <- shift_chars rest ;;
            ret (c :: fst r, snd r)
      | None =>
          r <- shift_chars rest ;;
          ret (c :: fst r, snd r)
      end
  end.

Definition rename (target newForm : string) (data : Word) (l : Lex) : Lex :=
  let gen := l_generation l in
  let data' := mkWord (meaning data) (category data) (born data) (uses data)
                      (fitness data) (history data ++ [newForm]) in
  mkLex (Obj.set newForm data' (Obj.delete target (l_words l)))
        (l_compounds l) gen (l_extinct l)
        (JS.ring 30 (l_sound_shifts l
                     ++ [mkShift gen target newForm (meaning data)]))
        (l_events l) (l_generated l) (l_extinct_n l) (l_compounds_n l)
        (JS.incr (l_shifts_n l))
        (l_out l ++ [EvShift gen target newForm (meaning data)]).

(** Step 5.  The target is read at an index below the number of keys when
    the draw is in [0, 1), so that its data are there. *)
Definition sound_shift (l : Lex) : Rand Lex :=
  x <- Math_random ;;
  let keys := Obj.keys (l_words l) in
  if (Qltb x lit_0_1 && (0 <? List.length keys)%nat)%bool then
    i <- random_index (List.length keys) ;;
    let target := JS.index keys i in
    r <- shift_chars (JS.split_chars target) ;;
    let newForm := JS.join (fst r) in
    if (snd r && negb (String.eqb newForm target)
        && negb (Obj.has newForm (l_words l)))%bool
    then match Obj.get target (l_words l) with
         | Some data => ret (rename target newForm data l)
         | None => ret l
         end
    else ret l
  else ret l.

(** *** 6. Compounding *)

Definition compound_form (w1 w2 : string) : string :=
  (JS.str_take (Nat.max 2 (String.length w1 / 2)) w1
   ++ JS.str_drop (String.length w2 / 2) w2)%string.

Definition add_compound (w1 w2 form : string) (m1 m2 : string) (l : Lex)
    : Lex :=
  let gen := l_generation l in
  let meaning := (m1 ++ "-" ++ m2)%string in
  mkLex (l_words l)
        (Obj.set form (mkCompound (w1, w2) (m1, m2) meaning gen)
                 (l_compounds l))
        gen (l_extinct l) (l_sound_shifts l) (l_events l) (l_generated l)
        (l_extinct_n l) (JS.incr (l_compounds_n l)) (l_shifts_n l)
        (l_out l ++ [EvCompound gen form meaning (w1, w2)]).

(** Step 6.  Both words are read at indices below the number of keys when
    the draws are in [0, 1), so that their data are there. *)
Definition compounding (l : Lex) : Rand Lex :=
  x <- Math_random ;;
  let keys := Obj.keys (l_words l) in
  if (Qltb x lit_0_15 && (4 <=? List.length keys)%nat)%bool then
    i <- random_index (List.length keys) ;;
    j <- random_index (List.length keys) ;;
    let w1 := JS.index keys i in
    let w2 := JS.index keys j in
    if negb (String.eqb w1 w2) then
      let form := compound_form w1 w2 in
      match Obj.get w1 (l_words l), Obj.get w2 (l_words l) with
      | Some d1, Some d2 =>
          if (negb (Obj.has form (l_words l))
              && negb (Obj.has form (l_compounds l)))%bool
          then ret (add_compound w1 w2 form (meaning d1) (meaning d2) l)
          else ret l
      | _, _ => ret l
      end
    else ret l
  else ret l.

(** *** Storing the events *)

(** [state.events.push({...e, time: new Date().toISOString()})] for each
    event, [clock i] being the time read for the event of index [i]. *)
Fixpoint stamp (clock : nat -> string) (i : nat) (es : list Event)
    : list Archived :=
  match es with
  | [] => []
  | e :: es' => mkArchived e (clock i) :: stamp clock (S i) es'
  end.

Definition store_events (clock : nat -> string) (l : Lex) : Lex :=
  mkLex (l_words l) (l_compounds l) (l_generation l) (l_extinct l)
        (l_sound_shifts l)
        (JS.ring 200 (l_events l ++ stamp clock 0 (l_out l)))
        (l_generated l) (l_extinct_n l) (l_compounds_n l) (l_shifts_n l)
        (l_out l).

Section Engine.

(** [[...words].sort(() => Math.random() - 0.5)]: the algorithm is the
    JavaScript engine's, and with a comparator that answers at random the
    order it leaves is implementation-defined.  What the language fixes is
    that the result holds the same elements. *)
Variable sort_random : list string -> Rand (list string).

Definition sort_permutes : Prop :=
  forall (l : list string) (g : Rng), Permutation l (fst (sort_random l g)).

Definition usage (l : Lex) : Rand Lex :=
  shuffled <- sort_random (Obj.keys (l_words l)) ;;
  ret (with_words (use_all shuffled (l_words l)) l).

(** The six steps after the birth, which is the only one that may not
    return. *)
Definition after_birth (clock : nat -> string) (l : Lex) : Rand Lex :=
  l2 <- usage l ;;
  l5 <- sound_shift (extinction (decay l2)) ;;
  l6 <- compounding l5 ;;
  ret (store_events clock l6).

(** [evolveStep()]: the new state, the returned events and the rest of the
    random tape; [None] when [fuel] calls of [genWord] found no free
    form. *)
Definition evolveStep (fuel : nat) (clock : nat -> string) (s : State)
    (g : Rng) : option (State * list Event * Rng) :=
  match birth fuel (ensure s) g with
  | None => None
  | Some (l1, g1) =>
      let (l7, g7) := after_birth clock l1 g1 in
      Some (commit s l7, l_out l7, g7)
  end.


(** A run of [evolveStep] calls, one clock per call. *)
Fixpoint evolveSteps (fuel : nat) (clocks : list (nat -> string))
    (s : State) (g : Rng) : option (State * Rng) :=
  match clocks with
  | [] => Some (s, g)
  | clock :: rest =>
      match evolveStep fuel clock s g with
      | None => None
      | Some (s', _, g') => evolveSteps fuel rest s' g'
      end
  end.

End Engine.

(** *** An instance of the engine's sort *)

(** The sort of V8 on an array of fewer than 64 elements, which every
    example below is: [CountAndMakeRun] takes the longest run at the start
    of the array, reversing it when it is descending, and
    [BinaryInsertionSort] inserts the elements after the run one by one.
    The comparator, [Math.random() - 0.5], ignores its arguments; its
    answer is negative when the draw is below 0.5.  (From 64 elements on,
    V8 sorts runs of 32 to 64 elements in this way and merges them.) *)
Definition comparator_negative : Rand bool :=
  r <- Math_random ;; ret (Qltb r lit_0_5).

(** The loop of [CountAndMakeRun]: the run, last element first, and the
    elements after it.  The run goes on while the comparator agrees with
    its direction; the answer that ends it is read all the same. *)
Fixpoint extend_run (descending : bool) (rest run_rev : list string)
    : Rand (list string * list string) :=
  match rest with
  | [] => ret (run_rev, [])
  | x :: rest' =>
      negative <- comparator_negative ;;
      if Bool.eqb negative descending
      then extend_run descending rest' (x :: run_rev)
      else ret (run_rev, rest)
  end.

Definition count_and_make_run (l : list string)
    : Rand (list string * list string) :=
  match l with
  | a0 :: a1 :: rest =>
      descending <- comparator_negative ;;
      t <- extend_run descending rest [a1; a0] ;;
      ret (if descending then fst t else rev (fst t), snd t)
  | _ => ret (l, [])
  end.

(** The binary search of [BinaryInsertionSort] between [left] and
    [right]. *)
Fixpoint insertion_point (fuel left right : nat) : Rand nat :=
  match fuel with
  | O => ret left
  | S fuel' =>
      if (left <? right)%nat then
        let mid := left + (right - left) / 2 in
        negative <- comparator_negative ;;
        if negative then insertion_point fuel' left mid
        else insertion_point fuel' (mid + 1) right
      else ret left
  end.

Fixpoint insertion_loop (todo sorted : list string) : Rand (list string) :=
  match todo with
  | [] => ret sorted
  | pivot :: rest =>
      i <- insertion_point (List.length sorted) 0 (List.length sorted) ;;
      insertion_loop rest (firstn i sorted ++ pivot :: skipn i sorted)
  end.

Definition insertion_sort_random (l : list string) : Rand (list string) :=
  t <- count_and_make_run l ;;
  insertion_loop (snd t) (fst t).

(** ** Sentence generator *)

Record Sentence := mkSentence {
  text : string;
  gloss : string;
  sent_words : list (string * string * string)
}.

Definition catOrder_init : list string :=
  ["being"; "quality"; "action"; "natural"; "relation"; "abstract"].

(** Lines 230 and 231: any living word; [None] when the pair holds no
    word data, on which the final mapping throws. *)
Definition any_word (ws : Obj.t Word) : Rand (option (string * Word)) :=
  i <- random_index (List.length (Obj.keys ws)) ;;
  let w := JS.index (Obj.keys ws) i in
  ret (match Obj.get w ws with Some d => Some (w, d) | None => None end).

(** One turn of the loop of [generateSentence]: the entry pushed and the
    preference queue the turn leaves. *)
Definition sentence_turn (ws : Obj.t Word) (catOrder : list string)
    : Rand (option (string * Word) * list string) :=
  match catOrder with
  | [] => p <- any_word ws ;; ret (p, [])
  | cat :: rest =>
      x <- Math_random ;;
      if Qltb lit_0_3 x then
        let candidates :=
          filter (fun e => String.eqb (category (snd e)) cat) ws in
        if (0 <? List.length candidates)%nat then
          i <- random_index (List.length candidates) ;;
          ret (nth_error candidates i, rest)
        else p <- any_word ws ;; ret (p, rest)
      else p <- any_word ws ;; ret (p, cat :: rest)
  end.

Fixpoint sentence_loop (len : nat) (ws : Obj.t Word) (catOrder : list string)
    : Rand (list (option (string * Word))) :=
  match len with
  | O => ret []
  | S len' =>
      t <- sentence_turn ws catOrder ;;
      rest <- sentence_loop len' ws (snd t) ;;
      ret (fst t :: rest)
  end.

(** All entries, when each of them holds a word and its data. *)
Fixpoint all_some {A : Type} (l : list (option A)) : option (list A) :=
  match l with
  | [] => Some []
  | None :: _ => None
  | Some a :: l' =>
      match all_some l' with Some r => Some (a :: r) | None => None end
  end.

Definition render (sentWords : list (string * Word)) : Sentence :=
  mkSentence
    (JS.join_sp (map fst sentWords))
    (JS.join_sp (map (fun e => meaning (snd e)) sentWords))
    (map (fun e => (fst e, meaning (snd e), category (snd e))) sentWords).

(** [generateSentence()]; [None] when it throws. *)
Definition generateSentence (s : State) : Rand (option Sentence) :=
  match words s with
  | None => ret None
  | Some ws =>
      if (List.length (Obj.keys ws) =? 0)%nat
      then ret (Some (mkSentence "(silence)" "(empty lexicon)" []))
      else
        n <- random_index 5 ;;
        sentWords <- sentence_loop (3 + n) ws catOrder_init ;;
        ret (option_map render (all_some sentWords))
  end.

(** ** Synchronizer *)

(** How the request of [syncFromPi] ends. *)
Inductive Fetch :=
| FetchRejected
    (* [fetch] throws: the peer is unreachable, or the 3 s timer aborted *)
| FetchNotOk
    (* a response whose [ok] is false *)
| FetchBody (piState : option State)
    (* [res.ok]; [None] when [res.json()] throws or yields [null] *).

Definition no_stats : Stats := mkStats None None None None.

(** [remote && remote.length > ours.length ? remote : ours]. *)
Definition longer {A : Type} (remote : option (list A)) (ours : list A)
    : list A :=
  match remote with
  | Some r => if (List.length ours <? List.length r)%nat then r else ours
  | None => ours
  end.

(** Lines 251 to 263. *)
Definition merge (now : string) (piState state : State) : State :=
  let ourEvents := or_else (events state) [] in
  let ourExtinct := or_else (extinct state) (or_else (extinct piState) []) in
  let ourShifts :=
    or_else (sound_shifts state) (or_else (sound_shifts piState) []) in
  let ourStats := or_else (stats piState) (or_else (stats state) no_stats) in
  mkState (Some (or_else (words piState) []))
          (Some (or_else (compounds piState) []))
          (Some (num_or_0 (generation piState)))
          (Some (longer (extinct piState) ourExtinct))
          (Some (longer (sound_shifts piState) ourShifts))
          (Some ourEvents)
          (Some ourStats)
          (Some true)
          (Some now).

Definition set_connected (b : bool) (s : State) : State :=
  mkState (words s) (compounds s) (generation s) (extinct s)
          (sound_shifts s) (events s) (stats s) (Some b) (lastPiSync s).

(** [syncFromPi()]: the state it leaves and the value it returns.  After
    the merge the log line reads [Object.keys(piState.words)], which throws
    when the remote state has no [words]. *)
Definition syncFromPi (fetch : Fetch) (now : string) (state : State)
    : State * bool :=
  match fetch with
  | FetchRejected => (set_connected false state, false)
  | FetchNotOk => (state, false)
  | FetchBody None => (set_connected false state, false)
  | FetchBody (Some piState) =>
      let merged := merge now piState state in
      match words piState with
      | Some _ => (merged, true)
      | None => (set_connected false merged, false)
      end
  end.

(** ** HTTP handlers and the auto-evolve timer *)

(** The body of [GET /api/evolve]. *)
Record EvolveResponse := mkEvolveResponse {
  r_generation : option Z;
  r_events : list Event;
  r_wordCount : nat
}.

(** The body of [GET /api/history]. *)
Record HistoryResponse := mkHistoryResponse {
  h_events : list Archived;
  h_extinct : list ExtinctRecord;
  h_sound_shifts : list ShiftRecord;
  h_compounds : Obj.t Compound
}.

(** [GET /api/history]: the last 100 events, the last 20 extinct records,
    the last 20 shift records and all the compounds. *)
Definition api_history (s : State) : HistoryResponse :=
  mkHistoryResponse
    (JS.slice_last 100 (or_else (events s) []))
    (JS.slice_last 20 (or_else (extinct s) []))
    (JS.slice_last 20 (or_else (sound_shifts s) []))
    (or_else (compounds s) []).

Section Handlers.

Variable sort_random : list string -> Rand (list string).

(** [GET /api/evolve]: one step, then the generation, the events of the
    step and the number of living words. *)
Definition api_evolve (fuel : nat) (clock : nat -> string) (s : State)
    (g : Rng) : option (State * EvolveResponse * Rng) :=
  match evolveStep sort_random fuel clock s g with
  | None => None
  | Some (s', evs, g') =>
      Some (s',
            mkEvolveResponse (generation s') evs
              (List.length (Obj.keys (or_else (words s') []))),
            g')
  end.

(** The callback of the 30 minute timer: a step, unless the state mirrors
    the Pi ([state.piConnected] is true). *)
Definition auto_evolve (fuel : nat) (clock : nat -> string) (s : State)
    (g : Rng) : option (State * list Event * Rng) :=
  match piConnected s with
  | Some true => Some (s, [], g)
  | _ => evolveStep sort_random fuel clock s g
  end.

End Handlers.

(** ** Vocabulary of the properties *)

(** [l'] comes after [l] within one generation: the counters have not
    decreased, and history rings that were within bounds still are. *)
Record advances (l l' : Lex) : Prop := mk_advances {
  adv_generation : l_generation l' = l_generation l;
  adv_generated : (l_generated l <= l_generated l')%Z;
  adv_extinct_n : (l_extinct_n l <= l_extinct_n l')%Z;
  adv_compounds_n : (l_compounds_n l <= l_compounds_n l')%Z;
  adv_shifts_n : (l_shifts_n l <= l_shifts_n l')%Z;
  adv_extinct :
    List.length (l_extinct l) <= 50 -> List.length (l_extinct l') <= 50;
  adv_sound_shifts :
    List.length (l_sound_shifts l) <= 30 ->
    List.length (l_sound_shifts l') <= 30
}.

(** A counter of [state.stats] as the engine reads it. *)
Definition counter (field : Stats -> option Z) (s : State) : Z :=
  num_or_0 (field (or_else (stats s) no_stats)).

Definition counters_le (s s' : State) : Prop :=
  (counter total_generated s <= counter total_generated s')%Z /\
  (counter total_extinct s <= counter total_extinct s')%Z /\
  (counter total_compounds s <= counter total_compounds s')%Z /\
  (counter total_shifts s <= counter total_shifts s')%Z.

Definition rings_bounded (s : State) : Prop :=
  List.length (or_else (extinct s) []) <= 50 /\
  List.length (or_else (sound_shifts s) []) <= 30 /\
  List.length (or_else (events s) []) <= 200.

(** Two states that agree on everything but the time stamps in the event
    log. *)
Definition same_but_times (s1 s2 : State) : Prop :=
  words s1 = words s2 /\ compounds s1 = compounds s2 /\
  generation s1 = generation s2 /\ extinct s1 = extinct s2 /\
  sound_shifts s1 = sound_shifts s2 /\ stats s1 = stats s2 /\
  piConnected s1 = piConnected s2 /\ lastPiSync s1 = lastPiSync s2 /\
  option_map (map ev) (events s1) = option_map (map ev) (events s2).





Definition is_extinct_event (e : Event) : bool :=
  match e with EvExtinct _ _ _ => true | _ => false end.


(** What the steps other than the extinction leave alone: the generation
    number, the list of extinct words and its counter; the generation's
    events only grow. *)
Record frames (l l' : Lex) : Prop := mk_frames {
  fr_generation : l_generation l' = l_generation l;
  fr_extinct : l_extinct l' = l_extinct l;
  fr_extinct_n : l_extinct_n l' = l_extinct_n l;
  fr_out : exists more,
      l_out l' = l_out l ++ more /\ filter is_extinct_event more = []
}.

Definition keys_disjoint (s : State) : Prop :=
  forall k, In k (Obj.keys (or_else (words s) [])) ->
            In k (Obj.keys (or_else (compounds s) [])) -> False.



(** The sum of a list of weights. *)
Definition sumZ (l : list Z) : Z := fold_right Z.add 0%Z l.

(** The letters [genWord] builds its forms from. *)
Definition ALPHABET : list string := CONSONANTS ++ VOWELS.

(** All characters of [s] are letters of the inventories. *)
Definition over_alphabet (s : string) : Prop :=
  Forall (fun c => In c ALPHABET) (JS.split_chars s).

Definition is_vowel (c : string) : bool := existsb (String.eqb c) VOWELS.

(** [s] holds a vowel of the inventory. *)
Definition has_vowel (s : string) : bool :=
  existsb is_vowel (JS.split_chars s).

(** The [gen] field of an event. *)
Definition event_gen (e : Event) : Z :=
  match e with
  | EvBirth gen _ _ _ => gen
  | EvExtinct gen _ _ => gen
  | EvShift gen _ _ _ => gen
  | EvCompound gen _ _ _ => gen
  end.

Definition is_compound_event (e : Event) : bool :=
  match e with EvCompound _ _ _ _ => true | _ => false end.

(** Each living word is keyed by the last form of its history. *)
Definition keyed_by_last_form (ws : Obj.t Word) : Prop :=
  forall k d, In (k, d) ws -> exists older, history d = older ++ [k].

(** A computation that leaves the tape as it is and never moves the cursor
    back. *)
Definition reads_forward {A : Type} (m : Rand A) : Prop :=
  forall g, tape (snd (m g)) = tape g /\ cursor g <= cursor (snd (m g)).

(** What steps 1 to 5 leave alone. *)
Definition untouched_by_words (s : State) (l : Lex) : Prop :=
  l_generation l = JS.incr (num_or_0 (generation s)) /\
  l_compounds l = or_else (compounds s) [] /\
  l_events l = or_else (events s) [] /\
  l_compounds_n l = counter total_compounds s /\
  filter is_compound_event (l_out l) = [].

(** ** Inputs of the examples *)

Definition half_tape : Rng := tape_of [] (1 # 2)%Q.

(** A seeding run whose first concept is "water" and whose other nine
    draws give "old", every later draw being one half. *)
Definition collision_tape : Rng := tape_of [(0 # 1)%Q] (1 # 2)%Q.

Definition one_natural_word : Obj.t Word :=
  [("mimi", mkWord "water" "natural" 0 1 1.0%float ["mimi"])].

(** First draw 0.875: the preference branch is taken. *)
Definition miss_tape : Rng := tape_of [(7 # 8)%Q] (0 # 1)%Q.

(** One draw, 0x1.3b13b13b13b14p-2: its product by 65 is above 20 and is
    rounded to 20. *)
Definition twenty_tape : Rng :=
  tape_of [(1385722962267845 # 4503599627370496)%Q] (1 # 2)%Q.

Definition three_natural_words : Obj.t Word :=
  [("mimi", mkWord "water" "natural" 0 1 1.0%float ["mimi"]);
   ("ka", mkWord "fire" "natural" 0 1 1.0%float ["ka"]);
   ("tu", mkWord "wind" "natural" 0 1 1.0%float ["tu"])].

(** First draw 0.875: the preference branch is taken.  Second draw
    0x1.5555555555555p-2, the binary64 value just below one third: its
    product by 3 is rounded to 1. *)
Definition third_tape : Rng :=
  tape_of [(7 # 8)%Q; (6004799503160661 # 18014398509481984)%Q] (0 # 1)%Q.

Definition noon (_ : nat) : string := "2026-01-01T12:00:00.000Z".

Definition midnight (_ : nat) : string := "2026-01-02T00:00:00.000Z".

(** A tape that runs through the multiples of 1/128: 11/128, 48/128,
    85/128, 122/128, 31/128, ... *)
Definition cycling_tape : Rng :=
  mkRng (fun n => (Z.of_nat ((n * 37 + 11) mod 128) # 128)%Q) 0.

(** A state with three living words, two of which are about to die. *)
Definition two_dying : State :=
  mkState
    (Some [("ka", mkWord "water" "natural" 2 1 lit_f_0_05 ["ka"]);
           ("mo", mkWord "fire" "natural" 2 1 1.0%float ["mo"]);
           ("ti", mkWord "wind" "natural" 3 1 lit_f_0_05 ["ti"])])
    (Some []) (Some 5%Z) (Some []) (Some []) (Some [])
    (Some (mkStats (Some 3%Z) (Some 0%Z) (Some 0%Z) (Some 0%Z)))
    None None.

(** No birth; the comparator draws 0.25, 0.75 and 0.75: the run "ka",
    "mo" is descending and is reversed, and "ti" is inserted last, which
    brings "mo" to the front; neither shift nor compound. *)
Definition two_dying_tape : Rng :=
  tape_of [(3 # 4)%Q; (1 # 4)%Q; (3 # 4)%Q; (3 # 4)%Q] (1 # 2)%Q.

(** A start-up that seeds "ka", "ni", "tu" and "sa"; a first generation
    with no birth and the compound "kai" of "ka" and "ni"; a second
    generation whose birth generates "ka" + "i". *)
Definition kai_tape : Rng :=
  tape_of
    [ 0; 1 # 64; 1 # 32; 3 # 64; 0; 0; 0; 0; 0; 0;
      1 # 2; 1 # 8; 1 # 2; 1 # 8; 1 # 8; 1 # 2;
      1 # 2; 1 # 8; 1 # 2; 1 # 4; 1 # 2; 1 # 2;
      1 # 2; 1 # 8; 1 # 2; 3 # 8; 5 # 8; 1 # 2;
      1 # 2; 1 # 8; 1 # 2; 7 # 16; 1 # 8; 1 # 2;
      3 # 4; 1 # 2; 1 # 2; 1 # 2; 1 # 2; 1 # 8; 0; 1 # 4;
      1 # 8; 0; 1 # 2; 1 # 2; 1 # 2; 1 # 8; 1 # 8; 1 # 2; 1 # 8; 1 # 2;
      1 # 2 ]%Q
    (1 # 2)%Q.

(** One living word, "ka", of fitness 0.05, never used, born at
    generation 0; the next generation is 1. *)
Definition lone_state : State :=
  mkState (Some [("ka", mkWord "water" "natural" 0 0 lit_f_0_05 ["ka"])])
          (Some []) (Some 0%Z) (Some []) (Some []) (Some [])
          (Some (mkStats (Some 1%Z) (Some 0%Z) (Some 0%Z) (Some 0%Z)))
          None None.








(** A birth of "ni" for the concept "fire"; the comparator draws 0.25, a
    negative answer, which puts "ni" in front of "ka"; neither shift nor
    compound. *)
Definition newborn_first_tape : Rng :=
  tape_of [ 1 # 8; 0; 1 # 2; 1 # 8; 1 # 2; 1 # 4; 1 # 2; 1 # 2; 1 # 4 ]%Q
          (1 # 2)%Q.

(** A living word "nai" next to the compound "mai", at generation 1. *)
Definition nai_and_mai : State :=
  mkState (Some [("nai", mkWord "water" "natural" 0 1 1.0%float ["nai"])])
          (Some [("mai", mkCompound ("ma", "ni") ("fire", "earth")
                                    "fire-earth" 1)])
          (Some 1%Z) (Some []) (Some []) (Some [])
          (Some (mkStats (Some 3%Z) (Some 2%Z) (Some 1%Z) (Some 0%Z)))
          None None.

(** No birth; a sound shift of the only word whose "n" becomes "m"; no
    compound. *)
Definition shift_tape : Rng :=
  tape_of [ 3 # 4; 1 # 16; 0; 1 # 16; 0 ]%Q (1 # 2)%Q.

(** Four living words and no compound, at generation 0. *)
Definition four_words : State :=
  mkState
    (Some [("ka", mkWord "water" "natural" 0 1 1.0%float ["ka"]);
           ("ni", mkWord "fire" "natural" 0 1 1.0%float ["ni"]);
           ("tu", mkWord "wind" "natural" 0 1 1.0%float ["tu"]);
           ("sa", mkWord "earth" "natural" 0 1 1.0%float ["sa"])])
    (Some []) (Some 0%Z) (Some []) (Some []) (Some [])
    (Some (mkStats (Some 4%Z) (Some 0%Z) (Some 0%Z) (Some 0%Z)))
    None None.

(** No birth; three draws of 0.5 for the comparator, which leave the keys
    in their order; no shift; the compound of the words at the indices 0
    and 1. *)
Definition compound_tape : Rng :=
  tape_of [ 3 # 4; 1 # 2; 1 # 2; 1 # 2; 1 # 2; 1 # 8; 0; 1 # 4 ]%Q (1 # 2)%Q.

(** * Properties *)

(** ** Strings and arrays *)

Lemma string_length_app (s1 s2 : string) :
  String.length (s1 ++ s2)%string = String.length s1 + String.length s2.
Proof.
  induction s1 as [|c s1 IH]; simpl; [reflexivity | now rewrite IH].
Qed.

Lemma incr_ge (n : Z) : (n <= JS.incr n)%Z.
Proof.
  unfold JS.incr. destruct (n <? 2 ^ 53)%Z; lia.
Qed.

Lemma slice_last_length {A : Type} (n : nat) (arr : list A) :
  List.length (JS.slice_last n arr) <= n.
Proof.
  unfold JS.slice_last. rewrite length_skipn. lia.
Qed.

Lemma ring_length {A : Type} (n : nat) (arr : list A) :
  List.length (JS.ring n arr) <= n.
Proof.
  unfold JS.ring. destruct (Nat.ltb_spec n (List.length arr)) as [H | H].
  - apply slice_last_length.
  - exact H.
Qed.

(** ** The random source *)

(** A valid draw scaled by the length of an array indexes the array. *)
Lemma pow2_pos z : (0 < B64.pow2 z)%Q.
Proof. apply Qpower_0_lt. reflexivity. Qed.

Lemma pow2_plus a b : (B64.pow2 (a + b) == B64.pow2 a * B64.pow2 b)%Q.
Proof. apply Qpower_plus. discriminate. Qed.

Lemma pow2_le a b : (a <= b)%Z -> (B64.pow2 a <= B64.pow2 b)%Q.
Proof. intros H. apply Qpower_le_compat_l; [exact H | discriminate]. Qed.

Lemma pow2_inject z : (0 <= z)%Z -> (B64.pow2 z == inject_Z (2 ^ z))%Q.
Proof. intros H. unfold B64.pow2. now rewrite Zpower_Qpower. Qed.

Lemma ilog2_le (q : Q) : (0 < q)%Q -> (B64.pow2 (B64.ilog2 q) <= q)%Q.
Proof.
  intros Hq. unfold B64.ilog2.
  set (a := Z.log2 (Qnum q)). set (b := Z.log2 (Zpos (Qden q))).
  destruct (Qle_bool (B64.pow2 (a - b)) q) eqn:E.
  - now apply Qle_bool_iff.
  - assert (Hn : (0 < Qnum q)%Z).
    { unfold Qlt in Hq. simpl in Hq. lia. }
    assert (Ha : (0 <= a)%Z) by apply Z.log2_nonneg.
    assert (Hb : (0 <= b)%Z) by apply Z.log2_nonneg.
    destruct (Z.log2_spec (Qnum q) Hn) as [Ha1 _]. fold a in Ha1.
    destruct (Z.log2_spec (Zpos (Qden q)) eq_refl) as [_ Hb2]. fold b in Hb2.
    assert (Hp : (B64.pow2 (a - b - 1) * inject_Z (2 ^ (b + 1))
                  == inject_Z (2 ^ a))%Q).
    { rewrite <- !pow2_inject by lia. rewrite <- pow2_plus.
      now replace (a - b - 1 + (b + 1))%Z with a by lia. }
    assert (Hpos : (0 < inject_Z (2 ^ (b + 1)))%Q).
    { rewrite <- pow2_inject by lia. apply pow2_pos. }
    apply (Qmult_le_r _ _ _ Hpos). rewrite Hp.
    unfold Qle, Qmult, inject_Z. cbn [Qnum Qden].
    rewrite Z.mul_1_r, Pos.mul_1_r. nia.
Qed.

Lemma nearest_even_le (m : Q) :
  (inject_Z (B64.nearest_even m) <= m + (1 # 2))%Q.
Proof.
  unfold B64.nearest_even.
  pose proof (Qfloor_le m) as Hf.
  destruct (Qcompare_spec (m - inject_Z (Qfloor m)) (1 # 2)) as [E | L | G].
  - destruct (Z.even (Qfloor m)); [lra|].
    rewrite inject_Z_plus. change (inject_Z 1) with 1%Q. lra.
  - lra.
  - rewrite inject_Z_plus. change (inject_Z 1) with 1%Q. lra.
Qed.

Lemma nearest_even_nonneg (m : Q) : (0 <= m)%Q -> (0 <= B64.nearest_even m)%Z.
Proof.
  intros Hm. unfold B64.nearest_even.
  assert (H0 : (0 <= Qfloor m)%Z).
  { change 0%Z with (Qfloor 0). now apply Qfloor_resp_le. }
  destruct (Qcompare _ _); [destruct (Z.even _)| |]; lia.
Qed.

(** A product of a draw below 1 by a positive integer rounds below the
    integer. *)
Lemma round_mul_lt (r : Q) (n : Z) :
  (0 <= r)%Q -> (r <= 1 - B64.pow2 (-53))%Q -> (1 <= n)%Z ->
  (B64.round (r * inject_Z n) < inject_Z n)%Q.
Proof.
  intros H0 H1 Hn.
  assert (HN : (1 <= inject_Z n)%Q).
  { change 1%Q with (inject_Z 1). now rewrite <- Zle_Qle. }
  set (N := inject_Z n) in *. set (c := B64.pow2 (-53)) in *.
  assert (Hc : (0 < c)%Q) by apply pow2_pos.
  assert (Hc1 : (c <= 1 # 2)%Q).
  { change (1 # 2)%Q with (B64.pow2 (-1)). apply pow2_le. lia. }
  unfold B64.round. set (q := (r * N)%Q).
  assert (Hq : (q <= N * (1 - c))%Q) by (unfold q; nra).
  destruct (Qle_bool q 0) eqn:E; [lra|].
  assert (Hq0 : (0 < q)%Q).
  { apply Qnot_le_lt. intros H. apply Qle_bool_iff in H. congruence. }
  pose proof (ilog2_le q Hq0) as He.
  set (e := B64.ilog2 q) in *.
  set (ue := Z.max (e - 52) (-1074)).
  set (ulp := B64.pow2 ue).
  assert (Hu : (0 < ulp)%Q) by apply pow2_pos.
  pose proof (nearest_even_le (q / ulp)) as Hm.
  set (M := inject_Z (B64.nearest_even (q / ulp))) in *.
  assert (Hr : (M * ulp <= q + ulp * (1 # 2))%Q).
  { assert (Hd : (q / ulp * ulp == q)%Q) by (field; lra).
    assert (H2 : (M * ulp <= (q / ulp + (1 # 2)) * ulp)%Q)
      by (apply Qmult_le_compat_r; lra).
    lra. }
  assert (Hulp : (ulp * (1 # 2) <= q * c)%Q \/ (ulp * (1 # 2) <= c * (1 # 2))%Q).
  { destruct (Z.max_spec (e - 52) (-1074)) as [[_ Hx] | [_ Hx]]; fold ue in Hx.
    - right. unfold ulp. rewrite Hx.
      change (B64.pow2 (-1074) * (1 # 2))%Q
        with (B64.pow2 (-1074) * B64.pow2 (-1))%Q.
      change (c * (1 # 2))%Q with (B64.pow2 (-53) * B64.pow2 (-1))%Q.
      rewrite <- !pow2_plus. apply pow2_le. lia.
    - left. unfold ulp. rewrite Hx.
      replace (e - 52)%Z with (e + -53 + 1)%Z by lia.
      rewrite !pow2_plus. fold c.
      change (B64.pow2 1) with (2 # 1)%Q.
      assert (Hce : (B64.pow2 e * c <= q * c)%Q)
        by (apply Qmult_le_compat_r; lra).
      lra. }
  destruct Hulp as [Hx | Hx]; nra.
Qed.

Lemma is_double_below_one (r : Q) :
  B64.is_double r = true -> (0 <= r)%Q -> (r < 1)%Q ->
  (r <= 1 - B64.pow2 (-53))%Q.
Proof.
  unfold B64.is_double. intros Hd H0 H1.
  apply andb_prop in Hd. destruct Hd as [_ Hm].
  apply Z.ltb_lt in Hm.
  rewrite <- (Qred_correct r) in H0, H1 |- *.
  destruct (Qred r) as [m d]. cbn [Qnum Qden] in Hm.
  change (1 - B64.pow2 (-53))%Q
    with (1 - (1 # 9007199254740992))%Q.
  unfold Qle, Qlt, Qminus, Qplus, Qopp in *. cbn [Qnum Qden] in *.
  change (2 ^ 53)%Z with 9007199254740992%Z in Hm.
  nia.
Qed.

Lemma floor_mul_lt (r : Q) (n : nat) :
  valid_draw r -> 0 < n -> floor_mul r n < n.
Proof.
  intros (H0 & H1 & Hd) Hn. unfold floor_mul.
  pose proof (is_double_below_one r Hd H0 H1) as Hr.
  assert (Hlt : (B64.round (r * inject_Z (Z.of_nat n))
                 < inject_Z (Z.of_nat n))%Q)
    by (apply round_mul_lt; [exact H0 | exact Hr | lia]).
  assert (Hhi : (Qfloor (B64.round (r * inject_Z (Z.of_nat n)))
                 < Z.of_nat n)%Z).
  { rewrite Zlt_Qlt. eapply Qle_lt_trans; [apply Qfloor_le | exact Hlt]. }
  lia.
Qed.

Lemma tape_of_valid (l : list Q) (d : Q) :
  Forall valid_draw l -> valid_draw d -> valid_tape (tape_of l d).
Proof.
  intros Hl Hd n. unfold tape_of. cbn [tape]. revert n.
  induction Hl as [|x l Hx Hl IH]; intros n.
  - destruct n; exact Hd.
  - destruct n as [|n]; [exact Hx | apply IH].
Qed.

(** The draws of a tape written out are values of [Math.random()]. *)
Ltac valid_tape_of :=
  apply tape_of_valid;
  [ repeat constructor; vm_compute; congruence
  | repeat split; vm_compute; congruence ].

(** ** Phonology generator *)

Lemma weightedChoice_loop_In items weights r cum it :
  weightedChoice_loop items weights r cum = Some it -> In it items.
Proof.
  revert weights cum.
  induction items as [|x items IH]; intros weights cum H; simpl in H.
  - discriminate.
  - destruct weights as [|w weights]; [discriminate|].
    destruct (Qle_bool r (inject_Z (cum + w))).
    + injection H as ->. now left.
    + right. eapply IH, H.
Qed.

Lemma last_index_In (items : list string) :
  items <> [] -> In (JS.index items (List.length items - 1)) items.
Proof.
  intros H. unfold JS.index. apply nth_In.
  destruct items; [congruence | simpl; lia].
Qed.

(** [weightedChoice] returns one of the items it was given. *)
Lemma weightedChoice_In items weights g :
  items <> [] -> In (fst (weightedChoice items weights g)) items.
Proof.
  intros Hne. unfold weightedChoice, bind, Math_random, ret.
  destruct (weightedChoice_loop items weights _ 0) as [it|] eqn:E; simpl.
  - eapply weightedChoice_loop_In, E.
  - now apply last_index_In.
Qed.

(** Names the result of the next computation that the goal runs. *)
Ltac run_next :=
  match goal with
  | |- context [match ?m with pair _ _ => _ end] =>
      let a := fresh "a" in
      let g := fresh "g" in
      let E := fresh "E" in
      destruct m as [a g] eqn:E
  end.

Lemma genSyllable_shape g :
  exists onset nucleus coda,
    In nucleus VOWELS /\
    fst (genSyllable g) = (onset ++ nucleus ++ coda)%string.
Proof.
  unfold genSyllable, bind.
  destruct (Math_random g) as [x g1].
  destruct ((if Qltb lit_0_2 x then weightedChoice CONSONANTS C_WEIGHTS
             else ret "") g1) as [onset g2].
  destruct (weightedChoice VOWELS V_WEIGHTS g2) as [nucleus g3] eqn:En.
  destruct (Math_random g3) as [y g4].
  run_next.
  exists onset, nucleus, a. split; [|reflexivity].
  change nucleus with (fst (nucleus, g3)). rewrite <- En.
  apply weightedChoice_In. discriminate.
Qed.

Lemma vowel_length v : In v VOWELS -> String.length v = 1.
Proof.
  unfold VOWELS. simpl. intuition (subst; reflexivity).
Qed.

Lemma genSyllable_nonempty g : 1 <= String.length (fst (genSyllable g)).
Proof.
  destruct (genSyllable_shape g) as (onset & nucleus & coda & Hv & ->).
  rewrite !string_length_app, (vowel_length _ Hv). lia.
Qed.

Lemma syllable_count_pos weights r cum i :
  1 <= syllable_count weights r cum i.
Proof.
  revert cum i. induction weights as [|w ws IH]; intros cum i; simpl.
  - lia.
  - destruct (Qle_bool r (inject_Z (cum + w))); [lia | apply IH].
Qed.

Lemma genSyllables_length n g :
  n <= String.length (JS.join (fst (genSyllables n g))).
Proof.
  revert g. induction n as [|n IH]; intros g; simpl; [lia|].
  unfold bind. pose proof (genSyllable_nonempty g) as Hs.
  destruct (genSyllable g) as [s g1]. specialize (IH g1).
  destruct (genSyllables n g1) as [rest g2]. simpl in *.
  rewrite string_length_app. lia.
Qed.

Lemma genWord_length g : 1 <= String.length (fst (genWord g)).
Proof.
  unfold genWord, bind.
  destruct (random_index 3 g) as [i g1].
  destruct (Math_random g1) as [x g2].
  pose proof (syllable_count_pos [15; 50; 35]%Z
                (B64.round (x * inject_Z 100)) 0 0) as Hn.
  pose proof (genSyllables_length
                (syllable_count [15; 50; 35]%Z
                   (B64.round (x * inject_Z 100)) 0 0) g2) as Hl.
  destruct (genSyllables _ g2) as [syls g3]. simpl in *. lia.
Qed.

Lemma fresh_form_length fuel ws g w g' :
  fresh_form fuel ws g = Some (w, g') -> 1 <= String.length w.
Proof.
  revert g. induction fuel as [|fuel IH]; intros g H; simpl in H.
  - discriminate.
  - pose proof (genWord_length g) as Hl.
    destruct (genWord g) as [word g1]. simpl in Hl.
    destruct (Obj.has word ws).
    + eapply IH, H.
    + injection H as <- <-. exact Hl.
Qed.

Lemma fresh_form_free fuel ws g w g' :
  fresh_form fuel ws g = Some (w, g') -> Obj.has w ws = false.
Proof.
  revert g. induction fuel as [|fuel IH]; intros g H; simpl in H.
  - discriminate.
  - destruct (genWord g) as [word g1].
    destruct (Obj.has word ws) eqn:E.
    + eapply IH, H.
    + injection H as <- <-. exact E.
Qed.

(** ** Objects used as maps *)

Section ObjFacts.
Context {V : Type}.
Implicit Types (o : Obj.t V) (k : string) (v : V).

Lemma get_None_keys k o : Obj.get k o = None <-> ~ In k (Obj.keys o).
Proof.
  induction o as [|[k' v'] o IH]; simpl.
  - tauto.
  - destruct (String.eqb_spec k k') as [-> | Hne].
    + split; [discriminate | intros H; exfalso; apply H; now left].
    + rewrite IH. split; [intros H [E | Hin]; congruence | tauto].
Qed.

Lemma has_true_keys k o : Obj.has k o = true <-> In k (Obj.keys o).
Proof.
  unfold Obj.has. pose proof (get_None_keys k o) as H.
  destruct (Obj.get k o).
  - split; [intros _ | reflexivity].
    destruct (in_dec string_dec k (Obj.keys o)) as [Hin | Hn]; [exact Hin|].
    apply H in Hn. discriminate.
  - split; [discriminate | intros Hin]. exfalso. now apply H.
Qed.

Lemma has_false_keys k o : Obj.has k o = false <-> ~ In k (Obj.keys o).
Proof.
  rewrite <- has_true_keys. destruct (Obj.has k o); split; congruence.
Qed.

Lemma get_In k v o : Obj.get k o = Some v -> In (k, v) o.
Proof.
  induction o as [|[k' v'] o IH]; simpl; [discriminate|].
  destruct (String.eqb_spec k k') as [-> | Hne].
  - intros [= ->]. now left.
  - intros H. right. now apply IH.
Qed.


Lemma keys_set k v o :
  Obj.keys (Obj.set k v o)
  = if Obj.has k o then Obj.keys o else Obj.keys o ++ [k].
Proof.
  unfold Obj.has.
  induction o as [|[k' v'] o IH]; simpl; [reflexivity|].
  destruct (String.eqb_spec k k') as [-> | Hne]; simpl; [reflexivity|].
  rewrite IH. now destruct (Obj.get k o).
Qed.

Lemma In_keys_set x k v o :
  In x (Obj.keys (Obj.set k v o)) <-> x = k \/ In x (Obj.keys o).
Proof.
  rewrite keys_set. destruct (Obj.has k o) eqn:E.
  - apply has_true_keys in E. split; [tauto | intros [-> | H]; assumption].
  - rewrite in_app_iff. simpl. intuition.
Qed.

Lemma In_set x w k v o :
  In (x, w) (Obj.set k v o) -> (x = k /\ w = v) \/ In (x, w) o.
Proof.
  induction o as [|[k' v'] o IH]; simpl.
  - intros [[= <- <-] | []]. now left.
  - destruct (String.eqb_spec k k') as [-> | Hne]; simpl.
    + intros [[= <- <-] | H]; [now left | right; now right].
    + intros [H | H]; [right; now left|].
      destruct (IH H) as [? | ?]; [now left | right; now right].
Qed.

Lemma wf_set k v o : Obj.wf o -> Obj.wf (Obj.set k v o).
Proof.
  unfold Obj.wf. rewrite keys_set. intros Hwf.
  destruct (Obj.has k o) eqn:E; [exact Hwf|].
  apply has_false_keys in E.
  apply NoDup_rev in Hwf.
  rewrite <- (rev_involutive (Obj.keys o ++ [k])).
  apply NoDup_rev. rewrite rev_app_distr. simpl.
  constructor; [rewrite <- in_rev; exact E | exact Hwf].
Qed.

Lemma keys_update k (f : V -> V) o :
  Obj.keys (Obj.update k f o) = Obj.keys o.
Proof.
  unfold Obj.update. destruct (Obj.get k o) eqn:E; [|reflexivity].
  rewrite keys_set.
  assert (H : Obj.has k o = true) by (unfold Obj.has; now rewrite E).
  now rewrite H.
Qed.

Lemma In_update x w k (f : V -> V) o :
  In (x, w) (Obj.update k f o) ->
  In (x, w) o \/ exists w0, In (x, w0) o /\ w = f w0.
Proof.
  unfold Obj.update. destruct (Obj.get k o) as [v0|] eqn:E; [|now left].
  intros H. apply In_set in H. destruct H as [[-> ->] | H]; [|now left].
  right. exists v0. split; [now apply get_In | reflexivity].
Qed.

Lemma In_delete x w k o : In (x, w) (Obj.delete k o) -> In (x, w) o /\ x <> k.
Proof.
  unfold Obj.delete. rewrite filter_In. simpl. intros [H E]. split; [exact H|].
  destruct (String.eqb_spec k x); [discriminate | congruence].
Qed.

Lemma In_keys_delete x k o :
  In x (Obj.keys (Obj.delete k o)) <-> In x (Obj.keys o) /\ x <> k.
Proof.
  unfold Obj.keys, Obj.delete. rewrite !in_map_iff. split.
  - intros [[x' w] [<- H]]. apply filter_In in H. destruct H as [H E].
    simpl in *. split; [exists (x', w); auto|].
    destruct (String.eqb_spec k x'); [discriminate | congruence].
  - intros [[[x' w] [<- H]] Hne]. exists (x', w). split; [reflexivity|].
    apply filter_In. split; [exact H|]. simpl in *.
    destruct (String.eqb_spec k x'); [congruence | reflexivity].
Qed.

Lemma wf_delete k o : Obj.wf o -> Obj.wf (Obj.delete k o).
Proof.
  unfold Obj.wf, Obj.keys, Obj.delete.
  induction o as [|[k' v'] o IH]; simpl; intros Hwf; [constructor|].
  inversion Hwf as [|? ? Hnot Hwf']; subst.
  destruct (negb (k =? k')%string); simpl; [|now apply IH].
  constructor; [|now apply IH].
  intros Hin. apply Hnot. apply in_map_iff in Hin.
  destruct Hin as [e [<- He]]. apply filter_In in He.
  apply in_map. tauto.
Qed.

Lemma wf_update k (f : V -> V) o : Obj.wf o -> Obj.wf (Obj.update k f o).
Proof.
  unfold Obj.wf. now rewrite keys_update.
Qed.




End ObjFacts.

(** ** Births never key a word by the empty string *)

Lemma length_pos_nonempty (s : string) : 1 <= String.length s -> s <> "".
Proof.
  intros H ->. simpl in H. lia.
Qed.

Lemma birth_keys fuel l g l' g' :
  birth fuel l g = Some (l', g') ->
  forall k, In k (Obj.keys (l_words l')) ->
            In k (Obj.keys (l_words l)) \/ 1 <= String.length k.
Proof.
  unfold birth. destruct (Math_random g) as [x g1].
  destruct (Qltb x lit_0_7).
  - destruct (pick_concept (l_words l) g1) as [concept g2].
    destruct (fresh_form fuel (l_words l) g2) as [[word g3]|] eqn:E;
      [|discriminate].
    intros [= <- <-] k Hk. simpl in Hk. apply In_keys_set in Hk.
    destruct Hk as [-> | Hk]; [right | now left].
    eapply fresh_form_length, E.
  - intros [= <- <-] k Hk. now left.
Qed.

(** C9.  Whatever the random draws, [genSyllable] returns a string built
    around a vowel of the inventory, [genWord] returns a non-empty string,
    and the key a birth adds to the living words is never the empty
    string. *)
Theorem genWord_never_empty :
  (forall g, exists onset nucleus coda,
      In nucleus VOWELS /\
      fst (genSyllable g) = (onset ++ nucleus ++ coda)%string) /\
  (forall g, fst (genWord g) <> "") /\
  (forall fuel l g l' g',
      birth fuel l g = Some (l', g') ->
      forall k, In k (Obj.keys (l_words l')) ->
                In k (Obj.keys (l_words l)) \/ k <> "").
Proof.
  split; [exact genSyllable_shape | split].
  - intros g. apply length_pos_nonempty, genWord_length.
  - intros fuel l g l' g' H k Hk.
    destruct (birth_keys _ _ _ _ _ H k Hk) as [Hin | Hlen]; [now left|].
    right. now apply length_pos_nonempty.
Qed.

Lemma genWord_never_empty_witness :
  exists l' g',
    birth 1 (ensure fresh_state) half_tape = Some (l', g') /\
    forall k, In k (Obj.keys (l_words l')) ->
              In k (Obj.keys (l_words (ensure fresh_state))) \/ k <> "".
Proof.
  destruct (birth 1 (ensure fresh_state) half_tape) as [[l' g']|] eqn:E.
  - exists l', g'. split; [reflexivity|].
    exact (proj2 (proj2 genWord_never_empty) 1 (ensure fresh_state)
                 half_tape l' g' E).
  - vm_compute in E. discriminate.
Defined.

(** ** Fresh seeding *)

Lemma seed_words_length unique ws g :
  List.length (Obj.keys (fst (seed_words unique ws g)))
  <= List.length (Obj.keys ws) + List.length unique.
Proof.
  revert ws g. induction unique as [|c rest IH]; intros ws g; simpl.
  - lia.
  - unfold bind. destruct (genWord g) as [word g1].
    specialize (IH (Obj.set word (seed_word c word) ws) g1).
    rewrite keys_set in IH.
    destruct (Obj.has word ws); [|rewrite length_app in IH; simpl in IH]; lia.
Qed.

(** The start-up without a snapshot, step by step. *)
Lemma startup_fresh g :
  startup None g
  = let (unique, g1) := seed_concepts g in
    let (ws, g2) := seed_words unique [] g1 in
    (Some (mkState (Some ws) (Some []) (Some 0%Z) (Some []) (Some [])
                   (Some [])
                   (Some (mkStats (Some (Z.of_nat (List.length (Obj.keys ws))))
                                  (Some 0%Z) (Some 0%Z) (Some 0%Z)))
                   None None), g2).
Proof.
  unfold startup, bind. cbn [or_else fresh_state words stats].
  destruct (seed_concepts g) as [unique g1].
  destruct (seed_words unique [] g1) as [ws g2]. reflexivity.
Qed.

(** C10.  A fresh start-up always succeeds and sets
    [stats.total_generated] to the number of living words, which is at
    most the number of distinct concepts drawn; and it can be smaller:
    when [genWord] gives two concepts the same form, the later entry
    replaces the earlier one. *)
Theorem seeding_overwrites :
  (forall g, exists s ws st,
      fst (startup None g) = Some s /\
      words s = Some ws /\ stats s = Some st /\
      total_generated st = Some (Z.of_nat (List.length (Obj.keys ws))) /\
      List.length (Obj.keys ws) <= List.length (fst (seed_concepts g))) /\
  (exists s,
      fst (startup None collision_tape) = Some s /\
      fst (seed_concepts collision_tape) = ["water"; "old"] /\
      words s = Some [("mimi", seed_word "old" "mimi")] /\
      option_map total_generated (stats s) = Some (Some 1%Z)).
Proof.
  split.
  - intros g. rewrite startup_fresh.
    destruct (seed_concepts g) as [unique g1].
    pose proof (seed_words_length unique [] g1) as Hlen.
    destruct (seed_words unique [] g1) as [ws g2].
    eexists _, ws, _. cbn [fst snd] in *.
    split; [reflexivity|]. cbn [words stats total_generated].
    repeat split. exact Hlen.
  - eexists. split; [vm_compute; reflexivity|].
    repeat split; vm_compute; reflexivity.
Qed.

(** ** Sentence generator: a preference miss *)

(** The claim of C3 fails: with one living word of category "natural",
    the first turn takes the preference branch, finds no word of the front
    category "being", and leaves a queue from which "being" is gone. *)
Lemma preference_miss_counterexample :
  Qltb lit_0_3 (tape miss_tape 0) = true /\
  filter (fun e => String.eqb (category (snd e)) "being") one_natural_word
    = [] /\
  fst (sentence_turn one_natural_word catOrder_init miss_tape)
    = (Some ("mimi", mkWord "water" "natural" 0 1 1.0%float ["mimi"]),
       ["quality"; "action"; "natural"; "relation"; "abstract"]) /\
  snd (fst (sentence_turn one_natural_word catOrder_init miss_tape))
    <> catOrder_init.
Proof.
  repeat split; try (vm_compute; reflexivity).
  vm_compute. discriminate.
Qed.

(** C3, amended.  When the preference branch is taken and no living word
    belongs to the front category, the front category is removed from the
    queue all the same, and the entry pushed is the living word at index
    [Math.floor(r * n)] for the next draw [r], the product being rounded
    as binary64 rounds it: one of the [n] living words when the draws are
    Numbers in [0, 1). *)
Theorem preference_miss_consumes ws cat rest g :
  Qltb lit_0_3 (tape g (cursor g)) = true ->
  filter (fun e => String.eqb (category (snd e)) cat) ws = [] ->
  Obj.wf ws -> ws <> [] -> valid_tape g ->
  exists w d,
    In (w, d) ws /\
    w = JS.index (Obj.keys ws)
          (floor_mul (tape g (S (cursor g))) (List.length (Obj.keys ws))) /\
    sentence_turn ws (cat :: rest) g
    = ((Some (w, d), rest), mkRng (tape g) (S (S (cursor g)))).
Proof.
  intros Hbranch Hmiss Hwf Hne Hvalid.
  set (n := List.length (Obj.keys ws)).
  set (i := floor_mul (tape g (S (cursor g))) n).
  assert (Hn : 0 < n).
  { unfold n, Obj.keys. rewrite length_map.
    destruct ws; [congruence | simpl; lia]. }
  assert (Hi : i < n).
  { destruct (Hvalid (S (cursor g))) as [H0 H1].
    now apply floor_mul_lt. }
  assert (Hin : In (JS.index (Obj.keys ws) i) (Obj.keys ws))
    by (apply nth_In; exact Hi).
  destruct (Obj.get (JS.index (Obj.keys ws) i) ws) as [d|] eqn:Eg.
  - exists (JS.index (Obj.keys ws) i), d.
    split; [now apply get_In | split; [reflexivity|]].
    unfold sentence_turn, bind, Math_random, any_word, random_index, ret.
    simpl. rewrite Hbranch, Hmiss. simpl.
    fold n. fold i. now rewrite Eg.
  - apply get_None_keys in Eg. contradiction.
Qed.

Lemma preference_miss_consumes_witness :
  valid_tape third_tape /\
  exists w d,
    (w, d) = ("ka", mkWord "fire" "natural" 0 1 1.0%float ["ka"]) /\
    In (w, d) three_natural_words /\
    w = JS.index (Obj.keys three_natural_words)
          (floor_mul (tape third_tape 1)
                     (List.length (Obj.keys three_natural_words))) /\
    sentence_turn three_natural_words ("being" :: ["quality"]) third_tape
    = ((Some (w, d), ["quality"]), mkRng (tape third_tape) 2).
Proof.
  assert (Hv : valid_tape third_tape) by valid_tape_of.
  split; [exact Hv|].
  assert (Hwf : Obj.wf three_natural_words).
  { unfold Obj.wf. cbn. repeat constructor; cbn; intuition discriminate. }
  destruct (preference_miss_consumes three_natural_words "being" ["quality"]
              third_tape)
    as (w & d & Hin & Hw & Ht);
    [ vm_compute; reflexivity | vm_compute; reflexivity | exact Hwf
    | discriminate | exact Hv | ].
  exists w, d. split; [|split; [exact Hin | split; [exact Hw | exact Ht]]].
  assert (E : fst (fst (sentence_turn three_natural_words
                          ("being" :: ["quality"]) third_tape))
              = Some ("ka", mkWord "fire" "natural" 0 1 1.0%float ["ka"]))
    by (vm_compute; reflexivity).
  rewrite Ht in E. cbn [fst] in E. congruence.
Defined.

(** ** Synchronizer *)





(** A body that cannot be read as an object is handled as a failed
    request. *)
Lemma sync_bad_body now state :
  syncFromPi (FetchBody None) now state = syncFromPi FetchRejected now state.
Proof. reflexivity. Qed.

(** A response that is not [ok] changes nothing, the flag included. *)
Lemma sync_not_ok now state :
  syncFromPi FetchNotOk now state = (state, false).
Proof. reflexivity. Qed.

(** ** What every step of a generation preserves *)

Lemma advances_refl l : advances l l.
Proof. constructor; auto; lia. Qed.

Lemma advances_trans l1 l2 l3 :
  advances l1 l2 -> advances l2 l3 -> advances l1 l3.
Proof.
  intros [] []. constructor; auto; try lia; congruence.
Qed.

(** Closes a goal [advances l l'] where [l'] is built from the fields of
    [l] by one of the updates of the engine. *)
Ltac advances_by_fields :=
  constructor; cbn [l_generation l_generated l_extinct_n l_compounds_n
                    l_shifts_n l_extinct l_sound_shifts];
  try reflexivity; try lia; try apply incr_ge; auto;
  try (intros _; apply ring_length).

Lemma birth_advances fuel l g l' g' :
  birth fuel l g = Some (l', g') -> advances l l'.
Proof.
  unfold birth. destruct (Math_random g) as [x g1].
  destruct (Qltb x lit_0_7).
  - destruct (pick_concept (l_words l) g1) as [concept g2].
    destruct (fresh_form fuel (l_words l) g2) as [[word g3]|];
      [|discriminate].
    intros [= <- <-]. unfold add_birth. advances_by_fields.
  - intros [= <- <-]. apply advances_refl.
Qed.

Lemma with_words_advances ws l : advances l (with_words ws l).
Proof. unfold with_words. advances_by_fields. Qed.

Lemma kill_advances w d l : advances l (kill w d l).
Proof. unfold kill. advances_by_fields. Qed.

Lemma extinction_turn_advances l w : advances l (extinction_turn l w).
Proof.
  unfold extinction_turn. destruct (Obj.get w (l_words l)) as [d|].
  - destruct (is_dead d); [apply kill_advances | apply advances_refl].
  - apply advances_refl.
Qed.

Lemma extinction_advances l : advances l (extinction l).
Proof.
  unfold extinction. generalize (Obj.keys (l_words l)) as ks.
  intros ks. revert l. induction ks as [|w ks IH]; intros l; simpl.
  - apply advances_refl.
  - eapply advances_trans; [apply extinction_turn_advances | apply IH].
Qed.

Lemma sound_shift_advances l g : advances l (fst (sound_shift l g)).
Proof.
  unfold sound_shift, bind. destruct (Math_random g) as [x g1].
  destruct (Qltb x lit_0_1 && _)%bool; [|apply advances_refl].
  destruct (random_index _ g1) as [i g2].
  destruct (shift_chars _ g2) as [r g3].
  destruct (snd r && _ && _)%bool; [|apply advances_refl].
  destruct (Obj.get _ (l_words l)) as [data|]; [|apply advances_refl].
  unfold ret, rename. cbn [fst]. advances_by_fields.
Qed.

Lemma compounding_advances l g : advances l (fst (compounding l g)).
Proof.
  unfold compounding, bind. destruct (Math_random g) as [x g1].
  destruct (Qltb x lit_0_15 && _)%bool; [|apply advances_refl].
  destruct (random_index _ g1) as [i g2].
  destruct (random_index _ g2) as [j g3].
  destruct (negb _); [|apply advances_refl].
  destruct (Obj.get _ (l_words l)) as [d1|]; [|apply advances_refl].
  destruct (Obj.get _ (l_words l)) as [d2|]; [|apply advances_refl].
  destruct (negb _ && negb _)%bool; [|apply advances_refl].
  unfold ret, add_compound. cbn [fst]. advances_by_fields.
Qed.

Lemma store_events_advances clock l : advances l (store_events clock l).
Proof. unfold store_events. advances_by_fields. Qed.

(** ** Counters and history rings across generations *)

Lemma ensure_counters s :
  l_generated (ensure s) = counter total_generated s /\
  l_extinct_n (ensure s) = counter total_extinct s /\
  l_compounds_n (ensure s) = counter total_compounds s /\
  l_shifts_n (ensure s) = counter total_shifts s.
Proof.
  unfold ensure, counter. destruct (stats s); repeat split.
Qed.

Lemma commit_counters s l :
  counter total_generated (commit s l) = l_generated l /\
  counter total_extinct (commit s l) = l_extinct_n l /\
  counter total_compounds (commit s l) = l_compounds_n l /\
  counter total_shifts (commit s l) = l_shifts_n l.
Proof. repeat split. Qed.

Section EngineFacts.

Variable sort_random : list string -> Rand (list string).

Lemma usage_advances l g : advances l (fst (usage sort_random l g)).
Proof.
  unfold usage, bind. destruct (sort_random _ g) as [shuffled g1].
  apply with_words_advances.
Qed.

Lemma after_birth_unfold clock l g :
  after_birth sort_random clock l g
  = let (l2, g2) := usage sort_random l g in
    let (l5, g5) := sound_shift (extinction (decay l2)) g2 in
    let (l6, g6) := compounding l5 g5 in
    (store_events clock l6, g6).
Proof.
  unfold after_birth, bind, ret.
  destruct (usage sort_random l g) as [l2 g2].
  destruct (sound_shift (extinction (decay l2)) g2) as [l5 g5].
  now destruct (compounding l5 g5).
Qed.

Lemma after_birth_advances clock l g :
  advances l (fst (after_birth sort_random clock l g)).
Proof.
  rewrite after_birth_unfold.
  pose proof (usage_advances l g) as H2.
  destruct (usage sort_random l g) as [l2 g2].
  pose proof (sound_shift_advances (extinction (decay l2)) g2) as H5.
  destruct (sound_shift (extinction (decay l2)) g2) as [l5 g5].
  pose proof (compounding_advances l5 g5) as H6.
  destruct (compounding l5 g5) as [l6 g6]. cbn [fst] in *.
  eapply advances_trans; [exact H2|].
  eapply advances_trans; [apply with_words_advances|].
  eapply advances_trans; [apply extinction_advances|].
  eapply advances_trans; [exact H5|].
  eapply advances_trans; [exact H6 | apply store_events_advances].
Qed.

Lemma after_birth_events clock l g :
  List.length (l_events (fst (after_birth sort_random clock l g))) <= 200.
Proof.
  rewrite after_birth_unfold.
  destruct (usage sort_random l g) as [l2 g2].
  destruct (sound_shift (extinction (decay l2)) g2) as [l5 g5].
  destruct (compounding l5 g5) as [l6 g6]. cbn [fst store_events l_events].
  apply ring_length.
Qed.

(** A step that returns has committed a state that comes after the one it
    started from. *)
Lemma evolveStep_advances fuel clock s g s' evs g' :
  evolveStep sort_random fuel clock s g = Some (s', evs, g') ->
  exists l', advances (ensure s) l' /\ s' = commit s l' /\ evs = l_out l' /\
             List.length (l_events l') <= 200.
Proof.
  unfold evolveStep.
  destruct (birth fuel (ensure s) g) as [[l1 g1]|] eqn:Eb; [|discriminate].
  pose proof (after_birth_advances clock l1 g1) as Ha.
  pose proof (after_birth_events clock l1 g1) as He.
  destruct (after_birth sort_random clock l1 g1) as [l7 g7].
  intros [= <- <- <-]. exists l7. cbn [fst] in *.
  split; [|split; [reflexivity | split; [reflexivity | exact He]]].
  eapply advances_trans; [eapply birth_advances, Eb | exact Ha].
Qed.

Lemma evolveStep_counters fuel clock s g s' evs g' :
  evolveStep sort_random fuel clock s g = Some (s', evs, g') ->
  counters_le s s'.
Proof.
  intros H. apply evolveStep_advances in H.
  destruct H as (l' & Ha & -> & _ & _).
  destruct (ensure_counters s) as (E1 & E2 & E3 & E4).
  destruct (commit_counters s l') as (F1 & F2 & F3 & F4).
  destruct Ha. unfold counters_le.
  rewrite F1, F2, F3, F4, <- E1, <- E2, <- E3, <- E4. auto.
Qed.



(** C8.  Over any run of [evolveStep] calls, each of the four counters
    of [stats], read as the engine reads it (a missing counter is 0), ends
    at least as large as it started. *)
Theorem counters_never_decrease fuel clocks s g s' g' :
  evolveSteps sort_random fuel clocks s g = Some (s', g') ->
  counters_le s s'.
Proof.
  revert s g. induction clocks as [|clock rest IH]; intros s g; simpl.
  - intros [= <- <-]. unfold counters_le. lia.
  - destruct (evolveStep sort_random fuel clock s g) as [[[s1 evs] g1]|] eqn:E;
      [|discriminate].
    intros H. apply IH in H. apply evolveStep_counters in E.
    unfold counters_le in *. lia.
Qed.




End EngineFacts.

Lemma counters_never_decrease_witness :
  exists s' g',
    evolveSteps insertion_sort_random 3 [noon; noon; noon] fresh_state
                cycling_tape = Some (s', g') /\
    counters_le fresh_state s'.
Proof.
  destruct (evolveSteps insertion_sort_random 3 [noon; noon; noon]
                        fresh_state cycling_tape) as [[s' g']|] eqn:E.
  - exists s', g'. split; [reflexivity|].
    exact (counters_never_decrease insertion_sort_random 3
             [noon; noon; noon] fresh_state cycling_tape s' g' E).
  - vm_compute in E. discriminate.
Defined.

(** The state seeded at start-up, when there is no snapshot, is within
    bounds. *)
Lemma startup_fresh_bounded g s :
  fst (startup None g) = Some s -> rings_bounded s.
Proof.
  rewrite startup_fresh.
  destruct (seed_concepts g) as [unique g1].
  destruct (seed_words unique [] g1) as [ws g2]. cbn [fst].
  intros [= <-]. unfold rings_bounded. cbn. lia.
Qed.




(** ** Determinism and the wall clock *)

Lemma stamp_ev clock i es : map ev (stamp clock i es) = es.
Proof.
  revert i. induction es as [|e es IH]; intros i; simpl;
    [reflexivity | now rewrite IH].
Qed.

Lemma stamp_ext clock1 clock2 i es :
  (forall n, clock1 n = clock2 n) -> stamp clock1 i es = stamp clock2 i es.
Proof.
  intros H. revert i. induction es as [|e es IH]; intros i; simpl;
    [reflexivity | now rewrite IH, H].
Qed.

Lemma map_ring {A B : Type} (f : A -> B) n (l : list A) :
  map f (JS.ring n l) = JS.ring n (map f l).
Proof.
  unfold JS.ring, JS.slice_last. rewrite length_map.
  destruct (n <? List.length l)%nat; [|reflexivity].
  now rewrite skipn_map.
Qed.

(** The claim of C4 fails as stated: the same state and the same draws,
    read at two different times, leave two different states, which differ
    in the event log. *)
Lemma determinism_counterexample :
  option_map (fun r => events (fst (fst r)))
    (evolveStep insertion_sort_random 3 noon fresh_state cycling_tape)
  = Some (Some [mkArchived (EvBirth 1 "merola" "order" "abstract")
                           "2026-01-01T12:00:00.000Z"]) /\
  option_map (fun r => events (fst (fst r)))
    (evolveStep insertion_sort_random 3 midnight fresh_state cycling_tape)
  = Some (Some [mkArchived (EvBirth 1 "merola" "order" "abstract")
                           "2026-01-02T00:00:00.000Z"]) /\
  option_map (fun r => fst (fst r))
    (evolveStep insertion_sort_random 3 noon fresh_state cycling_tape)
  <> option_map (fun r => fst (fst r))
       (evolveStep insertion_sort_random 3 midnight fresh_state cycling_tape).
Proof.
  split; [vm_compute; reflexivity | split; [vm_compute; reflexivity|]].
  intros H. apply (f_equal (option_map events)) in H.
  vm_compute in H. discriminate.
Qed.

(** C4, amended.  Two runs of [evolveStep] from the same state over the
    same random draws either both fail to find a fresh form or both
    return, with the same events, the same position on the tape, and states
    that agree on everything but the time stamps of the archived events;
    the states are equal too when the clock reads the same in both runs. *)
Theorem evolveStep_deterministic_up_to_clock
    (sort_random : list string -> Rand (list string))
    (fuel : nat) (clock1 clock2 : nat -> string) (s : State) (g : Rng) :
  match evolveStep sort_random fuel clock1 s g,
        evolveStep sort_random fuel clock2 s g with
  | Some (s1, evs1, g1), Some (s2, evs2, g2) =>
      evs1 = evs2 /\ g1 = g2 /\ same_but_times s1 s2 /\
      ((forall n, clock1 n = clock2 n) -> s1 = s2)
  | None, None => True
  | _, _ => False
  end.
Proof.
  unfold evolveStep.
  destruct (birth fuel (ensure s) g) as [[l1 g1]|]; [|exact I].
  rewrite !after_birth_unfold.
  destruct (usage sort_random l1 g1) as [l2 g2].
  destruct (sound_shift (extinction (decay l2)) g2) as [l5 g5].
  destruct (compounding l5 g5) as [l6 g6].
  split; [reflexivity | split; [reflexivity | split]].
  - unfold same_but_times, commit, store_events.
    cbn [words compounds generation extinct sound_shifts stats piConnected
         lastPiSync events l_words l_compounds l_generation l_extinct
         l_sound_shifts l_events l_generated l_extinct_n l_compounds_n
         l_shifts_n option_map].
    repeat split.
    now rewrite !map_ring, !map_app, !stamp_ev.
  - intros Hclock. unfold store_events.
    now rewrite (stamp_ext clock1 clock2 0 (l_out l6) Hclock).
Qed.

(** ** Extinction *)

Lemma ring_is_slice {A : Type} n (l : list A) : JS.ring n l = JS.slice_last n l.
Proof.
  unfold JS.ring, JS.slice_last.
  destruct (Nat.ltb_spec n (List.length l)) as [H | H]; [reflexivity|].
  replace (List.length l - n) with 0 by lia. reflexivity.
Qed.










Ltac frames_by_fields :=
  constructor; cbn [l_generation l_extinct l_extinct_n l_out];
  try reflexivity;
  try (eexists; split; reflexivity);
  try (exists []; now rewrite app_nil_r).





Lemma store_events_frames clock l : frames l (store_events clock l).
Proof. unfold store_events. frames_by_fields. Qed.



(** Steps 1 to 3 keep the keys of the living words distinct. *)
Lemma fold_update_keys (f : Word -> Word) ks (ws : Obj.t Word) :
  Obj.keys (fold_left (fun acc w => Obj.update w f acc) ks ws) = Obj.keys ws.
Proof.
  revert ws. induction ks as [|k ks IH]; intros ws; simpl; [reflexivity|].
  now rewrite IH, keys_update.
Qed.


Lemma use_all_keys shuffled ws : Obj.keys (use_all shuffled ws) = Obj.keys ws.
Proof. unfold use_all. apply fold_update_keys. Qed.



Section Extinction.

Variable sort_random : list string -> Rand (list string).



End Extinction.


(** ** Living words and compounds sharing a key *)

(** The step that creates a compound looks at both objects, so it keeps
    their keys apart. *)
Lemma compounding_disjoint l g :
  (forall k, In k (Obj.keys (l_words l)) ->
             In k (Obj.keys (l_compounds l)) -> False) ->
  forall k, In k (Obj.keys (l_words (fst (compounding l g)))) ->
            In k (Obj.keys (l_compounds (fst (compounding l g)))) -> False.
Proof.
  intros Hd. unfold compounding, bind. destruct (Math_random g) as [x g1].
  destruct (Qltb x lit_0_15 && _)%bool; [|exact Hd].
  destruct (random_index _ g1) as [i g2].
  destruct (random_index _ g2) as [j g3].
  destruct (negb _); [|exact Hd].
  destruct (Obj.get _ (l_words l)) as [d1|]; [|exact Hd].
  destruct (Obj.get _ (l_words l)) as [d2|]; [|exact Hd].
  destruct (negb (Obj.has _ (l_words l)) && _)%bool eqn:E; [|exact Hd].
  apply andb_prop in E. destruct E as [Ew _].
  apply negb_true_iff, has_false_keys in Ew.
  unfold ret, add_compound. cbn [fst l_words l_compounds]. intros k Hw Hc.
  apply In_keys_set in Hc. destruct Hc as [-> | Hc]; [contradiction|].
  exact (Hd k Hw Hc).
Qed.

(** The rename of a sound shift looks at the living words only: here it
    gives the word "nai" the form of the compound "mai". *)
Lemma rename_reuses_compound_form :
  keys_disjoint nai_and_mai /\
  option_map (fun r => (option_map Obj.keys (words (fst (fst r))),
                        option_map Obj.keys (compounds (fst (fst r))),
                        snd (fst r)))
    (evolveStep insertion_sort_random 1 noon nai_and_mai shift_tape)
  = Some (Some ["mai"], Some ["mai"], [EvShift 2 "nai" "mai" "water"]).
Proof.
  split.
  - intros k Hw Hc. cbn in Hw, Hc. intuition congruence.
  - vm_compute. reflexivity.
Qed.

(** C1 does not hold of the code.  From a fresh start-up, a first
    generation leaves the compound "kai" next to four living words, with no
    key shared; the birth of the second generation generates the form "kai",
    which no living word has, and adds it to the living words: "kai" is then
    a key of both objects. *)
Theorem birth_reuses_compound_form :
  exists s0 g0 s1 g1 s2 g2,
    startup None kai_tape = (Some s0, g0) /\
    evolveSteps insertion_sort_random 1 [noon] s0 g0 = Some (s1, g1) /\
    option_map Obj.keys (words s1) = Some ["ka"; "ni"; "tu"; "sa"] /\
    option_map Obj.keys (compounds s1) = Some ["kai"] /\
    keys_disjoint s1 /\
    evolveSteps insertion_sort_random 1 [noon] s1 g1 = Some (s2, g2) /\
    option_map Obj.keys (words s2) = Some ["ka"; "ni"; "tu"; "sa"; "kai"] /\
    option_map Obj.keys (compounds s2) = Some ["kai"] /\
    ~ keys_disjoint s2.
Proof.
  destruct (startup None kai_tape) as [[s0|] g0] eqn:E0;
    [|vm_compute in E0; discriminate].
  destruct (evolveSteps insertion_sort_random 1 [noon] s0 g0)
    as [[s1 g1]|] eqn:E1.
  2:{ vm_compute in E0. injection E0 as <- <-. vm_compute in E1.
      discriminate. }
  destruct (evolveSteps insertion_sort_random 1 [noon] s1 g1)
    as [[s2 g2]|] eqn:E2.
  2:{ vm_compute in E0. injection E0 as <- <-. vm_compute in E1.
      injection E1 as <- <-. vm_compute in E2. discriminate. }
  exists s0, g0, s1, g1, s2, g2.
  vm_compute in E0. injection E0 as <- <-.
  vm_compute in E1. injection E1 as <- <-.
  vm_compute in E2. injection E2 as <- <-.
  repeat split; try reflexivity.
  - intros k Hw Hc. cbn in Hw, Hc.
    destruct Hc as [<- | []]. intuition discriminate.
  - intros H. apply (H "kai"); cbn; auto 10.
Qed.

(** ** A lone word on the extinction threshold *)









Lemma birth_cases fuel l g l1 g1 :
  birth fuel l g = Some (l1, g1) ->
  (Qltb (tape g (cursor g)) lit_0_7 = false /\ l1 = l) \/
  (Qltb (tape g (cursor g)) lit_0_7 = true /\
   exists concept word,
     Obj.has word (l_words l) = false /\ l1 = add_birth concept word l).
Proof.
  unfold birth, Math_random.
  destruct (Qltb (tape g (cursor g)) lit_0_7).
  - destruct (pick_concept (l_words l) _) as [concept g2].
    destruct (fresh_form fuel (l_words l) g2) as [[word g3]|] eqn:E;
      [|discriminate].
    intros [= <- <-]. right. split; [reflexivity|].
    exists concept, word. split; [|reflexivity].
    eapply fresh_form_free, E.
  - intros [= <- <-]. now left.
Qed.








Section LoneWord.

Variable sort_random : list string -> Rand (list string).
Hypothesis sort_is_permutation : sort_permutes sort_random.


End LoneWord.

(** The insertion sort instance permutes its argument. *)
Lemma extend_run_permutation descending rest run_rev g :
  Permutation (rev run_rev ++ rest)
    (fst (fst (extend_run descending rest run_rev g))
     ++ snd (fst (extend_run descending rest run_rev g))).
Proof.
  revert run_rev g. induction rest as [|x rest IH]; intros run_rev g.
  - cbn. rewrite !app_nil_r. symmetry. apply Permutation_rev.
  - cbn [extend_run]. unfold bind.
    destruct (comparator_negative g) as [negative g1].
    destruct (Bool.eqb negative descending).
    + eapply Permutation_trans; [|apply IH].
      cbn [rev]. rewrite <- app_assoc. apply Permutation_refl.
    + cbn. apply Permutation_app_tail. symmetry. apply Permutation_rev.
Qed.

Lemma count_and_make_run_permutation l g :
  Permutation l (fst (fst (count_and_make_run l g))
                 ++ snd (fst (count_and_make_run l g))).
Proof.
  destruct l as [|a0 [|a1 rest]]; cbn [count_and_make_run];
    try (cbn; rewrite ?app_nil_r; apply Permutation_refl).
  unfold bind. destruct (comparator_negative g) as [descending g1].
  pose proof (extend_run_permutation descending rest [a1; a0] g1) as H.
  destruct (extend_run descending rest [a1; a0] g1) as [[run_rev rest'] g2].
  cbn [fst snd ret] in *. cbn [rev app] in H.
  eapply Permutation_trans; [exact H|].
  destruct descending; [apply Permutation_refl|].
  apply Permutation_app_tail, Permutation_rev.
Qed.

Lemma insertion_loop_permutation todo sorted g :
  Permutation (sorted ++ todo) (fst (insertion_loop todo sorted g)).
Proof.
  revert sorted g. induction todo as [|x rest IH]; intros sorted g.
  - cbn. rewrite app_nil_r. apply Permutation_refl.
  - cbn [insertion_loop]. unfold bind.
    destruct (insertion_point _ 0 _ g) as [i g1].
    eapply Permutation_trans; [|apply IH].
    apply Permutation_trans with ((x :: sorted) ++ rest).
    + cbn [app]. symmetry. apply Permutation_middle.
    + apply Permutation_app_tail.
      rewrite <- (firstn_skipn i sorted) at 1. apply Permutation_middle.
Qed.

Lemma insertion_sort_permutes : sort_permutes insertion_sort_random.
Proof.
  intros l g. unfold insertion_sort_random, bind.
  pose proof (count_and_make_run_permutation l g) as H.
  destruct (count_and_make_run l g) as [[run rest] g1]. cbn [fst snd] in *.
  eapply Permutation_trans; [exact H | apply insertion_loop_permutation].
Qed.



(** * Further properties of the code *)

(** ** The random source is only read forward *)

Lemma valid_tape_ext g g' : tape g' = tape g -> valid_tape g -> valid_tape g'.
Proof.
  intros E H n. rewrite E. apply H.
Qed.

Lemma cycling_tape_valid : valid_tape cycling_tape.
Proof.
  intros n. unfold cycling_tape. cbn [tape].
  assert (Hk : (n * 37 + 11) mod 128 < 128)
    by (apply Nat.mod_upper_bound; lia).
  set (k := (n * 37 + 11) mod 128) in *.
  assert (Hall : forallb (fun k => Qle_bool 0 (Z.of_nat k # 128)
                                   && Qltb (Z.of_nat k # 128) 1
                                   && B64.is_double (Z.of_nat k # 128))%bool
                         (seq 0 128) = true)
    by (vm_compute; reflexivity).
  rewrite forallb_forall in Hall.
  specialize (Hall k (proj2 (in_seq 128 0 k) (conj (Nat.le_0_l k) Hk))).
  apply andb_prop in Hall. destruct Hall as [Hall Hd].
  apply andb_prop in Hall. destruct Hall as [H0 H1].
  split; [now apply Qle_bool_iff | split; [|exact Hd]].
  unfold Qltb in H1. apply negb_true_iff in H1.
  apply Qnot_le_lt. intros H. apply Qle_bool_iff in H. congruence.
Qed.

Lemma reads_forward_ret {A : Type} (a : A) : reads_forward (ret a).
Proof. intros g. cbn. auto. Qed.

Lemma reads_forward_random : reads_forward Math_random.
Proof. intros g. cbn. auto. Qed.

Lemma reads_forward_bind {A B : Type} (m : Rand A) (k : A -> Rand B) :
  reads_forward m -> (forall a, reads_forward (k a)) ->
  reads_forward (bind m k).
Proof.
  intros Hm Hk g. unfold bind. specialize (Hm g).
  destruct (m g) as [a g1]. cbn [snd] in Hm.
  destruct (Hk a g1) as [Ht Hc]. destruct Hm as [Ht' Hc'].
  split; [congruence | lia].
Qed.

Lemma reads_forward_if {A : Type} (b : bool) (m1 m2 : Rand A) :
  reads_forward m1 -> reads_forward m2 ->
  reads_forward (if b then m1 else m2).
Proof. now destruct b. Qed.

Create HintDb reads_forward.

#[local] Hint Resolve reads_forward_ret reads_forward_random : reads_forward.

(** Builds a proof of [reads_forward] along the structure of the
    computation. *)
Ltac reads_forward_tac :=
  repeat first
    [ solve [auto with reads_forward]
    | apply reads_forward_bind; [|intros ?]
    | apply reads_forward_if ].

Lemma reads_forward_index n : reads_forward (random_index n).
Proof. unfold random_index. reads_forward_tac. Qed.

Lemma reads_forward_weightedChoice items weights :
  reads_forward (weightedChoice items weights).
Proof.
  unfold weightedChoice. apply reads_forward_bind;
    [apply reads_forward_random | intros x].
  destruct (weightedChoice_loop _ _ _ _); apply reads_forward_ret.
Qed.

#[local] Hint Resolve reads_forward_index reads_forward_weightedChoice
  : reads_forward.

Lemma reads_forward_genSyllable : reads_forward genSyllable.
Proof. unfold genSyllable. reads_forward_tac. Qed.

#[local] Hint Resolve reads_forward_genSyllable : reads_forward.

Lemma reads_forward_genSyllables n : reads_forward (genSyllables n).
Proof.
  induction n as [|n IH]; simpl; reads_forward_tac.
Qed.

#[local] Hint Resolve reads_forward_genSyllables : reads_forward.

Lemma reads_forward_genWord : reads_forward genWord.
Proof. unfold genWord. reads_forward_tac. Qed.

#[local] Hint Resolve reads_forward_genWord : reads_forward.

(** The draw that [Math.random()] returns on a valid tape. *)
Lemma valid_next g : valid_tape g -> valid_draw (tape g (cursor g)).
Proof. intros H. apply H. Qed.

Lemma valid_after {A : Type} (m : Rand A) g :
  reads_forward m -> valid_tape g -> valid_tape (snd (m g)).
Proof.
  intros Hm Hv. eapply valid_tape_ext; [apply Hm | exact Hv].
Qed.

(** ** Weighted choice *)

Lemma fold_left_add (l : list Z) (a : Z) :
  fold_left Z.add l a = (a + sumZ l)%Z.
Proof.
  revert a. induction l as [|x l IH]; intros a; simpl; [lia|].
  rewrite IH. lia.
Qed.

(** The loop returns the first item whose cumulated weight reaches [r], and
    nothing when none does. *)
Lemma weightedChoice_loop_spec items weights r cum :
  List.length weights = List.length items ->
  match weightedChoice_loop items weights r cum with
  | Some it =>
      exists i, nth_error items i = Some it /\
        (r <= inject_Z (cum + sumZ (firstn (S i) weights)))%Q /\
        forall j, j < i ->
          ~ (r <= inject_Z (cum + sumZ (firstn (S j) weights)))%Q
  | None =>
      forall j, j < List.length items ->
        ~ (r <= inject_Z (cum + sumZ (firstn (S j) weights)))%Q
  end.
Proof.
  revert weights cum.
  induction items as [|x items IH]; intros weights cum Hlen.
  - simpl. intros j Hj. lia.
  - destruct weights as [|w weights]; [discriminate|].
    injection Hlen as Hlen. cbn [weightedChoice_loop].
    destruct (Qle_bool r (inject_Z (cum + w))) eqn:E.
    + apply Qle_bool_iff in E. exists 0. split; [reflexivity|].
      split; [|intros j Hj; lia].
      cbn [firstn sumZ fold_right]. now rewrite Z.add_0_r.
    + assert (Hn : ~ (r <= inject_Z (cum + w))%Q).
      { intros H. apply Qle_bool_iff in H. congruence. }
      specialize (IH weights (cum + w)%Z Hlen).
      assert (Hsum : forall j,
                 (cum + sumZ (firstn (S (S j)) (w :: weights))
                  = cum + w + sumZ (firstn (S j) weights))%Z).
      { intros j. cbn [firstn sumZ fold_right]. lia. }
      destruct (weightedChoice_loop items weights r (cum + w)) as [it|].
      * destruct IH as (i & Hi & Hle & Hlt). exists (S i).
        split; [exact Hi | split].
        -- now rewrite Hsum.
        -- intros [|j] Hj.
           ++ cbn [firstn sumZ fold_right]. now rewrite Z.add_0_r.
           ++ rewrite Hsum. apply Hlt. lia.
      * intros [|j] Hj.
        -- cbn [firstn sumZ fold_right]. now rewrite Z.add_0_r.
        -- rewrite Hsum. apply IH. cbn [List.length] in Hj. lia.
Qed.

Lemma round_mul_le (x : Q) (total : Z) :
  valid_draw x -> (0 <= total)%Z ->
  (B64.round (x * inject_Z total) <= inject_Z total)%Q.
Proof.
  intros (H0 & H1 & Hd) Ht.
  destruct (Z.eq_dec total 0) as [-> | Hne].
  - unfold B64.round.
    assert (E : Qle_bool (x * inject_Z 0) 0 = true).
    { apply Qle_bool_iff. change (inject_Z 0) with 0%Q. lra. }
    rewrite E. apply Qle_refl.
  - apply Qlt_le_weak, round_mul_lt; [exact H0 | | lia].
    now apply is_double_below_one.
Qed.

(** X1.  With as many weights as items, a total that is not negative and
    a draw that is a Number in [0, 1), [weightedChoice] returns the item at
    the first index whose cumulated weight reaches [r], the product of the
    draw by the total as binary64 rounds it; [r] is at most the total, so
    the fall-back to the last item is never needed. *)
Theorem weightedChoice_first_reached items weights g :
  List.length weights = List.length items -> items <> [] ->
  (0 <= sumZ weights)%Z -> valid_draw (tape g (cursor g)) ->
  let r := B64.round (tape g (cursor g) * inject_Z (sumZ weights)) in
  exists i it,
    nth_error items i = Some it /\
    weightedChoice items weights g = (it, mkRng (tape g) (S (cursor g))) /\
    (r <= inject_Z (sumZ (firstn (S i) weights)))%Q /\
    (forall j, j < i ->
       ~ (r <= inject_Z (sumZ (firstn (S j) weights)))%Q) /\
    (r <= inject_Z (sumZ weights))%Q.
Proof.
  intros Hlen Hne Hpos Hv r.
  pose proof (weightedChoice_loop_spec items weights r 0 Hlen) as Hspec.
  pose proof (round_mul_le _ _ Hv Hpos) as Hr. fold r in Hr.
  unfold weightedChoice, bind, Math_random, ret.
  rewrite fold_left_add, Z.add_0_l. fold r.
  destruct (weightedChoice_loop items weights r 0) as [it|].
  - destruct Hspec as (i & Hi & Hle & Hlt). exists i, it.
    repeat split; auto.
  - exfalso.
    assert (Hn : 0 < List.length items)
      by (destruct items; [congruence | simpl; lia]).
    apply (Hspec (List.length items - 1)); [lia|].
    replace (S (List.length items - 1)) with (List.length weights) by lia.
    now rewrite firstn_all, Z.add_0_l.
Qed.

Lemma weightedChoice_first_reached_witness :
  valid_draw (tape twenty_tape (cursor twenty_tape)) /\
  fst (weightedChoice VOWELS V_WEIGHTS twenty_tape) = "a" /\
  let r := B64.round (tape twenty_tape (cursor twenty_tape)
                      * inject_Z (sumZ V_WEIGHTS)) in
  exists i it,
    nth_error VOWELS i = Some it /\
    weightedChoice VOWELS V_WEIGHTS twenty_tape
    = (it, mkRng (tape twenty_tape) (S (cursor twenty_tape))) /\
    (r <= inject_Z (sumZ (firstn (S i) V_WEIGHTS)))%Q /\
    (forall j, j < i ->
       ~ (r <= inject_Z (sumZ (firstn (S j) V_WEIGHTS)))%Q) /\
    (r <= inject_Z (sumZ V_WEIGHTS))%Q.
Proof.
  assert (Hv : valid_draw (tape twenty_tape (cursor twenty_tape)))
    by (repeat split; vm_compute; congruence).
  split; [exact Hv | split; [vm_compute; reflexivity|]].
  apply (weightedChoice_first_reached VOWELS V_WEIGHTS twenty_tape).
  - reflexivity.
  - discriminate.
  - vm_compute. discriminate.
  - exact Hv.
Defined.

(** ** The shape of generated forms *)

Lemma split_chars_app (a b : string) :
  JS.split_chars (a ++ b)%string = JS.split_chars a ++ JS.split_chars b.
Proof.
  induction a as [|c a IH]; simpl; [reflexivity | now rewrite IH].
Qed.

Lemma split_chars_join (l : list string) :
  JS.split_chars (JS.join l) = List.concat (map JS.split_chars l).
Proof.
  induction l as [|x l IH]; simpl; [reflexivity|].
  now rewrite split_chars_app, IH.
Qed.

Lemma over_alphabet_app (a b : string) :
  over_alphabet a -> over_alphabet b -> over_alphabet (a ++ b)%string.
Proof.
  unfold over_alphabet. rewrite split_chars_app. intros Ha Hb.
  apply Forall_app. now split.
Qed.

Lemma over_alphabet_empty : over_alphabet "".
Proof. constructor. Qed.

(** An item of an inventory is one letter of the alphabet. *)
Lemma inventory_letter (it : string) :
  In it ALPHABET -> over_alphabet it /\ String.length it = 1.
Proof.
  intros H. unfold over_alphabet.
  assert (E : JS.split_chars it = [it] /\ String.length it = 1).
  { unfold ALPHABET, CONSONANTS, VOWELS in H. simpl in H.
    repeat (destruct H as [<- | H]; [split; reflexivity|]). contradiction. }
  destruct E as [-> ->]. split; [|reflexivity].
  constructor; [exact H | constructor].
Qed.

Lemma coda_letter (i : nat) :
  i < 3 ->
  over_alphabet (JS.index ["n"; "m"; ""] i) /\
  String.length (JS.index ["n"; "m"; ""] i) <= 1.
Proof.
  intros Hi. destruct i as [|[|[|i]]]; [| | |lia]; cbn.
  - split; [|lia]. apply inventory_letter. unfold ALPHABET. cbn. auto.
  - split; [|lia]. apply inventory_letter. unfold ALPHABET. cbn. auto 10.
  - split; [constructor | lia].
Qed.

Lemma genSyllable_letters g :
  valid_tape g ->
  over_alphabet (fst (genSyllable g)) /\
  String.length (fst (genSyllable g)) <= 3.
Proof.
  intros Hv. unfold genSyllable, bind.
  destruct (Math_random g) as [x g1] eqn:E1.
  assert (V1 : valid_tape g1).
  { change g1 with (snd (x, g1)). rewrite <- E1.
    apply valid_after; auto with reads_forward. }
  assert (Honset : forall b,
    let r := (if b : bool then weightedChoice CONSONANTS C_WEIGHTS
              else ret "") g1 in
    valid_tape (snd r) /\ over_alphabet (fst r) /\
    String.length (fst r) <= 1).
  { intros [|]; cbv zeta.
    - split; [apply valid_after; auto with reads_forward|].
      pose proof (weightedChoice_In CONSONANTS C_WEIGHTS g1) as Hin.
      destruct (inventory_letter (fst (weightedChoice CONSONANTS C_WEIGHTS g1)))
        as [Ha Hl].
      + unfold ALPHABET. apply in_or_app. left. apply Hin. discriminate.
      + split; [exact Ha | lia].
    - cbn. split; [exact V1 | split; [constructor | lia]]. }
  specialize (Honset (Qltb lit_0_2 x)). cbv zeta in Honset.
  destruct ((if Qltb lit_0_2 x then weightedChoice CONSONANTS C_WEIGHTS
             else ret "") g1) as [onset g2].
  cbn [fst snd] in Honset. destruct Honset as (V2 & Ao & Lo).
  pose proof (weightedChoice_In VOWELS V_WEIGHTS g2) as Hin.
  pose proof (valid_after _ g2 (reads_forward_weightedChoice VOWELS V_WEIGHTS)
                V2) as V3.
  destruct (weightedChoice VOWELS V_WEIGHTS g2) as [nucleus g3].
  cbn [fst snd] in Hin, V3.
  destruct (inventory_letter nucleus) as [An Ln].
  { unfold ALPHABET. apply in_or_app. right. apply Hin. discriminate. }
  destruct (Math_random g3) as [y g4] eqn:E4.
  assert (V4 : valid_tape g4).
  { change g4 with (snd (y, g4)). rewrite <- E4.
    apply valid_after; auto with reads_forward. }
  assert (Hcoda : forall b,
    let r := (if b : bool
              then (i <- random_index 3 ;; ret (JS.index ["n"; "m"; ""] i))
              else ret "") g4 in
    over_alphabet (fst r) /\ String.length (fst r) <= 1).
  { intros [|]; cbv zeta.
    - unfold bind, random_index, Math_random, ret. cbn [fst].
      apply coda_letter. destruct (V4 (cursor g4)) as [H0 H1].
      apply floor_mul_lt; auto.
    - cbn. split; [constructor | lia]. }
  specialize (Hcoda (Qltb lit_0_7 y)). cbv zeta in Hcoda.
  unfold bind in Hcoda. run_next.
  cbn [fst snd ret] in *. destruct Hcoda as [Ac Lc]. split.
  - repeat apply over_alphabet_app; assumption.
  - rewrite !string_length_app. lia.
Qed.

Lemma genSyllables_letters n g :
  valid_tape g ->
  over_alphabet (JS.join (fst (genSyllables n g))) /\
  String.length (JS.join (fst (genSyllables n g))) <= 3 * n.
Proof.
  revert g. induction n as [|n IH]; intros g Hv; simpl.
  - split; [constructor | lia].
  - unfold bind. pose proof (genSyllable_letters g Hv) as [Ha Hl].
    pose proof (valid_after _ g reads_forward_genSyllable Hv) as V1.
    destruct (genSyllable g) as [s g1]. cbn [fst snd] in *.
    destruct (IH g1 V1) as [Ha' Hl'].
    destruct (genSyllables n g1) as [rest g2]. cbn [fst snd ret] in *.
    change (JS.join (s :: rest)) with (s ++ JS.join rest)%string.
    split; [now apply over_alphabet_app|].
    rewrite string_length_app. lia.
Qed.

Lemma syllable_count_le weights r cum i :
  syllable_count weights r cum i <= Nat.max 2 (i + List.length weights).
Proof.
  revert cum i.
  induction weights as [|w ws IH]; intros cum i;
    cbn [syllable_count List.length].
  - lia.
  - destruct (Qle_bool r (inject_Z (cum + w))); [lia|].
    specialize (IH (cum + w)%Z (i + 1)). lia.
Qed.

(** X2.  On draws in [0, 1), [genWord] returns a form of one to nine
    characters, each a letter of the consonant or vowel inventory. *)
Theorem genWord_shape g :
  valid_tape g ->
  1 <= String.length (fst (genWord g)) <= 9 /\
  over_alphabet (fst (genWord g)).
Proof.
  intros Hv. split; [split; [apply genWord_length|]|].
  - unfold genWord, bind.
    pose proof (valid_after _ g (reads_forward_index 3) Hv) as V1.
    destruct (random_index 3 g) as [i g1]. cbn [snd] in V1.
    destruct (Math_random g1) as [x g2] eqn:E2.
    assert (V2 : valid_tape g2).
    { change g2 with (snd (x, g2)). rewrite <- E2.
      apply valid_after; auto with reads_forward. }
    pose proof (syllable_count_le [15; 50; 35]%Z
                  (B64.round (x * inject_Z 100)) 0 0)
      as Hn.
    destruct (genSyllables_letters
                (syllable_count [15; 50; 35]%Z
                   (B64.round (x * inject_Z 100)) 0 0) g2 V2)
      as [_ Hl].
    destruct (genSyllables _ g2) as [syls g3]. cbn [fst ret] in *.
    cbn [List.length] in Hn. lia.
  - unfold genWord, bind.
    pose proof (valid_after _ g (reads_forward_index 3) Hv) as V1.
    destruct (random_index 3 g) as [i g1]. cbn [snd] in V1.
    destruct (Math_random g1) as [x g2] eqn:E2.
    assert (V2 : valid_tape g2).
    { change g2 with (snd (x, g2)). rewrite <- E2.
      apply valid_after; auto with reads_forward. }
    destruct (genSyllables_letters
                (syllable_count [15; 50; 35]%Z
                   (B64.round (x * inject_Z 100)) 0 0) g2 V2)
      as [Ha _].
    destruct (genSyllables _ g2) as [syls g3]. exact Ha.
Qed.

Lemma genWord_shape_witness :
  valid_tape cycling_tape /\
  1 <= String.length (fst (genWord cycling_tape)) <= 9 /\
  over_alphabet (fst (genWord cycling_tape)).
Proof.
  split; [exact cycling_tape_valid|].
  exact (genWord_shape cycling_tape cycling_tape_valid).
Defined.

(** ** The concept of a birth *)

Lemma existsb_eqb_In (c : string) (l : list string) :
  existsb (String.eqb c) l = true <-> In c l.
Proof.
  rewrite existsb_exists. split.
  - intros [x [Hx E]]. apply String.eqb_eq in E. now subst.
  - intros H. exists c. split; [exact H | apply String.eqb_refl].
Qed.

Lemma existsb_eqb_not_In (c : string) (l : list string) :
  existsb (String.eqb c) l = false <-> ~ In c l.
Proof.
  rewrite <- existsb_eqb_In. destruct (existsb (String.eqb c) l);
    split; congruence.
Qed.

(** Every concept of the catalog has one of the six categories that
    [generateSentence] asks for. *)
Lemma catalog_categories (c : string) :
  In c ALL_CONCEPTS -> In (concept_cat c) catOrder_init.
Proof.
  assert (H : forallb (fun c => existsb (String.eqb (concept_cat c))
                                        catOrder_init) ALL_CONCEPTS = true)
    by (vm_compute; reflexivity).
  rewrite forallb_forall in H. intros Hc. apply existsb_eqb_In. now apply H.
Qed.

Lemma index_In (arr : list string) (r : Q) :
  valid_draw r -> arr <> [] ->
  In (JS.index arr (floor_mul r (List.length arr))) arr.
Proof.
  intros Hr Hne. apply nth_In. apply floor_mul_lt; auto.
  destruct arr; [congruence | simpl; lia].
Qed.

(** X3.  On draws in [0, 1), the concept picked for a birth is a concept
    of the catalog, its category is one of the six categories, and it is
    the meaning of no living word whenever the catalog still has a concept
    that no living word means. *)
Theorem pick_concept_uncovered (ws : Obj.t Word) (g : Rng) :
  valid_tape g ->
  let covered := map meaning (Obj.values ws) in
  let c := fst (pick_concept ws g) in
  In c ALL_CONCEPTS /\
  In (concept_cat c) catOrder_init /\
  ((exists c0, In c0 ALL_CONCEPTS /\ ~ In c0 covered) -> ~ In c covered).
Proof.
  intros Hv covered c.
  assert (Hc : In c ALL_CONCEPTS /\
               ((exists c0, In c0 ALL_CONCEPTS /\ ~ In c0 covered) ->
                ~ In c covered)).
  { subst c. unfold pick_concept. fold covered.
    set (uncovered := filter (fun c => negb (existsb (String.eqb c) covered))
                             ALL_CONCEPTS).
    destruct (Nat.ltb_spec 0 (List.length uncovered)) as [Hpos | Hzero].
    - unfold bind, random_index, Math_random, ret. cbn [fst].
      assert (Hin : In (JS.index uncovered
                          (floor_mul (tape g (cursor g))
                                     (List.length uncovered))) uncovered).
      { apply index_In; [apply valid_next, Hv|].
        intros E. rewrite E in Hpos. simpl in Hpos. lia. }
      apply filter_In in Hin. destruct Hin as [Hall Hnot].
      split; [exact Hall|]. intros _.
      apply existsb_eqb_not_In. now apply negb_true_iff.
    - unfold bind, random_index, Math_random, ret. cbn [fst].
      split; [apply index_In; [apply valid_next, Hv | discriminate]|].
      intros (c0 & Hall & Hnot). exfalso.
      assert (Hin : In c0 uncovered).
      { apply filter_In. split; [exact Hall|].
        apply negb_true_iff. now apply existsb_eqb_not_In. }
      destruct uncovered; [contradiction | simpl in Hzero; lia]. }
  destruct Hc as [Hall Hnot].
  split; [exact Hall | split; [now apply catalog_categories | exact Hnot]].
Qed.

Lemma pick_concept_uncovered_witness :
  valid_tape cycling_tape /\
  In (fst (pick_concept one_natural_word cycling_tape)) ALL_CONCEPTS /\
  In (concept_cat (fst (pick_concept one_natural_word cycling_tape)))
     catOrder_init /\
  ((exists c0, In c0 ALL_CONCEPTS /\
               ~ In c0 (map meaning (Obj.values one_natural_word))) ->
   ~ In (fst (pick_concept one_natural_word cycling_tape))
        (map meaning (Obj.values one_natural_word))).
Proof.
  split; [exact cycling_tape_valid|].
  exact (pick_concept_uncovered one_natural_word cycling_tape
           cycling_tape_valid).
Defined.

(** ** What a birth changes *)

Lemma set_absent {V : Type} k (v : V) o :
  Obj.has k o = false -> Obj.set k v o = o ++ [(k, v)].
Proof.
  unfold Obj.has.
  induction o as [|[k' v'] o IH]; simpl; [reflexivity|].
  destruct (String.eqb_spec k k') as [-> | Hne]; [discriminate|].
  intros H. now rewrite IH.
Qed.

Lemma reads_forward_pick_concept ws : reads_forward (pick_concept ws).
Proof.
  unfold pick_concept. destruct (0 <? _)%nat; reads_forward_tac.
Qed.

(** X4.  A birth never overwrites a living word: when the birth step
    returns, either nothing changed, or one word was appended after the
    living words, keyed by a form that none of them had, with fitness 0.5,
    no uses and the new generation as its birth; one [birth] event was
    pushed, and [total_generated] is one more than it was (at 2^53 the
    increment of a Number leaves it as it is). *)
Theorem birth_appends fuel l g l' g' :
  birth fuel l g = Some (l', g') ->
  (Qltb (tape g (cursor g)) lit_0_7 = false /\ l' = l) \/
  (Qltb (tape g (cursor g)) lit_0_7 = true /\
   exists concept word,
     ~ In word (Obj.keys (l_words l)) /\
     l_words l'
     = l_words l
       ++ [(word, mkWord concept (concept_cat concept) (l_generation l) 0
                         0.5%float [word])] /\
     l_out l'
     = l_out l ++ [EvBirth (l_generation l) word concept
                           (concept_cat concept)] /\
     ((- 2 ^ 53 <= l_generated l < 2 ^ 53)%Z ->
      l_generated l' = (l_generated l + 1)%Z) /\
     (l_generated l = (2 ^ 53)%Z -> l_generated l' = l_generated l) /\
     l_compounds l' = l_compounds l).
Proof.
  intros H. destruct (birth_cases _ _ _ _ _ H)
    as [[Hno ->] | [Hyes (concept & word & Hfree & ->)]].
  - now left.
  - right. split; [exact Hyes|]. exists concept, word.
    split; [now apply has_false_keys|].
    cbn [add_birth l_words l_out l_generated l_compounds].
    rewrite (set_absent _ _ _ Hfree).
    split; [reflexivity | split; [reflexivity|]].
    split; [|split; [|reflexivity]].
    + intros Hn. unfold JS.incr.
      destruct (Z.ltb_spec (l_generated l) (2 ^ 53)); lia.
    + intros ->. reflexivity.
Qed.

Lemma birth_appends_witness :
  exists l' g',
    birth 1 (ensure lone_state) newborn_first_tape = Some (l', g') /\
    l_words l'
    = [("ka", mkWord "water" "natural" 0 0 lit_f_0_05 ["ka"]);
       ("ni", mkWord "fire" "natural" 1 0 0.5%float ["ni"])] /\
    l_generated (ensure lone_state) = 1%Z /\ l_generated l' = 2%Z /\
    ((Qltb (tape newborn_first_tape (cursor newborn_first_tape)) lit_0_7
        = false /\ l' = ensure lone_state) \/
     (Qltb (tape newborn_first_tape (cursor newborn_first_tape)) lit_0_7
        = true /\
      exists concept word,
        ~ In word (Obj.keys (l_words (ensure lone_state))) /\
        l_words l'
        = l_words (ensure lone_state)
          ++ [(word, mkWord concept (concept_cat concept)
                            (l_generation (ensure lone_state)) 0
                            0.5%float [word])] /\
        l_out l'
        = l_out (ensure lone_state)
          ++ [EvBirth (l_generation (ensure lone_state)) word concept
                      (concept_cat concept)] /\
        ((- 2 ^ 53 <= l_generated (ensure lone_state) < 2 ^ 53)%Z ->
         l_generated l' = (l_generated (ensure lone_state) + 1)%Z) /\
        (l_generated (ensure lone_state) = (2 ^ 53)%Z ->
         l_generated l' = l_generated (ensure lone_state)) /\
        l_compounds l' = l_compounds (ensure lone_state))).
Proof.
  destruct (birth 1 (ensure lone_state) newborn_first_tape)
    as [[l' g']|] eqn:E; [|vm_compute in E; discriminate].
  exists l', g'. split; [reflexivity|].
  assert (Ec : option_map (fun r => (l_words (fst r), l_generated (fst r)))
                 (birth 1 (ensure lone_state) newborn_first_tape)
               = Some ([("ka", mkWord "water" "natural" 0 0 lit_f_0_05 ["ka"]);
                        ("ni", mkWord "fire" "natural" 1 0 0.5%float ["ni"])],
                       2%Z))
    by (vm_compute; reflexivity).
  rewrite E in Ec. cbn [option_map fst] in Ec. injection Ec as Ew En.
  split; [exact Ew | split; [reflexivity | split; [exact En|]]].
  exact (birth_appends 1 (ensure lone_state) newborn_first_tape l' g' E).
Defined.

(** ** Start-up *)

Lemma dedupe_incl seen l x : In x (dedupe seen l) -> In x l.
Proof.
  revert seen. induction l as [|y l IH]; intros seen; simpl; [tauto|].
  destruct (existsb (String.eqb y) seen).
  - intros H. right. eapply IH, H.
  - intros [-> | H]; [now left | right; eapply IH, H].
Qed.

Lemma In_firstn {A : Type} n (l : list A) x : In x (firstn n l) -> In x l.
Proof.
  intros H. rewrite <- (firstn_skipn n l). apply in_or_app. now left.
Qed.

Lemma dedupe_nil_head x l : dedupe [] (x :: l) = x :: dedupe [x] l.
Proof. reflexivity. Qed.

Lemma draw_concepts_spec n g :
  valid_tape g ->
  List.length (fst (draw_concepts n g)) = n /\
  Forall (fun c => In c ALL_CONCEPTS) (fst (draw_concepts n g)).
Proof.
  revert g. induction n as [|n IH]; intros g Hv.
  - cbn. split; [reflexivity | constructor].
  - cbn [draw_concepts]. unfold random_index.
    unfold bind, Math_random, ret. cbv beta iota.
    match goal with
    | |- context [draw_concepts n ?g1] =>
        assert (V1 : valid_tape g1) by (intros k; apply Hv);
        destruct (IH g1 V1) as [Hl Hf];
        destruct (draw_concepts n g1) as [rest g2]
    end.
    cbn [fst] in *. split; [simpl; now rewrite Hl|].
    constructor; [|exact Hf].
    apply index_In; [apply valid_next, Hv | discriminate].
Qed.

Lemma seed_concepts_spec g :
  valid_tape g ->
  1 <= List.length (fst (seed_concepts g)) <= 10 /\
  Forall (fun c => In c ALL_CONCEPTS) (fst (seed_concepts g)).
Proof.
  intros Hv. unfold seed_concepts, bind, ret.
  destruct (draw_concepts_spec 10 g Hv) as [Hl Hf].
  destruct (draw_concepts 10 g) as [initial g1]. cbn [fst] in *.
  split.
  - split; [|rewrite length_firstn; lia].
    destruct initial as [|c initial]; [discriminate|].
    rewrite dedupe_nil_head. simpl. lia.
  - apply Forall_forall. intros x Hx. apply In_firstn, dedupe_incl in Hx.
    rewrite Forall_forall in Hf. now apply Hf.
Qed.

Lemma set_length {V : Type} k (v : V) o :
  List.length o <= List.length (Obj.set k v o) /\
  1 <= List.length (Obj.set k v o).
Proof.
  induction o as [|[k' v'] o IH]; simpl; [lia|].
  destruct (String.eqb k k'); simpl; lia.
Qed.

(** The seeding loop: what it leaves in the object it fills. *)
Lemma seed_words_spec unique ws g :
  Obj.wf ws ->
  (forall k d, In (k, d) ws -> In (meaning d) ALL_CONCEPTS /\
                               d = seed_word (meaning d) k) ->
  Forall (fun c => In c ALL_CONCEPTS) unique ->
  let ws' := fst (seed_words unique ws g) in
  Obj.wf ws' /\
  (forall k d, In (k, d) ws' -> In (meaning d) ALL_CONCEPTS /\
                                d = seed_word (meaning d) k) /\
  List.length ws <= List.length ws' /\
  (unique <> [] -> 1 <= List.length ws').
Proof.
  revert ws g. induction unique as [|c rest IH]; intros ws g Hwf Hall Hu;
    cbv zeta.
  - cbn [seed_words ret fst].
    split; [exact Hwf | split; [exact Hall | split; [lia|]]].
    intros H. congruence.
  - cbn [seed_words]. unfold bind. destruct (genWord g) as [word g1].
    inversion Hu as [|? ? Hc Hrest]; subst.
    destruct (set_length word (seed_word c word) ws) as [Hle Hpos].
    assert (Hall' : forall k d,
               In (k, d) (Obj.set word (seed_word c word) ws) ->
               In (meaning d) ALL_CONCEPTS /\ d = seed_word (meaning d) k).
    { intros k d Hin. apply In_set in Hin.
      destruct Hin as [[-> ->] | Hin]; [|now apply Hall].
      split; [exact Hc | reflexivity]. }
    destruct (IH (Obj.set word (seed_word c word) ws) g1
                 (wf_set _ _ _ Hwf) Hall' Hrest) as (W & A & L & _).
    split; [exact W | split; [exact A | split; [lia | intros _; lia]]].
Qed.

(** X5.  Without a snapshot and on draws in [0, 1), start-up succeeds
    and seeds between one and ten living words; each is keyed by its form,
    means a concept of the catalog and has the category of that concept,
    birth 0, one use, fitness 1.0 and a history holding its form alone.
    Nothing else is in the state. *)
Theorem startup_seeds g :
  valid_tape g ->
  exists s ws,
    fst (startup None g) = Some s /\
    words s = Some ws /\
    1 <= List.length ws <= 10 /\
    (forall k d, In (k, d) ws ->
       In (meaning d) ALL_CONCEPTS /\
       d = mkWord (meaning d) (concept_cat (meaning d)) 0 1 1.0%float [k]) /\
    compounds s = Some [] /\ generation s = Some 0%Z /\
    extinct s = Some [] /\ sound_shifts s = Some [] /\ events s = Some [].
Proof.
  intros Hv. rewrite startup_fresh.
  destruct (seed_concepts_spec g Hv) as [[Hlo Hhi] Hf].
  pose proof (seed_words_length (fst (seed_concepts g)) []
                                (snd (seed_concepts g))) as Hlen.
  assert (Hv1 : valid_tape (snd (seed_concepts g))).
  { apply valid_after; [|exact Hv]. unfold seed_concepts.
    assert (Hd : forall n, reads_forward (draw_concepts n)).
    { induction n as [|n IH]; simpl; reads_forward_tac. }
    reads_forward_tac. }
  destruct (seed_concepts g) as [unique g1]. cbn [fst snd] in *.
  destruct (seed_words_spec unique [] g1) as (_ & A & _ & Hpos).
  - constructor.
  - intros k d [].
  - exact Hf.
  - destruct (seed_words unique [] g1) as [ws g2]. cbn [fst] in *.
    exists (mkState (Some ws) (Some []) (Some 0%Z) (Some []) (Some [])
                    (Some [])
                    (Some (mkStats (Some (Z.of_nat (List.length (Obj.keys ws))))
                                   (Some 0%Z) (Some 0%Z) (Some 0%Z)))
                    None None), ws.
    split; [reflexivity|]. cbn [words compounds generation extinct
      sound_shifts events].
    split; [reflexivity|]. split.
    + split.
      * apply Hpos. intros ->. simpl in Hlo. lia.
      * unfold Obj.keys in Hlen. rewrite length_map in Hlen.
        simpl in Hlen. lia.
    + split; [exact A | repeat split].
Qed.

Lemma startup_seeds_witness :
  valid_tape cycling_tape /\
  exists s ws,
    fst (startup None cycling_tape) = Some s /\
    words s = Some ws /\
    1 <= List.length ws <= 10 /\
    (forall k d, In (k, d) ws ->
       In (meaning d) ALL_CONCEPTS /\
       d = mkWord (meaning d) (concept_cat (meaning d)) 0 1 1.0%float [k]) /\
    compounds s = Some [] /\ generation s = Some 0%Z /\
    extinct s = Some [] /\ sound_shifts s = Some [] /\ events s = Some [].
Proof.
  split; [exact cycling_tape_valid|].
  exact (startup_seeds cycling_tape cycling_tape_valid).
Defined.

(** X6.  Start-up throws exactly when there is a snapshot with no [words]
    object, or with an empty one and no [stats] to write the number of
    seeded words into; a snapshot with living words is taken as it is,
    without a draw, its missing event log becoming an empty one. *)
Theorem startup_throws_iff (snapshot : option State) (g : Rng) :
  (fst (startup snapshot g) = None <->
   exists s, snapshot = Some s /\
             (words s = None \/ (words s = Some [] /\ stats s = None))) /\
  (forall s e ws, snapshot = Some s -> words s = Some (e :: ws) ->
     startup snapshot g
     = (Some (mkState (words s) (compounds s) (generation s) (extinct s)
                      (sound_shifts s) (Some (or_else (events s) []))
                      (stats s) (piConnected s) (lastPiSync s)), g)).
Proof.
  split.
  - destruct snapshot as [s|].
    + unfold startup. cbn [or_else].
      destruct (words s) as [[|e ws]|] eqn:Ew.
      * unfold bind. destruct (seed_concepts g) as [unique g1].
        destruct (seed_words unique [] g1) as [ws g2].
        destruct (stats s) as [st|] eqn:Es; cbn [fst ret]; split.
        -- discriminate.
        -- intros (s0 & [= <-] & [H | [_ H]]); congruence.
        -- intros _. exists s. auto.
        -- reflexivity.
      * cbn. split; [discriminate|].
        intros (s0 & [= <-] & [H | [H _]]); congruence.
      * cbn. split; [intros _; exists s; auto | reflexivity].
    + rewrite startup_fresh.
      destruct (seed_concepts g) as [unique g1].
      destruct (seed_words unique [] g1) as [ws g2]. cbn [fst].
      split; [discriminate | intros (s0 & H & _); discriminate].
  - intros s e ws -> Hw. unfold startup. cbn [or_else]. now rewrite Hw.
Qed.

(** ** An induction principle for the steps of a generation *)

Lemma with_words_same l : with_words (l_words l) l = l.
Proof. now destruct l. Qed.

(** Steps 2 and 3 as a sequence of single updates of the state. *)
Lemma with_words_fold (f : Word -> Word) ks l :
  with_words (fold_left (fun acc w => Obj.update w f acc) ks (l_words l)) l
  = fold_left (fun l' w => with_words (Obj.update w f (l_words l')) l') ks l.
Proof.
  revert l. induction ks as [|k ks IH]; intros l; cbn [fold_left].
  - apply with_words_same.
  - rewrite <- IH. reflexivity.
Qed.

Lemma fresh_form_generated fuel ws g w g' :
  fresh_form fuel ws g = Some (w, g') -> exists g0, w = fst (genWord g0).
Proof.
  revert g. induction fuel as [|fuel IH]; intros g H; simpl in H.
  - discriminate.
  - destruct (genWord g) as [word g1] eqn:E.
    destruct (Obj.has word ws).
    + eapply IH, H.
    + injection H as <- <-. exists g. now rewrite E.
Qed.

Lemma birth_cases_generated fuel l g l1 g1 :
  birth fuel l g = Some (l1, g1) ->
  l1 = l \/
  exists concept word g0,
    Obj.has word (l_words l) = false /\ word = fst (genWord g0) /\
    l1 = add_birth concept word l.
Proof.
  unfold birth. destruct (Math_random g) as [x g0].
  destruct (Qltb x lit_0_7).
  - destruct (pick_concept (l_words l) g0) as [concept g2].
    destruct (fresh_form fuel (l_words l) g2) as [[word g3]|] eqn:E;
      [|discriminate].
    intros [= <- <-]. right.
    destruct (fresh_form_generated _ _ _ _ _ E) as [gw Hw].
    exists concept, word, gw. split; [|split; [exact Hw | reflexivity]].
    eapply fresh_form_free, E.
  - intros [= <- <-]. now left.
Qed.

Section StepInvariant.

Variable sort_random : list string -> Rand (list string).
Variable P : Lex -> Prop.

Hypothesis P_use : forall w d l,
  P l -> Obj.get w (l_words l) = Some d ->
  P (with_words (Obj.set w (use_word d) (l_words l)) l).

Hypothesis P_decay : forall w d l,
  P l -> Obj.get w (l_words l) = Some d ->
  P (with_words (Obj.set w (decay_word (l_generation l) d) (l_words l)) l).

Hypothesis P_kill : forall w d l,
  P l -> Obj.get w (l_words l) = Some d -> is_dead d = true ->
  P (kill w d l).

Hypothesis P_rename : forall target data g l,
  P l -> Obj.get target (l_words l) = Some data ->
  snd (fst (shift_chars (JS.split_chars target) g)) = true ->
  JS.join (fst (fst (shift_chars (JS.split_chars target) g))) <> target ->
  Obj.has (JS.join (fst (fst (shift_chars (JS.split_chars target) g))))
          (l_words l) = false ->
  P (rename target
       (JS.join (fst (fst (shift_chars (JS.split_chars target) g))))
       data l).

Hypothesis P_compound : forall w1 w2 d1 d2 l,
  P l -> Obj.get w1 (l_words l) = Some d1 ->
  Obj.get w2 (l_words l) = Some d2 -> w1 <> w2 ->
  4 <= List.length (l_words l) ->
  Obj.has (compound_form w1 w2) (l_words l) = false ->
  Obj.has (compound_form w1 w2) (l_compounds l) = false ->
  P (add_compound w1 w2 (compound_form w1 w2) (meaning d1) (meaning d2) l).

Hypothesis P_store : forall clock l, P l -> P (store_events clock l).

Lemma updates_invariant (f : Lex -> Word -> Word) ks l :
  (forall w d l, P l -> Obj.get w (l_words l) = Some d ->
                 P (with_words (Obj.set w (f l d) (l_words l)) l)) ->
  (forall ws l d, f (with_words ws l) d = f l d) ->
  P l ->
  P (fold_left (fun l' w => with_words (Obj.update w (f l) (l_words l')) l')
               ks l).
Proof.
  intros Hstep Hsame.
  assert (H : forall l0 l, (forall d, f l d = f l0 d) -> P l ->
    P (fold_left (fun l' w => with_words (Obj.update w (f l0) (l_words l')) l')
                 ks l)).
  { induction ks as [|k ks IH]; intros l0 l1 Hf Hl; cbn [fold_left];
      [exact Hl|].
    apply IH.
    - intros d. now rewrite Hsame.
    - unfold Obj.update.
      destruct (Obj.get k (l_words l1)) as [d|] eqn:E.
      + rewrite <- Hf. now apply Hstep.
      + now rewrite with_words_same. }
  intros Hl. now apply H.
Qed.

Lemma usage_invariant l g : P l -> P (fst (usage sort_random l g)).
Proof.
  intros Hl. unfold usage, bind, ret.
  destruct (sort_random (Obj.keys (l_words l)) g) as [shuffled g1].
  cbn [fst]. unfold use_all. rewrite with_words_fold.
  apply (updates_invariant (fun _ => use_word)); auto.
Qed.

Lemma decay_invariant l : P l -> P (decay l).
Proof.
  intros Hl. unfold decay. rewrite with_words_fold.
  apply (updates_invariant (fun l => decay_word (l_generation l))); auto.
Qed.

Lemma extinction_invariant l : P l -> P (extinction l).
Proof.
  unfold extinction. generalize (Obj.keys (l_words l)) as ks. intros ks.
  revert l. induction ks as [|k ks IH]; intros l Hl; cbn [fold_left];
    [exact Hl|].
  apply IH. unfold extinction_turn.
  destruct (Obj.get k (l_words l)) as [d|] eqn:E; [|exact Hl].
  destruct (is_dead d) eqn:Ed; [now apply P_kill | exact Hl].
Qed.

Lemma sound_shift_invariant l g : P l -> P (fst (sound_shift l g)).
Proof.
  intros Hl. unfold sound_shift, bind. destruct (Math_random g) as [x g1].
  destruct (Qltb x lit_0_1 && _)%bool; [|exact Hl].
  destruct (random_index _ g1) as [i g2].
  set (target := JS.index (Obj.keys (l_words l)) i).
  pose proof (P_rename target) as Hr. specialize (fun data => Hr data g2 l Hl).
  destruct (shift_chars (JS.split_chars target) g2) as [r g3].
  cbn [fst snd] in Hr.
  destruct (snd r) eqn:Es; cbn [andb]; [|exact Hl].
  destruct (String.eqb_spec (JS.join (fst r)) target) as [E | Hne];
    cbn [negb andb]; [exact Hl|].
  destruct (Obj.has (JS.join (fst r)) (l_words l)) eqn:Eh; cbn [negb];
    [exact Hl|].
  destruct (Obj.get target (l_words l)) as [data|] eqn:Eg; [|exact Hl].
  unfold ret. cbn [fst]. now apply Hr.
Qed.

Lemma compounding_invariant l g : P l -> P (fst (compounding l g)).
Proof.
  intros Hl. unfold compounding, bind. destruct (Math_random g) as [x g1].
  destruct (Qltb x lit_0_15) eqn:Ex; cbn [andb]; [|exact Hl].
  destruct (Nat.leb_spec 4 (List.length (Obj.keys (l_words l))))
    as [H4 | _]; [|exact Hl].
  destruct (random_index _ g1) as [i g2].
  destruct (random_index _ g2) as [j g3].
  set (w1 := JS.index (Obj.keys (l_words l)) i).
  set (w2 := JS.index (Obj.keys (l_words l)) j).
  destruct (String.eqb_spec w1 w2) as [E | Hne]; cbn [negb]; [exact Hl|].
  destruct (Obj.get w1 (l_words l)) as [d1|] eqn:E1; [|exact Hl].
  destruct (Obj.get w2 (l_words l)) as [d2|] eqn:E2; [|exact Hl].
  destruct (Obj.has (compound_form w1 w2) (l_words l)) eqn:Hw;
    cbn [negb andb]; [exact Hl|].
  destruct (Obj.has (compound_form w1 w2) (l_compounds l)) eqn:Hc;
    cbn [negb]; [exact Hl|].
  unfold ret. cbn [fst]. apply P_compound; auto.
  unfold Obj.keys in H4. now rewrite length_map in H4.
Qed.

(** A property of the state that each single update of steps 2 to 6 and
    the storing of the events preserve holds after them when it holds after
    the birth. *)
Lemma after_birth_invariant clock l g :
  P l -> P (fst (after_birth sort_random clock l g)).
Proof.
  intros Hl. rewrite after_birth_unfold.
  pose proof (usage_invariant l g Hl) as H2.
  destruct (usage sort_random l g) as [l2 g2]. cbn [fst] in H2.
  pose proof (sound_shift_invariant (extinction (decay l2)) g2
                (extinction_invariant _ (decay_invariant _ H2))) as H5.
  destruct (sound_shift (extinction (decay l2)) g2) as [l5 g5].
  cbn [fst] in H5.
  pose proof (compounding_invariant l5 g5 H5) as H6.
  destruct (compounding l5 g5) as [l6 g6]. cbn [fst] in *.
  now apply P_store.
Qed.

Lemma evolveStep_invariant fuel clock s g s' evs g' :
  (forall l1 g1, birth fuel (ensure s) g = Some (l1, g1) -> P l1) ->
  evolveStep sort_random fuel clock s g = Some (s', evs, g') ->
  exists l7, P l7 /\ s' = commit s l7 /\ evs = l_out l7.
Proof.
  intros Hb. unfold evolveStep.
  destruct (birth fuel (ensure s) g) as [[l1 g1]|]; [|discriminate].
  pose proof (after_birth_invariant clock l1 g1 (Hb l1 g1 eq_refl)) as H.
  destruct (after_birth sort_random clock l1 g1) as [l7 g7].
  intros [= <- <- <-]. exists l7. auto.
Qed.

End StepInvariant.

(** ** The generation number and the events of a call *)

Lemma Forall_snoc {A : Type} (Q : A -> Prop) (l : list A) (x : A) :
  Forall Q l -> Q x -> Forall Q (l ++ [x]).
Proof.
  intros Hl Hx. apply Forall_app. split; [exact Hl | now constructor].
Qed.

(** X7.  A call that returns has advanced the generation number by one:
    the new number is the old one plus 1 (a missing one counting as 0; at
    2^53 the increment of a Number leaves it as it is), and every event
    the call returns carries the new number. *)
Theorem evolveStep_generation
    (sort_random : list string -> Rand (list string)) fuel clock s g s' evs g' :
  evolveStep sort_random fuel clock s g = Some (s', evs, g') ->
  let old := match generation s with Some n => n | None => 0%Z end in
  exists gen,
    generation s' = Some gen /\
    Forall (fun e => event_gen e = gen) evs /\
    ((- 2 ^ 53 <= old < 2 ^ 53)%Z -> gen = (old + 1)%Z) /\
    (old = (2 ^ 53)%Z -> gen = old).
Proof.
  intros H old. set (gen := JS.incr (num_or_0 (generation s))).
  pose (P := fun l => l_generation l = gen /\
                      Forall (fun e => event_gen e = gen) (l_out l)).
  assert (Hinv : exists l7, P l7 /\ s' = commit s l7 /\ evs = l_out l7).
  2: { destruct Hinv as (l7 & [Hg Ho] & -> & ->). exists gen.
       split; [cbn [commit generation]; now rewrite Hg|].
       split; [exact Ho|].
       unfold gen, JS.incr.
       change (num_or_0 (generation s)) with old.
       destruct (Z.ltb_spec old (2 ^ 53)); split; lia. }
  apply (evolveStep_invariant sort_random P)
    with (fuel := fuel) (clock := clock) (g := g) (g' := g');
    [ | | | | | | | exact H ].
  - intros w d l [Hg Ho] _. split; assumption.
  - intros w d l [Hg Ho] _. split; assumption.
  - intros w d l [Hg Ho] _ _. split; [exact Hg|].
    cbn [kill l_out]. apply Forall_snoc; [exact Ho | exact Hg].
  - intros target data g0 l [Hg Ho] _ _ _ _. split; [exact Hg|].
    cbn [rename l_out]. apply Forall_snoc; [exact Ho | exact Hg].
  - intros w1 w2 d1 d2 l [Hg Ho] _ _ _ _ _ _. split; [exact Hg|].
    cbn [add_compound l_out]. apply Forall_snoc; [exact Ho | exact Hg].
  - intros c l [Hg Ho]. split; assumption.
  - intros l1 g1 Hb.
    destruct (birth_cases_generated _ _ _ _ _ Hb)
      as [-> | (concept & word & g0 & _ & _ & ->)].
    + split; [reflexivity | constructor].
    + split; [reflexivity|]. cbn [add_birth l_out ensure].
      repeat constructor.
Qed.

Lemma evolveStep_generation_witness :
  exists s' evs g',
    evolveStep insertion_sort_random 1 noon two_dying two_dying_tape
      = Some (s', evs, g') /\
    generation two_dying = Some 5%Z /\
    generation s' = Some 6%Z /\
    evs = [EvExtinct 6 "ka" "water"; EvExtinct 6 "ti" "wind"] /\
    let old := match generation two_dying with
               | Some n => n | None => 0%Z end in
    exists gen,
      generation s' = Some gen /\
      Forall (fun e => event_gen e = gen) evs /\
      ((- 2 ^ 53 <= old < 2 ^ 53)%Z -> gen = (old + 1)%Z) /\
      (old = (2 ^ 53)%Z -> gen = old).
Proof.
  destruct (evolveStep insertion_sort_random 1 noon two_dying two_dying_tape)
    as [[[s' evs] g']|] eqn:E; [|vm_compute in E; discriminate].
  exists s', evs, g'. split; [reflexivity|].
  assert (Ec : option_map (fun r => (generation (fst (fst r)), snd (fst r)))
                 (evolveStep insertion_sort_random 1 noon two_dying
                             two_dying_tape)
               = Some (Some 6%Z,
                       [EvExtinct 6 "ka" "water"; EvExtinct 6 "ti" "wind"]))
    by (vm_compute; reflexivity).
  rewrite E in Ec. cbn [option_map fst snd] in Ec. injection Ec as Eg Ee.
  split; [reflexivity | split; [exact Eg | split; [exact Ee|]]].
  exact (evolveStep_generation insertion_sort_random 1 noon two_dying
           two_dying_tape s' evs g' E).
Defined.

(** ** How many living words a call can leave *)

Lemma set_present_length {V : Type} k (v v0 : V) o :
  Obj.get k o = Some v0 -> List.length (Obj.set k v o) = List.length o.
Proof.
  induction o as [|[k' v'] o IH]; simpl; [discriminate|].
  destruct (String.eqb k k'); simpl; [reflexivity|].
  intros H. now rewrite IH.
Qed.

Lemma delete_length_le {V : Type} k (o : Obj.t V) :
  List.length (Obj.delete k o) <= List.length o.
Proof. unfold Obj.delete. apply filter_length_le. Qed.

Lemma delete_present_length {V : Type} k (v : V) o :
  Obj.get k o = Some v -> List.length (Obj.delete k o) < List.length o.
Proof.
  unfold Obj.delete.
  induction o as [|[k' v'] o IH]; cbn [Obj.get filter fst List.length];
    [discriminate|].
  destruct (String.eqb k k'); cbn [negb List.length].
  - intros _. pose proof (delete_length_le k o) as H.
    unfold Obj.delete in H. lia.
  - intros H. apply IH in H. lia.
Qed.

Lemma has_delete_false {V : Type} k k' (o : Obj.t V) :
  Obj.has k o = false -> Obj.has k (Obj.delete k' o) = false.
Proof.
  rewrite !has_false_keys. intros H Hin. apply H.
  now apply In_keys_delete in Hin.
Qed.

(** A rename takes one key out and puts one in. *)
Lemma rename_length target newForm (data data' : Word) ws :
  Obj.get target ws = Some data -> Obj.has newForm ws = false ->
  List.length (Obj.set newForm data' (Obj.delete target ws))
  <= List.length ws.
Proof.
  intros Hg Hh. rewrite set_absent by now apply has_delete_false.
  rewrite length_app. cbn [List.length].
  pose proof (delete_present_length _ _ _ Hg). lia.
Qed.

(** Steps 2 to 6 never add a living word. *)
Lemma after_birth_population
    (sort_random : list string -> Rand (list string)) clock l g m :
  List.length (l_words l) <= m ->
  List.length (l_words (fst (after_birth sort_random clock l g))) <= m.
Proof.
  apply (after_birth_invariant sort_random
           (fun l => List.length (l_words l) <= m)).
  - intros w d l0 H Hg. cbn [with_words l_words].
    now rewrite (set_present_length _ _ _ _ Hg).
  - intros w d l0 H Hg. cbn [with_words l_words].
    now rewrite (set_present_length _ _ _ _ Hg).
  - intros w d l0 H _ _. cbn [kill l_words].
    pose proof (delete_length_le w (l_words l0)). lia.
  - intros target data g0 l0 H Hg _ _ Hh. cbn [rename l_words].
    pose proof (rename_length target _ data
                (mkWord (meaning data) (category data) (born data)
                        (uses data) (fitness data)
                        (history data
                         ++ [JS.join (fst (fst (shift_chars
                                                  (JS.split_chars target)
                                                  g0)))]))
                (l_words l0) Hg Hh) as Hle.
    lia.
  - intros w1 w2 d1 d2 l0 H _ _ _ _ _ _. exact H.
  - intros c l0 H. exact H.
Qed.

(** X8.  The number of living words that [GET /api/evolve] reports is the
    number of living words of the state the call leaves, and exceeds the
    number before the call by at most one. *)
Theorem api_evolve_wordCount
    (sort_random : list string -> Rand (list string)) fuel clock s g s' r g' :
  api_evolve sort_random fuel clock s g = Some (s', r, g') ->
  words s' <> None /\
  r_wordCount r = List.length (or_else (words s') []) /\
  r_wordCount r <= List.length (or_else (words s) []) + 1 /\
  r_generation r = generation s'.
Proof.
  unfold api_evolve, evolveStep.
  destruct (birth fuel (ensure s) g) as [[l1 g1]|] eqn:Eb; [|discriminate].
  pose proof (after_birth_population sort_random clock l1 g1
                (List.length (or_else (words s) []) + 1)) as Hpop.
  destruct (after_birth sort_random clock l1 g1) as [l7 g7].
  intros [= <- <- <-]. cbn [commit words or_else r_wordCount r_generation
    generation fst] in *.
  split; [discriminate|].
  unfold Obj.keys. rewrite length_map. split; [reflexivity|].
  split; [|reflexivity]. apply Hpop.
  destruct (birth_cases_generated _ _ _ _ _ Eb)
    as [-> | (concept & word & g0 & Hfree & _ & ->)].
  - cbn [ensure l_words]. lia.
  - cbn [add_birth ensure l_words] in *. rewrite set_absent by exact Hfree.
    rewrite length_app. cbn [List.length]. lia.
Qed.

Lemma api_evolve_wordCount_witness :
  exists s' r g',
    api_evolve insertion_sort_random 1 noon two_dying two_dying_tape
      = Some (s', r, g') /\
    words s' <> None /\
    r_wordCount r = List.length (or_else (words s') []) /\
    r_wordCount r <= List.length (or_else (words two_dying) []) + 1 /\
    r_generation r = generation s'.
Proof.
  destruct (api_evolve insertion_sort_random 1 noon two_dying two_dying_tape)
    as [[[s' r] g']|] eqn:E; [|vm_compute in E; discriminate].
  exists s', r, g'. split; [reflexivity|].
  exact (api_evolve_wordCount insertion_sort_random 1 noon two_dying
           two_dying_tape s' r g' E).
Defined.

(** ** Compounds *)

(** X9.  A call that starts with at most two living words never makes a
    compound, whatever the draws: [compounds] and [total_compounds] are as
    the call found them, and no [compound] event is returned. *)
Theorem few_words_no_compound
    (sort_random : list string -> Rand (list string)) fuel clock s g s' evs g' :
  List.length (or_else (words s) []) <= 2 ->
  evolveStep sort_random fuel clock s g = Some (s', evs, g') ->
  compounds s' = Some (or_else (compounds s) []) /\
  counter total_compounds s' = counter total_compounds s /\
  filter is_compound_event evs = [].
Proof.
  intros Hfew H.
  pose (P := fun l => List.length (l_words l) <= 3 /\
                      l_compounds l = or_else (compounds s) [] /\
                      l_compounds_n l = counter total_compounds s /\
                      filter is_compound_event (l_out l) = []).
  assert (Hinv : exists l7, P l7 /\ s' = commit s l7 /\ evs = l_out l7).
  2: { destruct Hinv as (l7 & (_ & Hc & Hn & Ho) & -> & ->).
       cbn [commit compounds]. rewrite Hc.
       destruct (commit_counters s l7) as (_ & _ & -> & _). auto. }
  apply (evolveStep_invariant sort_random P)
    with (fuel := fuel) (clock := clock) (g := g) (g' := g');
    [ | | | | | | | exact H ].
  - intros w d l (Hl & Hc & Hn & Ho) Hg. repeat split; try assumption.
    cbn [with_words l_words]. now rewrite (set_present_length _ _ _ _ Hg).
  - intros w d l (Hl & Hc & Hn & Ho) Hg. repeat split; try assumption.
    cbn [with_words l_words]. now rewrite (set_present_length _ _ _ _ Hg).
  - intros w d l (Hl & Hc & Hn & Ho) _ _. repeat split; try assumption.
    + cbn [kill l_words]. pose proof (delete_length_le w (l_words l)). lia.
    + cbn [kill l_out]. rewrite filter_app, Ho. reflexivity.
  - intros target data g0 l (Hl & Hc & Hn & Ho) Hg _ _ Hh.
    repeat split; try assumption.
    + cbn [rename l_words].
      match goal with
      | |- List.length (Obj.set ?k ?v _) <= _ =>
          pose proof (rename_length target k data v (l_words l) Hg Hh)
            as Hle
      end. lia.
    + cbn [rename l_out]. rewrite filter_app, Ho. reflexivity.
  - intros w1 w2 d1 d2 l (Hl & _) _ _ _ H4. lia.
  - intros c l HP. exact HP.
  - intros l1 g1 Hb.
    destruct (birth_cases_generated _ _ _ _ _ Hb)
      as [-> | (concept & word & g0 & Hfree & _ & ->)].
    + repeat split.
      * cbn [ensure l_words]. lia.
      * destruct (ensure_counters s) as (_ & _ & E & _). exact E.
    + repeat split.
      * cbn [add_birth ensure l_words] in *.
        rewrite set_absent by exact Hfree.
        rewrite length_app. cbn [List.length]. lia.
      * destruct (ensure_counters s) as (_ & _ & E & _). exact E.
Qed.

Lemma few_words_no_compound_witness :
  exists s' evs g',
    List.length (or_else (words lone_state) []) <= 2 /\
    evolveStep insertion_sort_random 1 noon lone_state newborn_first_tape
      = Some (s', evs, g') /\
    compounds s' = Some (or_else (compounds lone_state) []) /\
    counter total_compounds s' = counter total_compounds lone_state /\
    filter is_compound_event evs = [].
Proof.
  destruct (evolveStep insertion_sort_random 1 noon lone_state
                       newborn_first_tape)
    as [[[s' evs] g']|] eqn:E; [|vm_compute in E; discriminate].
  exists s', evs, g'.
  assert (Hfew : List.length (or_else (words lone_state) []) <= 2)
    by (cbn; lia).
  split; [exact Hfew | split; [reflexivity|]].
  exact (few_words_no_compound insertion_sort_random 1 noon lone_state
           newborn_first_tape s' evs g' Hfew E).
Defined.

(** ** Histories of forms *)

Lemma decay_word_history gen d : history (decay_word gen d) = history d.
Proof.
  unfold decay_word. now destruct (0 <? gen - born d)%Z.
Qed.

(** X10.  When every living word is keyed by the last form of its history,
    as the seeded words are, this is still so after a call: a sound shift
    appends the new form to the history of the word it renames, and no
    other step touches a history or a key. *)
Theorem histories_follow_keys
    (sort_random : list string -> Rand (list string)) fuel clock s g s' evs g' :
  keyed_by_last_form (or_else (words s) []) ->
  evolveStep sort_random fuel clock s g = Some (s', evs, g') ->
  keyed_by_last_form (or_else (words s') []).
Proof.
  intros Hk H.
  pose (P := fun l => keyed_by_last_form (l_words l)).
  assert (Hinv : exists l7, P l7 /\ s' = commit s l7 /\ evs = l_out l7).
  2: { destruct Hinv as (l7 & HP & -> & ->). exact HP. }
  apply (evolveStep_invariant sort_random P)
    with (fuel := fuel) (clock := clock) (g := g) (g' := g');
    [ | | | | | | | exact H ].
  - intros w d l HP Hg k d' Hin. cbn [with_words l_words] in Hin.
    apply In_set in Hin. destruct Hin as [[-> ->] | Hin]; [|now apply HP].
    apply get_In in Hg. exact (HP _ _ Hg).
  - intros w d l HP Hg k d' Hin. cbn [with_words l_words] in Hin.
    apply In_set in Hin. destruct Hin as [[-> ->] | Hin]; [|now apply HP].
    apply get_In in Hg. rewrite decay_word_history. exact (HP _ _ Hg).
  - intros w d l HP _ _ k d' Hin. cbn [kill l_words] in Hin.
    apply In_delete in Hin. now apply HP.
  - intros target data g0 l HP _ _ _ _ k d' Hin. cbn [rename l_words] in Hin.
    apply In_set in Hin. destruct Hin as [[-> ->] | Hin].
    + eexists. reflexivity.
    + apply In_delete in Hin. now apply HP.
  - intros w1 w2 d1 d2 l HP _ _ _ _ _ _. exact HP.
  - intros c l HP. exact HP.
  - intros l1 g1 Hb.
    destruct (birth_cases_generated _ _ _ _ _ Hb)
      as [-> | (concept & word & g0 & _ & _ & ->)]; [exact Hk|].
    intros k d Hin. cbn [add_birth l_words ensure] in Hin.
    apply In_set in Hin. destruct Hin as [[-> ->] | Hin]; [|now apply Hk].
    exists []. reflexivity.
Qed.

Lemma histories_follow_keys_witness :
  exists s' evs g',
    keyed_by_last_form (or_else (words nai_and_mai) []) /\
    evolveStep insertion_sort_random 1 noon nai_and_mai shift_tape
      = Some (s', evs, g') /\
    keyed_by_last_form (or_else (words s') []).
Proof.
  assert (Hk : keyed_by_last_form (or_else (words nai_and_mai) [])).
  { intros k d [[= <- <-] | []]. exists []. reflexivity. }
  destruct (evolveStep insertion_sort_random 1 noon nai_and_mai shift_tape)
    as [[[s' evs] g']|] eqn:E; [|vm_compute in E; discriminate].
  exists s', evs, g'. split; [exact Hk | split; [reflexivity|]].
  exact (histories_follow_keys insertion_sort_random 1 noon nai_and_mai
           shift_tape s' evs g' Hk E).
Defined.

(** ** Sound shifts *)

Lemma SOUND_SHIFTS_options c opts :
  Obj.get c SOUND_SHIFTS = Some opts -> opts <> [].
Proof.
  intros H. apply get_In in H. unfold SOUND_SHIFTS in H. simpl in H.
  repeat (destruct H as [[= <- <-] | H]; [discriminate|]). contradiction.
Qed.

(** X11.  On draws in [0, 1), the loop of a sound shift returns an array as
    long as the form, in which each character is either kept or replaced by
    one of the alternatives [SOUND_SHIFTS] lists for it; a character with no
    entry is always kept, and when no substitution fired the array is the
    form itself. *)
Theorem shift_chars_substitutes (chars : list string) (g : Rng) :
  valid_tape g ->
  Forall2 (fun c c' =>
             c' = c \/
             exists opts, Obj.get c SOUND_SHIFTS = Some opts /\ In c' opts)
          chars (fst (fst (shift_chars chars g))) /\
  (snd (fst (shift_chars chars g)) = false ->
   fst (fst (shift_chars chars g)) = chars).
Proof.
  revert g. induction chars as [|c rest IH]; intros g Hv.
  - cbn. split; [constructor | reflexivity].
  - cbn [shift_chars].
    destruct (Obj.get c SOUND_SHIFTS) as [opts|] eqn:Ec.
    + unfold random_index. unfold bind, Math_random, ret. cbv beta iota.
      assert (V1 : valid_tape (mkRng (tape g) (S (cursor g))))
        by (intros k; apply Hv).
      destruct (Qltb (tape g (cursor g)) lit_0_15).
      * assert (V2 : valid_tape (mkRng (tape g) (S (S (cursor g)))))
          by (intros k; apply Hv).
        destruct (IH _ V2) as [IH1 _]. cbn [tape cursor] in *.
        destruct (shift_chars rest (mkRng (tape g) (S (S (cursor g)))))
          as [r g3].
        cbn [fst snd] in *. split; [|intros Hs; discriminate Hs].
        constructor; [|exact IH1]. right. exists opts. split; [exact Ec|].
        apply (index_In opts (tape g (S (cursor g))));
          [apply Hv | eapply SOUND_SHIFTS_options, Ec].
      * destruct (IH _ V1) as [IH1 IH2].
        destruct (shift_chars rest (mkRng (tape g) (S (cursor g))))
          as [r g3].
        cbn [fst snd] in *.
        split; [constructor; [now left | exact IH1]|].
        intros Hs. now rewrite IH2.
    + unfold bind, ret. destruct (IH g Hv) as [IH1 IH2].
      destruct (shift_chars rest g) as [r g3]. cbn [fst snd] in *.
      split; [constructor; [now left | exact IH1]|].
      intros Hs. now rewrite IH2.
Qed.

Lemma shift_chars_substitutes_witness :
  valid_tape cycling_tape /\
  Forall2 (fun c c' =>
             c' = c \/
             exists opts, Obj.get c SOUND_SHIFTS = Some opts /\ In c' opts)
          (JS.split_chars "kanti")
          (fst (fst (shift_chars (JS.split_chars "kanti") cycling_tape))) /\
  (snd (fst (shift_chars (JS.split_chars "kanti") cycling_tape)) = false ->
   fst (fst (shift_chars (JS.split_chars "kanti") cycling_tape))
   = JS.split_chars "kanti").
Proof.
  split; [exact cycling_tape_valid|].
  exact (shift_chars_substitutes (JS.split_chars "kanti") cycling_tape
           cycling_tape_valid).
Defined.

(** ** No living word is keyed by the empty string *)

Lemma vowel_facts v :
  is_vowel v = true ->
  Obj.get v SOUND_SHIFTS = None /\ JS.split_chars v = [v].
Proof.
  unfold is_vowel. rewrite existsb_eqb_In. unfold VOWELS. simpl.
  intros H. repeat (destruct H as [<- | H]; [split; reflexivity|]).
  contradiction.
Qed.

Lemma has_vowel_app_l a b : has_vowel a = true -> has_vowel (a ++ b) = true.
Proof.
  unfold has_vowel. rewrite split_chars_app, existsb_app. now intros ->.
Qed.

Lemma has_vowel_app_r a b : has_vowel b = true -> has_vowel (a ++ b) = true.
Proof.
  unfold has_vowel. rewrite split_chars_app, existsb_app. intros ->.
  apply orb_true_r.
Qed.

Lemma has_vowel_nonempty k : has_vowel k = true -> k <> "".
Proof. intros H ->. discriminate. Qed.

Lemma vowel_has_vowel v : is_vowel v = true -> has_vowel v = true.
Proof.
  intros H. unfold has_vowel. destruct (vowel_facts v H) as [_ ->].
  simpl. now rewrite H.
Qed.

(** A sound shift keeps the vowels of a form where they are. *)
Lemma shift_chars_has_vowel chars g :
  existsb is_vowel chars = true ->
  has_vowel (JS.join (fst (fst (shift_chars chars g)))) = true.
Proof.
  revert g. induction chars as [|c rest IH]; intros g; [discriminate|].
  cbn [existsb shift_chars]. intros H.
  destruct (is_vowel c) eqn:Ev.
  - destruct (vowel_facts c Ev) as [-> _]. unfold bind, ret.
    destruct (shift_chars rest g) as [r g1]. cbn [fst JS.join fold_right].
    apply has_vowel_app_l. now apply vowel_has_vowel.
  - cbn [orb] in H.
    assert (Hrest : forall g0 x,
      has_vowel (JS.join (x :: fst (fst (shift_chars rest g0)))) = true).
    { intros g0 x. cbn [JS.join fold_right]. apply has_vowel_app_r.
      now apply IH. }
    destruct (Obj.get c SOUND_SHIFTS) as [opts|].
    + unfold random_index. unfold bind, Math_random, ret. cbv beta iota.
      destruct (Qltb (tape g (cursor g)) lit_0_15).
      * match goal with
        | |- context [shift_chars rest ?g2] =>
            pose proof (fun x => Hrest g2 x) as Hr;
            destruct (shift_chars rest g2) as [r g3]
        end. cbn [fst] in *. apply Hr.
      * match goal with
        | |- context [shift_chars rest ?g2] =>
            pose proof (fun x => Hrest g2 x) as Hr;
            destruct (shift_chars rest g2) as [r g3]
        end. cbn [fst] in *. apply Hr.
    + unfold bind, ret. pose proof (fun x => Hrest g x) as Hr.
      destruct (shift_chars rest g) as [r g3]. cbn [fst] in *. apply Hr.
Qed.

Lemma genSyllable_has_vowel g : has_vowel (fst (genSyllable g)) = true.
Proof.
  destruct (genSyllable_shape g) as (onset & nucleus & coda & Hv & ->).
  apply has_vowel_app_r, has_vowel_app_l, vowel_has_vowel.
  unfold is_vowel. now apply existsb_eqb_In.
Qed.

Lemma genWord_has_vowel g : has_vowel (fst (genWord g)) = true.
Proof.
  unfold genWord, bind.
  destruct (random_index 3 g) as [i g1].
  destruct (Math_random g1) as [x g2].
  pose proof (syllable_count_pos [15; 50; 35]%Z
                (B64.round (x * inject_Z 100)) 0 0) as Hn.
  destruct (syllable_count [15; 50; 35]%Z
              (B64.round (x * inject_Z 100)) 0 0) as [|n];
    [lia|].
  cbn [genSyllables]. unfold bind.
  pose proof (genSyllable_has_vowel g2) as Hs.
  destruct (genSyllable g2) as [s g3].
  destruct (genSyllables n g3) as [rest g4].
  cbn [ret fst JS.join fold_right] in *. now apply has_vowel_app_l.
Qed.

Lemma seed_words_vowel unique ws g :
  (forall k, In k (Obj.keys ws) -> has_vowel k = true) ->
  forall k, In k (Obj.keys (fst (seed_words unique ws g))) ->
            has_vowel k = true.
Proof.
  revert ws g. induction unique as [|c rest IH]; intros ws g Hws;
    cbn [seed_words].
  - exact Hws.
  - unfold bind. pose proof (genWord_has_vowel g) as Hw.
    destruct (genWord g) as [word g1]. cbn [fst] in Hw.
    apply IH. intros k Hk. apply In_keys_set in Hk.
    destruct Hk as [-> | Hk]; [exact Hw | now apply Hws].
Qed.

(** X12.  Every form that keys a living word holds a vowel, and so is
    never the empty string: this is so of the words seeded at start-up, and
    a call keeps it so, since a born form is built around vowels and a sound
    shift alters consonants only. *)
Theorem living_forms_hold_a_vowel
    (sort_random : list string -> Rand (list string)) :
  (forall g s, fst (startup None g) = Some s ->
     forall k, In k (Obj.keys (or_else (words s) [])) ->
               has_vowel k = true /\ k <> "") /\
  (forall fuel clock s g s' evs g',
     (forall k, In k (Obj.keys (or_else (words s) [])) ->
                has_vowel k = true) ->
     evolveStep sort_random fuel clock s g = Some (s', evs, g') ->
     forall k, In k (Obj.keys (or_else (words s') [])) ->
               has_vowel k = true /\ k <> "").
Proof.
  split.
  - intros g s. rewrite startup_fresh.
    pose proof (seed_words_vowel (fst (seed_concepts g)) []
                  (snd (seed_concepts g))) as Hseed.
    destruct (seed_concepts g) as [unique g1]. cbn [fst snd] in Hseed.
    destruct (seed_words unique [] g1) as [ws g2]. cbn [fst] in *.
    intros [= <-] k Hk. cbn [words or_else] in Hk.
    assert (Hv : has_vowel k = true)
      by (apply Hseed; [intros k0 [] | exact Hk]).
    split; [exact Hv | now apply has_vowel_nonempty].
  - intros fuel clock s g s' evs g' Hs H.
    pose (P := fun l => forall k, In k (Obj.keys (l_words l)) ->
                                  has_vowel k = true).
    assert (Hinv : exists l7, P l7 /\ s' = commit s l7 /\ evs = l_out l7).
    2: { destruct Hinv as (l7 & HP & -> & ->). intros k Hk.
         cbn [commit words or_else] in Hk.
         split; [now apply HP | apply has_vowel_nonempty; now apply HP]. }
    apply (evolveStep_invariant sort_random P)
      with (fuel := fuel) (clock := clock) (g := g) (g' := g');
      [ | | | | | | | exact H ].
    + intros w d l HP Hg k Hk. cbn [with_words l_words] in Hk.
      apply In_keys_set in Hk. destruct Hk as [-> | Hk]; [|now apply HP].
      apply HP. apply get_In in Hg. change w with (fst (w, d)).
      now apply in_map.
    + intros w d l HP Hg k Hk. cbn [with_words l_words] in Hk.
      apply In_keys_set in Hk. destruct Hk as [-> | Hk]; [|now apply HP].
      apply HP. apply get_In in Hg. change w with (fst (w, d)).
      now apply in_map.
    + intros w d l HP _ _ k Hk. cbn [kill l_words] in Hk.
      apply In_keys_delete in Hk. now apply HP.
    + intros target data g0 l HP Hg _ _ _ k Hk. cbn [rename l_words] in Hk.
      apply In_keys_set in Hk. destruct Hk as [-> | Hk].
      * apply shift_chars_has_vowel.
        assert (Ht : has_vowel target = true).
        { apply HP. apply get_In in Hg. change target with (fst (target, data)).
          now apply in_map. }
        exact Ht.
      * apply In_keys_delete in Hk. now apply HP.
    + intros w1 w2 d1 d2 l HP _ _ _ _ _ _. exact HP.
    + intros c l HP. exact HP.
    + intros l1 g1 Hb.
      destruct (birth_cases_generated _ _ _ _ _ Hb)
        as [-> | (concept & word & g0 & _ & -> & ->)]; [exact Hs|].
      intros k Hk. cbn [add_birth l_words ensure] in Hk.
      apply In_keys_set in Hk. destruct Hk as [-> | Hk]; [|now apply Hs].
      apply genWord_has_vowel.
Qed.

Lemma living_forms_hold_a_vowel_witness :
  exists s' evs g',
    (forall k, In k (Obj.keys (or_else (words nai_and_mai) [])) ->
               has_vowel k = true) /\
    evolveStep insertion_sort_random 1 noon nai_and_mai shift_tape
      = Some (s', evs, g') /\
    forall k, In k (Obj.keys (or_else (words s') [])) ->
              has_vowel k = true /\ k <> "".
Proof.
  assert (Hs : forall k, In k (Obj.keys (or_else (words nai_and_mai) [])) ->
                         has_vowel k = true).
  { intros k [<- | []]. reflexivity. }
  destruct (evolveStep insertion_sort_random 1 noon nai_and_mai shift_tape)
    as [[[s' evs] g']|] eqn:E; [|vm_compute in E; discriminate].
  exists s', evs, g'. split; [exact Hs | split; [reflexivity|]].
  exact (proj2 (living_forms_hold_a_vowel insertion_sort_random)
           1 noon nai_and_mai shift_tape s' evs g' Hs E).
Defined.

(** ** Compounds and the event log are only appended to *)

Lemma before_compounding
    (sort_random : list string -> Rand (list string)) fuel clock s g s' evs g' :
  evolveStep sort_random fuel clock s g = Some (s', evs, g') ->
  exists l5 g5,
    untouched_by_words s l5 /\
    s' = commit s (store_events clock (fst (compounding l5 g5))) /\
    evs = l_out (fst (compounding l5 g5)).
Proof.
  unfold evolveStep.
  destruct (birth fuel (ensure s) g) as [[l1 g1]|] eqn:Eb; [|discriminate].
  rewrite after_birth_unfold.
  assert (H1 : untouched_by_words s l1).
  { destruct (birth_cases_generated _ _ _ _ _ Eb)
      as [-> | (concept & word & g0 & _ & _ & ->)];
      unfold untouched_by_words; cbn [add_birth ensure l_generation
        l_compounds l_events l_compounds_n l_out filter app
        is_compound_event];
      destruct (ensure_counters s) as (_ & _ & E & _);
      cbn [ensure l_compounds_n] in E; auto. }
  pose proof (usage_invariant sort_random (untouched_by_words s)) as Hu.
  pose proof (decay_invariant (untouched_by_words s)) as Hd.
  pose proof (extinction_invariant (untouched_by_words s)) as Hx.
  pose proof (sound_shift_invariant (untouched_by_words s)) as Hs.
  assert (Cw : forall ws l, untouched_by_words s l ->
                            untouched_by_words s (with_words ws l))
    by (intros ws l H; exact H).
  specialize (Hu (fun w d l H _ => Cw _ l H) l1 g1 H1).
  destruct (usage sort_random l1 g1) as [l2 g2]. cbn [fst] in Hu.
  specialize (Hd (fun w d l H _ => Cw _ l H) l2 Hu).
  assert (Ck : forall w d l, untouched_by_words s l ->
                 Obj.get w (l_words l) = Some d -> is_dead d = true ->
                 untouched_by_words s (kill w d l)).
  { intros w d l (A & B & C & D & E) _ _. unfold untouched_by_words.
    cbn [kill l_generation l_compounds l_events l_compounds_n l_out].
    rewrite filter_app, E. auto. }
  specialize (Hx Ck (decay l2) Hd).
  assert (Cr : forall target data g0 l,
    untouched_by_words s l ->
    Obj.get target (l_words l) = Some data ->
    snd (fst (shift_chars (JS.split_chars target) g0)) = true ->
    JS.join (fst (fst (shift_chars (JS.split_chars target) g0))) <> target ->
    Obj.has (JS.join (fst (fst (shift_chars (JS.split_chars target) g0))))
            (l_words l) = false ->
    untouched_by_words s
      (rename target
         (JS.join (fst (fst (shift_chars (JS.split_chars target) g0))))
         data l)).
  { intros target data g0 l (A & B & C & D & E) _ _ _ _.
    unfold untouched_by_words.
    cbn [rename l_generation l_compounds l_events l_compounds_n l_out].
    rewrite filter_app, E. auto. }
  specialize (Hs Cr (extinction (decay l2)) g2 Hx).
  destruct (sound_shift (extinction (decay l2)) g2) as [l5 g5].
  cbn [fst] in Hs.
  destruct (compounding l5 g5) as [l6 g6] eqn:E6.
  intros [= <- <- <-]. exists l5, g5. rewrite E6. auto.
Qed.

Lemma compounding_cases l g :
  fst (compounding l g) = l \/
  exists w1 w2 d1 d2,
    Obj.get w1 (l_words l) = Some d1 /\ Obj.get w2 (l_words l) = Some d2 /\
    w1 <> w2 /\ 4 <= List.length (l_words l) /\
    Obj.has (compound_form w1 w2) (l_words l) = false /\
    Obj.has (compound_form w1 w2) (l_compounds l) = false /\
    fst (compounding l g)
    = add_compound w1 w2 (compound_form w1 w2) (meaning d1) (meaning d2) l.
Proof.
  unfold compounding, bind. destruct (Math_random g) as [x g1].
  destruct (Qltb x lit_0_15) eqn:Ex; cbn [andb]; [|now left].
  destruct (Nat.leb_spec 4 (List.length (Obj.keys (l_words l))))
    as [H4 | _]; [|now left].
  destruct (random_index _ g1) as [i g2].
  destruct (random_index _ g2) as [j g3].
  set (w1 := JS.index (Obj.keys (l_words l)) i).
  set (w2 := JS.index (Obj.keys (l_words l)) j).
  destruct (String.eqb_spec w1 w2) as [E | Hne]; cbn [negb]; [now left|].
  destruct (Obj.get w1 (l_words l)) as [d1|] eqn:E1; [|now left].
  destruct (Obj.get w2 (l_words l)) as [d2|] eqn:E2; [|now left].
  destruct (Obj.has (compound_form w1 w2) (l_words l)) eqn:Hw;
    cbn [negb andb]; [now left|].
  destruct (Obj.has (compound_form w1 w2) (l_compounds l)) eqn:Hc;
    cbn [negb]; [now left|].
  right. exists w1, w2, d1, d2. unfold ret. cbn [fst].
  unfold Obj.keys in H4. rewrite length_map in H4. repeat split; auto.
Qed.



Lemma stamp_length clock i es :
  List.length (stamp clock i es) = List.length es.
Proof.
  rewrite <- (stamp_ev clock i es) at 2. now rewrite length_map.
Qed.

Lemma evolveStep_log
    (sort_random : list string -> Rand (list string)) fuel clock s g s' evs g' :
  evolveStep sort_random fuel clock s g = Some (s', evs, g') ->
  events s'
  = Some (JS.slice_last 200 (or_else (events s) [] ++ stamp clock 0 evs)).
Proof.
  intros H.
  destruct (before_compounding _ _ _ _ _ _ _ _ H)
    as (l5 & g5 & (_ & _ & He & _ & _) & -> & ->).
  assert (He6 : l_events (fst (compounding l5 g5)) = l_events l5).
  { destruct (compounding_cases l5 g5)
      as [-> | (w1 & w2 & d1 & d2 & _ & _ & _ & _ & _ & _ & ->)];
      reflexivity. }
  cbn [commit store_events events l_events l_out].
  now rewrite He6, He, ring_is_slice.
Qed.

(** X14.  The events a call returns are archived in their order at the
    end of the event log, each with its time stamp, and the log is then cut
    to its last 200 entries; when the old log and the new events fit in
    200, nothing is lost. *)
Theorem events_archived_in_order
    (sort_random : list string -> Rand (list string)) fuel clock s g s' evs g' :
  evolveStep sort_random fuel clock s g = Some (s', evs, g') ->
  let old := or_else (events s) [] in
  events s' = Some (JS.slice_last 200 (old ++ stamp clock 0 evs)) /\
  map ev (stamp clock 0 evs) = evs /\
  (List.length old + List.length evs <= 200 ->
   events s' = Some (old ++ stamp clock 0 evs)).
Proof.
  intros H. cbv zeta. rewrite (evolveStep_log _ _ _ _ _ _ _ _ H).
  split; [reflexivity | split; [apply stamp_ev|]].
  intros Hfit. unfold JS.slice_last.
  rewrite length_app, stamp_length.
  replace (_ - 200) with 0 by lia. reflexivity.
Qed.

Lemma events_archived_in_order_witness :
  exists s' evs g',
    evolveStep insertion_sort_random 1 noon two_dying two_dying_tape
    = Some (s', evs, g') /\
    let old := or_else (events two_dying) [] in
    events s' = Some (JS.slice_last 200 (old ++ stamp noon 0 evs)) /\
    map ev (stamp noon 0 evs) = evs /\
    (List.length old + List.length evs <= 200 ->
     events s' = Some (old ++ stamp noon 0 evs)).
Proof.
  destruct (evolveStep insertion_sort_random 1 noon two_dying two_dying_tape)
    as [[[s' evs] g']|] eqn:E; [|vm_compute in E; discriminate].
  exists s', evs, g'. split; [reflexivity|].
  exact (events_archived_in_order insertion_sort_random 1 noon two_dying
           two_dying_tape s' evs g' E).
Defined.

(** ** Sentences *)

Lemma reads_forward_any_word ws : reads_forward (any_word ws).
Proof. unfold any_word. reads_forward_tac. Qed.

#[local] Hint Resolve reads_forward_any_word : reads_forward.

Lemma reads_forward_sentence_turn ws q : reads_forward (sentence_turn ws q).
Proof.
  unfold sentence_turn. destruct q as [|cat rest]; [reads_forward_tac|].
  apply reads_forward_bind; [apply reads_forward_random | intros x].
  destruct (Qltb lit_0_3 x); [|reads_forward_tac].
  destruct (0 <? _)%nat; reads_forward_tac.
Qed.

Lemma any_word_living ws g :
  valid_tape g -> Obj.wf ws -> ws <> [] ->
  exists w d, fst (any_word ws g) = Some (w, d) /\ In (w, d) ws.
Proof.
  intros Hv Hwf Hne. unfold any_word. unfold bind. unfold random_index.
  unfold bind, Math_random, ret. cbn [fst].
  assert (Hk : Obj.keys ws <> [])
    by (destruct ws; [congruence | discriminate]).
  pose proof (index_In (Obj.keys ws) _ (valid_next g Hv) Hk) as Hin.
  set (w := JS.index (Obj.keys ws) _) in *.
  destruct (Obj.get w ws) as [d|] eqn:Eg.
  - exists w, d. split; [reflexivity | now apply get_In].
  - apply get_None_keys in Eg. contradiction.
Qed.

(** One turn pushes a living word and leaves the queue or its tail. *)
Lemma sentence_turn_living ws q g :
  valid_tape g -> Obj.wf ws -> ws <> [] ->
  exists w d,
    fst (fst (sentence_turn ws q g)) = Some (w, d) /\ In (w, d) ws.
Proof.
  intros Hv Hwf Hne. unfold sentence_turn.
  assert (Hany : forall (q' : list string) g0, valid_tape g0 ->
    exists w d,
      fst (fst (bind (any_word ws) (fun p => ret (p, q')) g0))
      = Some (w, d) /\
      In (w, d) ws).
  { intros q' g0 V0. unfold bind.
    destruct (any_word_living ws g0 V0 Hwf Hne) as (w & d & E & Hin).
    destruct (any_word ws g0) as [p g1]. cbn [fst] in *.
    exists w, d. now rewrite E. }
  destruct q as [|cat rest]; [now apply Hany|].
  unfold bind at 1. destruct (Math_random g) as [x g1] eqn:E1.
  assert (V1 : valid_tape g1).
  { change g1 with (snd (x, g1)). rewrite <- E1.
    apply valid_after; auto with reads_forward. }
  destruct (Qltb lit_0_3 x); [|now apply Hany].
  set (candidates := filter _ ws).
  destruct (Nat.ltb_spec 0 (List.length candidates)) as [Hpos | _];
    [|now apply Hany].
  unfold bind. unfold random_index. unfold bind, Math_random, ret.
  cbn [fst].
  assert (Hi : floor_mul (tape g1 (cursor g1)) (List.length candidates)
               < List.length candidates).
  { now apply floor_mul_lt. }
  destruct (nth_error candidates _) as [[w d]|] eqn:En.
  - exists w, d. split; [reflexivity|].
    apply nth_error_In in En. apply filter_In in En. tauto.
  - apply nth_error_None in En. lia.
Qed.

Lemma sentence_loop_living len ws q g :
  valid_tape g -> Obj.wf ws -> ws <> [] ->
  exists picked,
    all_some (fst (sentence_loop len ws q g)) = Some picked /\
    List.length picked = len /\
    Forall (fun e => In e ws) picked.
Proof.
  intros Hv Hwf Hne. revert q g Hv.
  induction len as [|len IH]; intros q g Hv.
  - exists []. cbn. repeat split. constructor.
  - cbn [sentence_loop]. unfold bind.
    destruct (sentence_turn_living ws q g Hv Hwf Hne) as (w & d & E & Hin).
    pose proof (valid_after _ g (reads_forward_sentence_turn ws q) Hv) as V1.
    destruct (sentence_turn ws q g) as [t g1]. cbn [fst snd] in *.
    destruct (IH (snd t) g1 V1) as (picked & Ea & Hl & Hf).
    destruct (sentence_loop len ws (snd t) g1) as [rest g2].
    cbn [fst ret all_some] in *. rewrite E, Ea.
    exists ((w, d) :: picked). split; [reflexivity|].
    split; [simpl; now rewrite Hl | now constructor].
Qed.

(** X15.  With a lexicon that is not empty and draws in [0, 1),
    [generateSentence] does not throw and returns three to seven words;
    each word it lists is a living word with its own meaning and category,
    and [text] and [gloss] are the forms and the meanings of the list,
    joined by spaces. *)
Theorem generateSentence_living (s : State) (ws : Obj.t Word) (g : Rng) :
  valid_tape g -> words s = Some ws -> Obj.wf ws -> ws <> [] ->
  exists sent,
    fst (generateSentence s g) = Some sent /\
    3 <= List.length (sent_words sent) <= 7 /\
    (forall w m c, In (w, m, c) (sent_words sent) ->
       exists d, In (w, d) ws /\ meaning d = m /\ category d = c) /\
    text sent = JS.join_sp (map (fun t => fst (fst t)) (sent_words sent)) /\
    gloss sent = JS.join_sp (map (fun t => snd (fst t)) (sent_words sent)).
Proof.
  intros Hv Hw Hwf Hne. unfold generateSentence. rewrite Hw.
  assert (Hk : (List.length (Obj.keys ws) =? 0)%nat = false).
  { apply Nat.eqb_neq. destruct ws; [congruence | discriminate]. }
  rewrite Hk. unfold bind. unfold random_index.
  unfold bind, Math_random, ret. cbv beta iota.
  assert (Hn : floor_mul (tape g (cursor g)) 5 < 5).
  { apply floor_mul_lt; [apply Hv | lia]. }
  set (n := floor_mul (tape g (cursor g)) 5) in *.
  assert (V1 : valid_tape (mkRng (tape g) (S (cursor g))))
    by (intros k; apply Hv).
  destruct (sentence_loop_living (3 + n) ws catOrder_init _ V1 Hwf Hne)
    as (picked & Ea & Hl & Hf).
  destruct (sentence_loop (3 + n) ws catOrder_init _) as [sentWords g2].
  cbn [fst] in *. rewrite Ea. cbn [option_map].
  exists (render picked). split; [reflexivity|].
  unfold render. cbn [sent_words text gloss]. rewrite length_map, Hl.
  split; [lia|]. split.
  - intros w m c Hin. apply in_map_iff in Hin.
    destruct Hin as [[w0 d] [[= <- <- <-] Hin]].
    exists d. rewrite Forall_forall in Hf. auto.
  - rewrite !map_map. split; reflexivity.
Qed.

Lemma generateSentence_living_witness :
  exists sent,
    valid_tape cycling_tape /\
    fst (generateSentence two_dying cycling_tape) = Some sent /\
    3 <= List.length (sent_words sent) <= 7 /\
    (forall w m c, In (w, m, c) (sent_words sent) ->
       exists d, In (w, d) (or_else (words two_dying) []) /\
                 meaning d = m /\ category d = c) /\
    text sent = JS.join_sp (map (fun t => fst (fst t)) (sent_words sent)) /\
    gloss sent = JS.join_sp (map (fun t => snd (fst t)) (sent_words sent)).
Proof.
  assert (Hwf : Obj.wf (or_else (words two_dying) [])).
  { unfold Obj.wf. cbn. repeat constructor; cbn; intuition discriminate. }
  destruct (generateSentence_living two_dying (or_else (words two_dying) [])
              cycling_tape cycling_tape_valid eq_refl Hwf)
    as (sent & H); [discriminate|].
  exists sent. split; [exact cycling_tape_valid | exact H].
Defined.

(** X16.  A turn of [generateSentence] that takes the preference branch
    while some living word has the front category picks a word of that
    category, among those words the one at index [Math.floor(r * n)] for
    the next draw [r] (the product being rounded as binary64 rounds it),
    and removes the category from the queue; a turn that does not take the
    branch leaves the queue as it is. *)
Theorem preference_hit (ws : Obj.t Word) (cat : string) (rest : list string)
    (g : Rng) :
  valid_tape g ->
  let candidates :=
    filter (fun e => String.eqb (category (snd e)) cat) ws in
  (Qltb lit_0_3 (tape g (cursor g)) = true -> candidates <> [] ->
   exists w d,
     sentence_turn ws (cat :: rest) g
     = ((Some (w, d), rest), mkRng (tape g) (S (S (cursor g)))) /\
     nth_error candidates
       (floor_mul (tape g (S (cursor g))) (List.length candidates))
     = Some (w, d) /\
     In (w, d) ws /\ category d = cat) /\
  (Qltb lit_0_3 (tape g (cursor g)) = false ->
   snd (fst (sentence_turn ws (cat :: rest) g)) = cat :: rest).
Proof.
  intros Hv candidates. split.
  - intros Hb Hne.
    unfold sentence_turn, bind, Math_random. rewrite Hb. fold candidates.
    assert (Hpos : 0 < List.length candidates)
      by (destruct candidates; [congruence | simpl; lia]).
    destruct (Nat.ltb_spec 0 (List.length candidates)) as [_ | H]; [|lia].
    unfold random_index. unfold bind, Math_random, ret. cbn [tape cursor].
    assert (Hi : floor_mul (tape g (S (cursor g))) (List.length candidates)
                 < List.length candidates).
    { now apply floor_mul_lt. }
    destruct (nth_error candidates _) as [[w d]|] eqn:En.
    + exists w, d. split; [reflexivity | split; [reflexivity|]].
      apply nth_error_In in En. apply filter_In in En.
      destruct En as [Hin Hc]. split; [exact Hin|].
      now apply String.eqb_eq in Hc.
    + apply nth_error_None in En. lia.
  - intros Hb. unfold sentence_turn, bind, Math_random. rewrite Hb.
    destruct (any_word ws _) as [p g1]. reflexivity.
Qed.

Lemma preference_hit_witness :
  valid_tape third_tape /\
  exists w d,
    (w, d) = ("ka", mkWord "fire" "natural" 0 1 1.0%float ["ka"]) /\
    sentence_turn three_natural_words ("natural" :: ["being"]) third_tape
    = ((Some (w, d), ["being"]),
       mkRng (tape third_tape) (S (S (cursor third_tape)))) /\
    nth_error three_natural_words
      (floor_mul (tape third_tape (S (cursor third_tape))) 3)
    = Some (w, d) /\
    In (w, d) three_natural_words /\ category d = "natural".
Proof.
  assert (Hv : valid_tape third_tape) by valid_tape_of.
  split; [exact Hv|].
  assert (Hb : Qltb lit_0_3 (tape third_tape (cursor third_tape)) = true)
    by (vm_compute; reflexivity).
  assert (Hc : filter (fun e => String.eqb (category (snd e)) "natural")
                      three_natural_words <> []) by discriminate.
  destruct (proj1 (preference_hit three_natural_words "natural" ["being"]
                     third_tape Hv) Hb Hc)
    as (w & d & E & En & Hin & Hcat).
  exists w, d.
  split; [|split; [exact E | split; [exact En | split; [exact Hin
                                                       | exact Hcat]]]].
  assert (E1 : fst (fst (sentence_turn three_natural_words
                           ("natural" :: ["being"]) third_tape))
               = Some ("ka", mkWord "fire" "natural" 0 1 1.0%float ["ka"]))
    by (vm_compute; reflexivity).
  rewrite E in E1. cbn [fst] in E1. congruence.
Defined.

(** ** The synchronizer and the timer *)

Lemma longer_longer {A : Type} (remote : option (list A)) (ours : list A) :
  longer remote (longer remote ours) = longer remote ours.
Proof.
  unfold longer. destruct remote as [r|]; [|reflexivity].
  destruct (Nat.ltb_spec (List.length ours) (List.length r)) as [H | H].
  - now rewrite Nat.ltb_irrefl.
  - destruct (Nat.ltb_spec (List.length ours) (List.length r)); [lia|].
    reflexivity.
Qed.

Lemma merge_set_connected now piState b state :
  merge now piState (set_connected b state) = merge now piState state.
Proof. reflexivity. Qed.

Lemma merge_merge now1 now2 piState state :
  merge now2 piState (merge now1 piState state) = merge now2 piState state.
Proof.
  unfold merge.
  cbn [events extinct sound_shifts stats or_else].
  rewrite !longer_longer.
  destruct (stats piState); reflexivity.
Qed.

(** X17.  Synchronizing is idempotent: a second answer with the same
    remote snapshot leaves the state the first one left, but for the time
    of the sync; and neither the connection flag nor the time of an earlier
    sync has any influence on the merge. *)
Theorem sync_idempotent (now1 now2 : string) (piState state : State) :
  fst (syncFromPi (FetchBody (Some piState)) now2
         (fst (syncFromPi (FetchBody (Some piState)) now1 state)))
  = fst (syncFromPi (FetchBody (Some piState)) now2 state) /\
  (forall b,
     fst (syncFromPi (FetchBody (Some piState)) now2 (set_connected b state))
     = fst (syncFromPi (FetchBody (Some piState)) now2 state)).
Proof.
  split.
  - cbn [syncFromPi]. destruct (words piState); cbn [fst].
    + now rewrite merge_merge.
    + now rewrite merge_set_connected, merge_merge.
  - intros b. cbn [syncFromPi]. now rewrite merge_set_connected.
Qed.

(** X18.  What [syncFromPi] returns and how it gates the timer.  It
    returns true exactly when the answer was ok and its body holds
    [words]; the state is then marked connected, stamped with the time, and
    the timer's callback does nothing.  After any other outcome but an
    answer that is not ok, the state is marked disconnected and the
    callback runs one [evolveStep].  An answer that is not ok changes
    nothing, the flag included: a state that was connected stays so, and
    the callback keeps doing nothing. *)
Theorem timer_gated_by_sync
    (sort_random : list string -> Rand (list string)) fuel clock
    (fetch : Fetch) (now : string) (state : State) (g : Rng) :
  let s1 := fst (syncFromPi fetch now state) in
  let connected := snd (syncFromPi fetch now state) in
  (connected = true <->
   exists piState ws,
     fetch = FetchBody (Some piState) /\ words piState = Some ws) /\
  (connected = true ->
   piConnected s1 = Some true /\ lastPiSync s1 = Some now /\
   auto_evolve sort_random fuel clock s1 g = Some (s1, [], g)) /\
  (connected = false -> fetch <> FetchNotOk ->
   piConnected s1 = Some false /\
   auto_evolve sort_random fuel clock s1 g
   = evolveStep sort_random fuel clock s1 g) /\
  (fetch = FetchNotOk ->
   s1 = state /\
   (piConnected state = Some true ->
    auto_evolve sort_random fuel clock s1 g = Some (state, [], g))).
Proof.
  cbv zeta. split; [|split; [|split]].
  - split.
    + destruct fetch as [| |[piState|]]; cbn [syncFromPi snd];
        try discriminate.
      destruct (words piState) as [ws|] eqn:Ew; [|discriminate].
      intros _. now exists piState, ws.
    + intros (piState & ws & -> & Ew). cbn [syncFromPi]. now rewrite Ew.
  - destruct fetch as [| |[piState|]]; cbn [syncFromPi snd fst];
      try discriminate.
    destruct (words piState); [|discriminate].
    intros _. cbn [fst]. unfold auto_evolve.
    cbn [merge piConnected lastPiSync]. auto.
  - intros Hc Hf.
    destruct fetch as [| |[piState|]]; cbn [syncFromPi snd fst] in *;
      try congruence; try (split; reflexivity).
    destruct (words piState); [discriminate|]. split; reflexivity.
  - intros ->. cbn [syncFromPi fst]. split; [reflexivity|].
    intros Hp. unfold auto_evolve. now rewrite Hp.
Qed.

(** ** The history endpoint *)

Lemma slice_last_slice_last {A : Type} (n m : nat) (l : list A) :
  n <= m -> JS.slice_last n (JS.slice_last m l) = JS.slice_last n l.
Proof.
  intros Hnm. unfold JS.slice_last.
  rewrite length_skipn, skipn_skipn. f_equal. lia.
Qed.

Lemma slice_last_app_fit {A : Type} (n : nat) (a b : list A) :
  List.length b <= n ->
  exists older, JS.slice_last n (a ++ b) = older ++ b.
Proof.
  intros Hb. unfold JS.slice_last. rewrite length_app.
  exists (skipn (List.length a + List.length b - n) a).
  rewrite skipn_app.
  replace (List.length a + List.length b - n - List.length a) with 0 by lia.
  reflexivity.
Qed.

(** X19.  [GET /api/history] after a call of [evolveStep]: its events are
    the last 100 of the old log followed by the stamped events of the call,
    so the events of the call close the list when there are at most 100 of
    them; it shows at most 100 events, 20 extinct records and 20 shift
    records, each list being the end of the one in the state, and every
    compound. *)
Theorem history_after_step
    (sort_random : list string -> Rand (list string)) fuel clock s g s' evs g' :
  evolveStep sort_random fuel clock s g = Some (s', evs, g') ->
  let h := api_history s' in
  h_events h
  = JS.slice_last 100 (or_else (events s) [] ++ stamp clock 0 evs) /\
  (List.length evs <= 100 ->
   exists older, h_events h = older ++ stamp clock 0 evs) /\
  List.length (h_events h) <= 100 /\
  List.length (h_extinct h) <= 20 /\
  List.length (h_sound_shifts h) <= 20 /\
  (exists older, or_else (extinct s') [] = older ++ h_extinct h) /\
  (exists older, or_else (sound_shifts s') [] = older ++ h_sound_shifts h) /\
  h_compounds h = or_else (compounds s') [].
Proof.
  intros H. cbv zeta. unfold api_history.
  cbn [h_events h_extinct h_sound_shifts h_compounds].
  rewrite (evolveStep_log _ _ _ _ _ _ _ _ H). cbn [or_else].
  rewrite slice_last_slice_last by lia.
  split; [reflexivity|]. split.
  { intros Hle. apply slice_last_app_fit. now rewrite stamp_length. }
  split; [apply slice_last_length|].
  split; [apply slice_last_length|].
  split; [apply slice_last_length|].
  split; [|split; [|reflexivity]].
  - eexists. unfold JS.slice_last. symmetry. apply firstn_skipn.
  - eexists. unfold JS.slice_last. symmetry. apply firstn_skipn.
Qed.

Lemma history_after_step_witness :
  exists s' evs g',
    evolveStep insertion_sort_random 1 noon two_dying two_dying_tape
    = Some (s', evs, g') /\
    let h := api_history s' in
    h_events h
    = JS.slice_last 100 (or_else (events two_dying) [] ++ stamp noon 0 evs) /\
    (List.length evs <= 100 ->
     exists older, h_events h = older ++ stamp noon 0 evs) /\
    List.length (h_events h) <= 100 /\
    List.length (h_extinct h) <= 20 /\
    List.length (h_sound_shifts h) <= 20 /\
    (exists older, or_else (extinct s') [] = older ++ h_extinct h) /\
    (exists older, or_else (sound_shifts s') [] = older ++ h_sound_shifts h) /\
    h_compounds h = or_else (compounds s') [].
Proof.
  destruct (evolveStep insertion_sort_random 1 noon two_dying two_dying_tape)
    as [[[s' evs] g']|] eqn:E; [|vm_compute in E; discriminate].
  exists s', evs, g'. split; [reflexivity|].
  exact (history_after_step insertion_sort_random 1 noon two_dying
           two_dying_tape s' evs g' E).
Defined.

(** ** Usage *)

Lemma get_set_same {V : Type} k (v : V) o : Obj.get k (Obj.set k v o) = Some v.
Proof.
  induction o as [|[k' v'] o IH]; simpl.
  - now rewrite String.eqb_refl.
  - destruct (String.eqb_spec k k') as [-> | Hne]; simpl.
    + now rewrite String.eqb_refl.
    + destruct (String.eqb_spec k k'); [congruence | exact IH].
Qed.

Lemma get_set_other {V : Type} w k (v : V) o :
  w <> k -> Obj.get w (Obj.set k v o) = Obj.get w o.
Proof.
  intros Hne. induction o as [|[k' v'] o IH]; simpl.
  - destruct (String.eqb_spec w k); [congruence | reflexivity].
  - destruct (String.eqb_spec k k') as [-> | Hk]; simpl.
    + destruct (String.eqb_spec w k'); [congruence | reflexivity].
    + destruct (String.eqb_spec w k'); [reflexivity | exact IH].
Qed.

Lemma get_update {V : Type} w k (f : V -> V) o :
  Obj.get w (Obj.update k f o)
  = if String.eqb w k then option_map f (Obj.get w o) else Obj.get w o.
Proof.
  unfold Obj.update. destruct (String.eqb_spec w k) as [-> | Hne].
  - destruct (Obj.get k o) as [v|] eqn:E.
    + now rewrite get_set_same.
    + now rewrite E.
  - destruct (Obj.get k o) as [v|]; [now apply get_set_other | reflexivity].
Qed.

Lemma existsb_eqb_false w (l : list string) :
  ~ In w l -> existsb (String.eqb w) l = false.
Proof.
  intros H. destruct (existsb (String.eqb w) l) eqn:E; [|reflexivity].
  apply existsb_exists in E. destruct E as (x & Hin & Ex).
  apply String.eqb_eq in Ex. subst. contradiction.
Qed.

Lemma get_fold_update {V : Type} (f : V -> V) used (o : Obj.t V) w :
  NoDup used ->
  Obj.get w (fold_left (fun acc k => Obj.update k f acc) used o)
  = if existsb (String.eqb w) used then option_map f (Obj.get w o)
    else Obj.get w o.
Proof.
  intros Hnd. revert o.
  induction Hnd as [|k used Hk Hnd IH]; intros o; [reflexivity|].
  cbn [fold_left existsb]. rewrite IH, get_update.
  destruct (String.eqb_spec w k) as [-> | Hne]; cbn [orb]; [|reflexivity].
  now rewrite (existsb_eqb_false _ _ Hk).
Qed.

Lemma NoDup_firstn {A : Type} n (l : list A) : NoDup l -> NoDup (firstn n l).
Proof.
  intros H. rewrite <- (firstn_skipn n l) in H.
  now apply NoDup_app_remove_r in H.
Qed.

Lemma use_word_capped d : (2 <? fitness (use_word d))%float = false.
Proof.
  unfold use_word. cbn [fitness]. unfold JS.Math_min.
  set (x := (fitness d + lit_f_0_1)%float).
  destruct (is_nan 2 || is_nan x)%bool; [reflexivity|].
  destruct (2 <? x)%float eqn:E1; [reflexivity|].
  destruct (x <? 2)%float; [exact E1|].
  cbn. exact E1.
Qed.

Lemma use_word_fields d :
  meaning (use_word d) = meaning d /\ category (use_word d) = category d /\
  born (use_word d) = born d /\ history (use_word d) = history d /\
  ((- 2 ^ 53 <= uses d < 2 ^ 53)%Z -> uses (use_word d) = (uses d + 1)%Z) /\
  (uses d = (2 ^ 53)%Z -> uses (use_word d) = uses d) /\
  fitness (use_word d)
  = (let x := (fitness d + lit_f_0_1)%float in
     if is_nan x then nan else if (2 <? x)%float then 2%float else x).
Proof.
  unfold use_word. cbn [meaning category born history uses fitness].
  repeat (split; [reflexivity|]). split; [|split].
  - intros H. unfold JS.incr. destruct (Z.ltb_spec (uses d) (2 ^ 53)); lia.
  - intros ->. reflexivity.
  - cbv zeta. unfold JS.Math_min.
    change (is_nan 2) with false. change (is_zero 2) with false.
    cbn [orb andb].
    destruct (is_nan (fitness d + lit_f_0_1)); [reflexivity|].
    destruct (2 <? fitness d + lit_f_0_1)%float; [reflexivity|].
    destruct (fitness d + lit_f_0_1 <? 2)%float; reflexivity.
Qed.

(** X20.  The usage step, for a comparator sort that permutes.  It uses
    the first [min(max(1, floor(n / 3)), n)] keys of the shuffled array of
    the [n] living words, each once.  A used word gets one more use (at
    2^53 the increment of a Number leaves the count as it is) and the
    fitness [Math.min(2.0, fitness + 0.1)], which is never above 2.0; its
    other fields, every other word, the order of the keys and the rest of
    the state stay as they were. *)
Theorem usage_uses_a_third
    (sort_random : list string -> Rand (list string)) (l : Lex) (g : Rng) :
  sort_permutes sort_random -> Obj.wf (l_words l) ->
  let ws := l_words l in
  let n := List.length (Obj.keys ws) in
  let l2 := fst (usage sort_random l g) in
  exists used,
    used = firstn (Nat.min (Nat.max 1 (n / 3)) n)
                  (fst (sort_random (Obj.keys ws) g)) /\
    NoDup used /\ incl used (Obj.keys ws) /\
    List.length used = Nat.min (Nat.max 1 (n / 3)) n /\
    Obj.keys (l_words l2) = Obj.keys ws /\
    (l_compounds l2, l_generation l2, l_extinct l2, l_sound_shifts l2,
     l_events l2, l_out l2)
    = (l_compounds l, l_generation l, l_extinct l, l_sound_shifts l,
       l_events l, l_out l) /\
    (l_generated l2, l_extinct_n l2, l_compounds_n l2, l_shifts_n l2)
    = (l_generated l, l_extinct_n l, l_compounds_n l, l_shifts_n l) /\
    (forall w d, Obj.get w ws = Some d ->
       exists d',
         Obj.get w (l_words l2) = Some d' /\
         meaning d' = meaning d /\ category d' = category d /\
         born d' = born d /\ history d' = history d /\
         if existsb (String.eqb w) used then
           ((- 2 ^ 53 <= uses d < 2 ^ 53)%Z -> uses d' = (uses d + 1)%Z) /\
           (uses d = (2 ^ 53)%Z -> uses d' = uses d) /\
           fitness d'
           = (let x := (fitness d + lit_f_0_1)%float in
              if is_nan x then nan
              else if (2 <? x)%float then 2%float else x) /\
           (2 <? fitness d')%float = false
         else uses d' = uses d /\ fitness d' = fitness d).
Proof.
  intros Hperm Hwf. cbv zeta. unfold usage, bind, ret.
  pose proof (Hperm (Obj.keys (l_words l)) g) as Hp.
  destruct (sort_random (Obj.keys (l_words l)) g) as [shuffled g1].
  cbn [fst] in *. cbn [with_words l_words l_compounds l_generation l_extinct
                       l_sound_shifts l_events l_out l_generated l_extinct_n
                       l_compounds_n l_shifts_n].
  set (used := firstn (Nat.min (usedCount (l_words l)) (List.length shuffled))
                      shuffled).
  assert (Hnd : NoDup used).
  { apply NoDup_firstn. eapply Permutation_NoDup; [exact Hp | exact Hwf]. }
  assert (Hget : forall w,
    Obj.get w (use_all shuffled (l_words l))
    = if existsb (String.eqb w) used
      then option_map use_word (Obj.get w (l_words l))
      else Obj.get w (l_words l)).
  { intros w. unfold use_all. fold used. now apply get_fold_update. }
  assert (Hk : Nat.min (usedCount (l_words l)) (List.length shuffled)
               = Nat.min (Nat.max 1 (List.length (Obj.keys (l_words l)) / 3))
                         (List.length (Obj.keys (l_words l)))).
  { rewrite <- (Permutation_length Hp). reflexivity. }
  exists used. split; [unfold used; now rewrite Hk|].
  split; [exact Hnd|]. split.
  { intros w Hw. apply In_firstn in Hw.
    eapply Permutation_in; [symmetry; exact Hp | exact Hw]. }
  split.
  { unfold used. rewrite length_firstn, Hk.
    rewrite <- (Permutation_length Hp). lia. }
  split; [apply use_all_keys|].
  split; [reflexivity | split; [reflexivity|]].
  intros w d Hw. rewrite Hget, Hw.
  destruct (existsb (String.eqb w) used).
  - exists (use_word d). split; [reflexivity|].
    destruct (use_word_fields d) as (H1 & H2 & H3 & H4 & H5 & H6 & H7).
    repeat (split; [assumption|]). apply use_word_capped.
  - exists d. repeat split.
Qed.

Lemma usage_uses_a_third_witness :
  let l := ensure four_words in
  let ws := l_words l in
  let n := List.length (Obj.keys ws) in
  let l2 := fst (usage insertion_sort_random l compound_tape) in
  Obj.wf ws /\
  l_words l2
  = [("ka", mkWord "water" "natural" 0 2 0x1.199999999999ap+0%float ["ka"]);
     ("ni", mkWord "fire" "natural" 0 1 1.0%float ["ni"]);
     ("tu", mkWord "wind" "natural" 0 1 1.0%float ["tu"]);
     ("sa", mkWord "earth" "natural" 0 1 1.0%float ["sa"])] /\
  exists used,
    used = firstn (Nat.min (Nat.max 1 (n / 3)) n)
                  (fst (insertion_sort_random (Obj.keys ws) compound_tape)) /\
    NoDup used /\ incl used (Obj.keys ws) /\
    List.length used = Nat.min (Nat.max 1 (n / 3)) n /\
    Obj.keys (l_words l2) = Obj.keys ws /\
    (l_compounds l2, l_generation l2, l_extinct l2, l_sound_shifts l2,
     l_events l2, l_out l2)
    = (l_compounds l, l_generation l, l_extinct l, l_sound_shifts l,
       l_events l, l_out l) /\
    (l_generated l2, l_extinct_n l2, l_compounds_n l2, l_shifts_n l2)
    = (l_generated l, l_extinct_n l, l_compounds_n l, l_shifts_n l) /\
    (forall w d, Obj.get w ws = Some d ->
       exists d',
         Obj.get w (l_words l2) = Some d' /\
         meaning d' = meaning d /\ category d' = category d /\
         born d' = born d /\ history d' = history d /\
         if existsb (String.eqb w) used then
           ((- 2 ^ 53 <= uses d < 2 ^ 53)%Z -> uses d' = (uses d + 1)%Z) /\
           (uses d = (2 ^ 53)%Z -> uses d' = uses d) /\
           fitness d'
           = (let x := (fitness d + lit_f_0_1)%float in
              if is_nan x then nan
              else if (2 <? x)%float then 2%float else x) /\
           (2 <? fitness d')%float = false
         else uses d' = uses d /\ fitness d' = fitness d).
Proof.
  cbv zeta.
  assert (Hwf : Obj.wf (l_words (ensure four_words))).
  { unfold Obj.wf. cbn. repeat constructor; cbn; intuition discriminate. }
  split; [exact Hwf | split; [vm_compute; reflexivity|]].
  exact (usage_uses_a_third insertion_sort_random (ensure four_words)
           compound_tape insertion_sort_permutes Hwf).
Defined.
